(** * PABLO language core: tokenizer, sentence segmenter, morphology
      annotation, graph builder and the [.pgraph] codec.

    A shallow embedding of [brain/language/graph_builder.py],
    [brain/language/tokenizer.py], [brain/language/sentences.py] and
    [brain/language/morph.py].

    Conventions.
    - A Python [int] is a [Z]; bit operations are [Z.land], [Z.lor],
      [Z.shiftl], [Z.shiftr] (Python's ints behave as infinite
      two's-complement numbers, exactly like [Z]).
    - A Python [bytes]/[bytearray] is a [list Z] of values in [0, 256).
    - A Python [str] is the list of its code points.
    - List offsets and lengths are [nat].
    - A call either returns, raises, or (for a [while True] loop modelled
      with fuel) runs out of fuel: type [outcome]. *)

From Stdlib Require Import ZArith Lia String Ascii.
From stdpp Require Import base option list gmap.

Local Open Scope Z_scope.

(* ===================================================================== *)
(** ** Outcomes of a call *)
(* ===================================================================== *)

(** The exceptions the modelled code raises. *)
Inductive exn : Type :=
| ValueError (msg : string)
| IndexError (msg : string)
| OverflowError (msg : string).

Inductive outcome (A : Type) : Type :=
| Return (a : A)
| Raise (e : exn)
| OutOfFuel.
Arguments Return {A} a.
Arguments Raise {A} e.
Arguments OutOfFuel {A}.

Global Instance outcome_ret : MRet outcome := fun _ a => Return a.
Global Instance outcome_bind : MBind outcome := fun _ _ f m =>
  match m with
  | Return a => f a
  | Raise e => Raise e
  | OutOfFuel => OutOfFuel
  end.

(** [for x in xs: acc = body acc x], stopping at the first exception. *)
Fixpoint for_each {A S} (body : S -> A -> outcome S) (xs : list A) (acc : S)
  : outcome S :=
  match xs with
  | [] => Return acc
  | x :: xs' => acc' ← body acc x; for_each body xs' acc'
  end.

Definition raised {A} (o : outcome A) : Prop := exists e, o = Raise e.

(* ===================================================================== *)
(** ** graph_builder.py *)
(* ===================================================================== *)

Module GraphCore.

Abbreviation bytes := (list Z) (only parsing).

(** 16-bit node flags (bit positions). *)
Definition NF_IS_ROOT : Z := Z.shiftl 1 0.
Definition NF_IS_STOP : Z := Z.shiftl 1 1.
Definition NF_IS_CAPITALIZED : Z := Z.shiftl 1 2.
Definition NF_IS_PUNCT : Z := Z.shiftl 1 3.
Definition NF_PROPOSED : Z := Z.shiftl 1 4.
Definition NF_IS_HEAD : Z := Z.shiftl 1 5.
Definition NF_SENT_END_STRONG : Z := Z.shiftl 1 6.
Definition NF_SENT_END_WEAK : Z := Z.shiftl 1 7.

Definition EF_DIRECTED : Z := Z.shiftl 1 0.

Definition Span : Type := Z * Z.

Record Node := mkNode {
  node_id : Z;
  n_type : Z;
  sub_type : Z;
  features_ref : Z;
  span : Span;
  n_flags : Z;
  n_confidence : Z;
  label_id : Z
}.

Record Edge := mkEdge {
  src_id : Z;
  dst_id : Z;
  e_type : Z;
  weight : Z;
  time : Z;
  e_flags : Z;
  e_confidence : Z;
  attr_ref : Z
}.

Record Graph := mkGraph {
  graph_id : Z;
  graph_type : Z;
  num_nodes : Z;
  num_edges : Z;
  g_features : option bytes;
  source_id : Z;
  version : Z;
  schema_id : Z;
  nodes : list Node;
  edges : list Edge
}.

(** *** Varint utilities *)

(** The body of [while True:] in [_uvarint_encode]; [fuel] bounds the number
    of iterations, [None] means the bound was hit. *)
Fixpoint uvarint_encode_loop (fuel : nat) (value : Z) (out : bytes)
  : option bytes :=
  match fuel with
  | O => None
  | S fuel' =>
      let b := Z.land value 0x7F in
      let value := Z.shiftr value 7 in
      if negb (value =? 0)
      then uvarint_encode_loop fuel' value (out ++ [Z.lor b 0x80])
      else Some (out ++ [b])
  end.

(** One iteration per 7 bits of [value], and one more. *)
Definition uvarint_fuel (value : Z) : nat := S (Z.to_nat (Z.log2 value)).

Definition _uvarint_encode (value : Z) : outcome bytes :=
  if value <? 0 then Raise (ValueError "uvarint cannot encode negative values")
  else match uvarint_encode_loop (uvarint_fuel value) value [] with
       | Some out => Return out
       | None => OutOfFuel
       end.

(** Every region of the buffer the decoder asks for is recorded: offset
    and width. The record is ghost state; it does not influence the result. *)
Record read := mkRead { r_off : nat; r_len : nat }.

Definition Dec (A : Type) : Type := list read -> outcome A * list read.

Definition dret {A} (a : A) : Dec A := fun tr => (Return a, tr).
Definition draise {A} (e : exn) : Dec A := fun tr => (Raise e, tr).
Definition dbind {A B} (m : Dec A) (f : A -> Dec B) : Dec B := fun tr =>
  match m tr with
  | (Return a, tr') => f a tr'
  | (Raise e, tr') => (Raise e, tr')
  | (OutOfFuel, tr') => (OutOfFuel, tr')
  end.
Definition touch (off len : nat) : Dec unit :=
  fun tr => (Return tt, tr ++ [mkRead off len]).

Global Instance Dec_ret : MRet Dec := @dret.
Global Instance Dec_bind : MBind Dec := fun _ _ f m => dbind m f.

(** [buf[i]]: [IndexError] past the end. *)
Definition index (buf : bytes) (i : nat) : Dec Z :=
  _ ← touch i 1;
  match buf !! i with
  | Some b => dret b
  | None => draise (IndexError "index out of range")
  end.

(** [buf[i:j]]: Python clamps a slice to the buffer, it never raises. *)
Definition slice (buf : bytes) (i j : nat) : Dec bytes :=
  _ ← touch i (j - i); dret (take (j - i) (drop i buf)).

(** The loop of [_uvarint_decode]. [rest] is [buf[i:]], so that
    [i >= len(buf)] is [rest = []] and [buf[i]] is the head of [rest]. *)
Fixpoint uvarint_decode_loop (rest : bytes) (i : nat) (shift value : Z)
  : Dec (Z * nat) :=
  match rest with
  | [] =>
      _ ← touch i 1; draise (ValueError "uvarint: truncated input")
  | b :: rest' =>
      _ ← touch i 1;
      let i := S i in
      let value := Z.lor value (Z.shiftl (Z.land b 0x7F) shift) in
      if Z.land b 0x80 =? 0 then dret (value, i)
      else
        let shift := shift + 7 in
        if shift >? 63 then draise (ValueError "uvarint: value too large")
        else uvarint_decode_loop rest' i shift value
  end.

Definition _uvarint_decode (buf : bytes) (offset : nat) : Dec (Z * nat) :=
  uvarint_decode_loop (drop offset buf) offset 0 0.

(** *** GraphBuilder *)

Record GraphBuilder := mkGraphBuilder {
  _graph_id : Z;
  _graph_type : Z;
  _source_id : Z;
  _version : Z;
  _schema_id : Z;
  _nodes : list Node;
  _edges : list Edge;
  _features : option bytes
}.

(** A method is a function from the builder to what the call does and the
    builder afterwards. *)
Definition method (A : Type) : Type := GraphBuilder -> outcome A * GraphBuilder.

Definition GraphBuilder_init (graph_id schema_id graph_type source_id version : Z)
    (g_features : option bytes) : GraphBuilder :=
  {| _graph_id := graph_id; _graph_type := graph_type;
     _source_id := source_id; _version := version; _schema_id := schema_id;
     _nodes := []; _edges := []; _features := g_features |}.

Definition with_nodes (self : GraphBuilder) (ns : list Node) : GraphBuilder :=
  {| _graph_id := _graph_id self; _graph_type := _graph_type self;
     _source_id := _source_id self; _version := _version self;
     _schema_id := _schema_id self; _nodes := ns; _edges := _edges self;
     _features := _features self |}.

Definition with_edges (self : GraphBuilder) (es : list Edge) : GraphBuilder :=
  {| _graph_id := _graph_id self; _graph_type := _graph_type self;
     _source_id := _source_id self; _version := _version self;
     _schema_id := _schema_id self; _nodes := _nodes self; _edges := es;
     _features := _features self |}.

Definition with_features (self : GraphBuilder) (f : option bytes)
  : GraphBuilder :=
  {| _graph_id := _graph_id self; _graph_type := _graph_type self;
     _source_id := _source_id self; _version := _version self;
     _schema_id := _schema_id self; _nodes := _nodes self;
     _edges := _edges self; _features := f |}.

Definition add_node (n_type sub_type label_id : Z) (span : Span)
    (flags confidence features_ref : Z) : method Z := fun self =>
  let node_id := Z.of_nat (length (_nodes self)) in
  (Return node_id,
   with_nodes self (_nodes self ++
     [mkNode node_id n_type sub_type features_ref span flags confidence
        label_id])).

Definition add_edge (src_id dst_id e_type weight time flags confidence
    attr_ref : Z) : method Z := fun self =>
  let self' := with_edges self (_edges self ++
     [mkEdge src_id dst_id e_type weight time flags confidence attr_ref]) in
  (Return (Z.of_nat (length (_edges self')) - 1), self').

Definition set_thumbnail (features : option bytes) : method unit := fun self =>
  match features with
  | Some f =>
      if negb (bool_decide (length f = 64%nat) || bool_decide (length f = 128%nat))
      then (Raise (ValueError
                     "g_features must be 64 or 128 bytes (int8) or None"),
            self)
      else (Return tt, with_features self features)
  | None => (Return tt, with_features self features)
  end.

Definition finalize (self : GraphBuilder) : Graph :=
  {| graph_id := _graph_id self;
     graph_type := _graph_type self;
     num_nodes := Z.of_nat (length (_nodes self));
     num_edges := Z.of_nat (length (_edges self));
     g_features := _features self;
     source_id := _source_id self;
     version := _version self;
     schema_id := _schema_id self;
     nodes := _nodes self;
     edges := _edges self |}.

(** *** The .pgraph codec *)

(** ["PGRA"] *)
Definition _PG_MAGIC : bytes := [80; 71; 82; 65].

Fixpoint le_bytes (len : nat) (v : Z) : bytes :=
  match len with
  | O => []
  | S len' => Z.land v 0xFF :: le_bytes len' (Z.shiftr v 8)
  end.

(** [v.to_bytes(len, "little")] *)
Definition to_bytes_little (v : Z) (len : nat) : outcome bytes :=
  if v <? 0
  then Raise (OverflowError "can't convert negative int to unsigned")
  else if 2 ^ (8 * Z.of_nat len) <=? v
  then Raise (OverflowError "int too big to convert")
  else Return (le_bytes len v).

(** [int.from_bytes(bs, "little")] *)
Fixpoint from_bytes_little (bs : bytes) : Z :=
  match bs with
  | [] => 0
  | b :: bs' => Z.lor b (Z.shiftl (from_bytes_little bs') 8)
  end.

Definition encode_node (out : bytes) (n : Node) : outcome bytes :=
  v ← _uvarint_encode (node_id n); let out := out ++ v in
  let out := out ++ [Z.land (n_type n) 0xFF] in
  let out := out ++ [Z.land (sub_type n) 0xFF] in
  v ← _uvarint_encode (features_ref n); let out := out ++ v in
  v ← _uvarint_encode (fst (span n)); let out := out ++ v in
  v ← _uvarint_encode (snd (span n)); let out := out ++ v in
  v ← to_bytes_little (Z.land (n_flags n) 0xFFFF) 2; let out := out ++ v in
  let out := out ++ [Z.land (n_confidence n) 0xFF] in
  v ← _uvarint_encode (label_id n); let out := out ++ v in
  Return out.

Definition encode_edge (out : bytes) (e : Edge) : outcome bytes :=
  v ← _uvarint_encode (src_id e); let out := out ++ v in
  v ← _uvarint_encode (dst_id e); let out := out ++ v in
  let out := out ++ [Z.land (e_type e) 0xFF] in
  let out := out ++ [Z.land (weight e) 0xFF] in
  v ← _uvarint_encode (time e); let out := out ++ v in
  v ← to_bytes_little (Z.land (e_flags e) 0xFFFF) 2; let out := out ++ v in
  let out := out ++ [Z.land (e_confidence e) 0xFF] in
  v ← _uvarint_encode (attr_ref e); let out := out ++ v in
  Return out.

Definition encode_pgraph (g : Graph) : outcome bytes :=
  let out := [] in
  let out := out ++ _PG_MAGIC in
  (* Graph header *)
  v ← _uvarint_encode (graph_id g); let out := out ++ v in
  let out := out ++ [Z.land (graph_type g) 0xFF] in
  v ← _uvarint_encode (num_nodes g); let out := out ++ v in
  v ← _uvarint_encode (num_edges g); let out := out ++ v in
  v ← _uvarint_encode (source_id g); let out := out ++ v in
  v ← _uvarint_encode (version g); let out := out ++ v in
  let out := out ++ [Z.land (schema_id g) 0xFF] in
  (* Node table *)
  out ← for_each encode_node (nodes g) out;
  (* Edge table *)
  out ← for_each encode_edge (edges g) out;
  (* Adjuncts: g_features *)
  let feat := match g_features g with
              | Some f => if bool_decide (f = []) then [] else f
              | None => []
              end in
  v ← _uvarint_encode (Z.of_nat (length feat)); let out := out ++ v in
  let out := if bool_decide (feat = []) then out else out ++ feat in
  Return out.

Definition decode_node (buf : bytes) (i : nat) : Dec (Node * nat) :=
  '(node_id, i) ← _uvarint_decode buf i;
  n_type ← index buf i; let i := (i + 1)%nat in
  sub_type ← index buf i; let i := (i + 1)%nat in
  '(features_ref, i) ← _uvarint_decode buf i;
  '(span0, i) ← _uvarint_decode buf i;
  '(span1, i) ← _uvarint_decode buf i;
  fl ← slice buf i (i + 2);
  let flags := from_bytes_little fl in let i := (i + 2)%nat in
  confidence ← index buf i; let i := (i + 1)%nat in
  '(label_id, i) ← _uvarint_decode buf i;
  mret (mkNode node_id n_type sub_type features_ref (span0, span1) flags
          confidence label_id, i).

Definition decode_edge (buf : bytes) (i : nat) : Dec (Edge * nat) :=
  '(src_id, i) ← _uvarint_decode buf i;
  '(dst_id, i) ← _uvarint_decode buf i;
  e_type ← index buf i; let i := (i + 1)%nat in
  weight ← index buf i; let i := (i + 1)%nat in
  '(time, i) ← _uvarint_decode buf i;
  fl ← slice buf i (i + 2);
  let flags := from_bytes_little fl in let i := (i + 2)%nat in
  confidence ← index buf i; let i := (i + 1)%nat in
  '(attr_ref, i) ← _uvarint_decode buf i;
  mret (mkEdge src_id dst_id e_type weight time flags confidence attr_ref, i).

(** [for _ in range(count): acc.append(<one record read at i>)] *)
Fixpoint decode_table {A} (rd : bytes -> nat -> Dec (A * nat)) (count : nat)
    (buf : bytes) (i : nat) (acc : list A) : Dec (list A * nat) :=
  match count with
  | O => mret (acc, i)
  | S count' =>
      '(x, i) ← rd buf i;
      decode_table rd count' buf i (acc ++ [x])
  end.

(** [decode_pgraph], with the reads it performs. *)
Definition decode_pgraph_reads (buf : bytes) : Dec Graph :=
  magic ← slice buf 0 4;
  if negb (bool_decide (magic = _PG_MAGIC))
  then draise (ValueError
                 "Invalid magic; not a .pgraph single-graph payload")
  else
  let i := 4%nat in
  '(graph_id, i) ← _uvarint_decode buf i;
  graph_type ← index buf i; let i := (i + 1)%nat in
  '(num_nodes, i) ← _uvarint_decode buf i;
  '(num_edges, i) ← _uvarint_decode buf i;
  '(source_id, i) ← _uvarint_decode buf i;
  '(version, i) ← _uvarint_decode buf i;
  schema_id ← index buf i; let i := (i + 1)%nat in
  '(nodes, i) ← decode_table decode_node (Z.to_nat num_nodes) buf i [];
  '(edges, i) ← decode_table decode_edge (Z.to_nat num_edges) buf i [];
  '(feat_len, i) ← _uvarint_decode buf i;
  '(g_features, i) ←
    (if negb (feat_len =? 0)
     then
       g_features ← slice buf i (i + Z.to_nat feat_len);
       if negb (Z.of_nat (length g_features) =? feat_len)
       then draise (ValueError "Truncated g_features")
       else mret (Some g_features, (i + Z.to_nat feat_len)%nat)
     else mret (None, i));
  mret {| graph_id := graph_id;
          graph_type := graph_type;
          num_nodes := Z.of_nat (length nodes);
          num_edges := Z.of_nat (length edges);
          g_features := g_features;
          source_id := source_id;
          version := version;
          schema_id := schema_id;
          nodes := nodes;
          edges := edges |}.

Definition decode_pgraph (buf : bytes) : outcome Graph :=
  fst (decode_pgraph_reads buf []).

End GraphCore.

(* ===================================================================== *)
(** ** tokenizer.py *)
(* ===================================================================== *)

Module Tokenizer.

(** A [str] is the list of its code points. *)
Abbreviation char := Z (only parsing).
Abbreviation str := (list Z) (only parsing).

(** An ASCII literal as a [str]. *)
Definition lit (s : string) : str :=
  map (fun a => Z.of_N (N_of_ascii a)) (list_ascii_of_string s).

(** [str.isdigit], [str.isalpha] and [str.isupper] on one character are
    lookups in the Unicode character database, which is not part of the
    repository: the tokenizer is stated over any such classification. *)
Class Unicode := {
  isdigit : char -> bool;
  isalpha : char -> bool;
  isupper : char -> bool
}.

Definition between (lo hi c : Z) : bool := (lo <=? c) && (c <=? hi).

(** The classification of the Basic Latin block (code points below 128),
    where it is [0-9], [A-Za-z] and [A-Z]; used to run the tokenizer on
    ASCII text. *)
Definition basic_latin : Unicode := {|
  isdigit c := between 48 57 c;
  isalpha c := between 65 90 c || between 97 122 c;
  isupper c := between 65 90 c
|}.

Record Token := mkToken {
  idx : nat;
  text : str;
  start : nat;
  end_ : nat;
  flags : Z
}.

(** Token flags (bit positions). *)
Definition TF_CAP : Z := Z.shiftl 1 0.
Definition TF_PUNCT : Z := Z.shiftl 1 1.
Definition TF_NUM : Z := Z.shiftl 1 2.
Definition TF_SENT_END_STRONG : Z := Z.shiftl 1 3.
Definition TF_SENT_END_WEAK : Z := Z.shiftl 1 4.

(** The named groups of [_MASTER], in priority order. *)
Inductive Kind := URL | EMAIL | HANDLE | ELLIPSIS | WORD | PUNCT | WS.

Global Instance Kind_eq_dec : EqDecision Kind.
Proof. solve_decision. Defined.

(** *** The regular expressions

    Each alternative of [_MASTER] is a function from the text at the
    current position to the length of its match there, following the
    backtracking order of Python's [re]. *)

(** [\s] for a [str] pattern: Python's Unicode white space. *)
Definition isspace (c : char) : bool :=
  between 0x09 0x0D c || between 0x1C 0x20 c || (c =? 0x85) || (c =? 0xA0)
  || (c =? 0x1680) || between 0x2000 0x200A c || (c =? 0x2028)
  || (c =? 0x2029) || (c =? 0x202F) || (c =? 0x205F) || (c =? 0x3000).

(** [[A-Za-z]] *)
Definition is_letter (c : char) : bool := between 65 90 c || between 97 122 c.
(** [[A-Za-z0-9]] *)
Definition is_alnum (c : char) : bool := is_letter c || between 48 57 c.
(** [[A-Za-z0-9._%+\-]] *)
Definition is_local (c : char) : bool :=
  is_alnum c || (c =? 46) || (c =? 95) || (c =? 37) || (c =? 43) || (c =? 45).
(** [[A-Za-z0-9.\-]] *)
Definition is_domain (c : char) : bool := is_alnum c || (c =? 46) || (c =? 45).
(** [[A-Za-z0-9_]] *)
Definition is_handle (c : char) : bool := is_alnum c || (c =? 95).
(** [[’'\-]] *)
Definition is_joiner (c : char) : bool := (c =? 0x2019) || (c =? 39) || (c =? 45).
(** The class of [_PUNCT]: [. , ? ! ; : ( ) [ ] { }], the straight double
    quote, the curly quotes [“ ” ‘ ’], the dashes [— –] and [-]. *)
Definition is_punct (c : char) : bool :=
  (c =? 46) || (c =? 44) || (c =? 63) || (c =? 33) || (c =? 59) || (c =? 58)
  || (c =? 40) || (c =? 41) || (c =? 91) || (c =? 93) || (c =? 123)
  || (c =? 125) || (c =? 34) || (c =? 0x201C) || (c =? 0x201D)
  || (c =? 0x2018) || (c =? 0x2019) || (c =? 0x2014) || (c =? 0x2013)
  || (c =? 45).

(** Length of the longest prefix whose characters all satisfy [p]: what a
    greedy [[...]*] takes first. *)
Fixpoint run (p : char -> bool) (l : str) : nat :=
  match l with
  | c :: l' => if p c then S (run p l') else O
  | [] => O
  end.

Fixpoint starts_with (pre l : str) : bool :=
  match pre, l with
  | [], _ => true
  | a :: pre', b :: l' => (a =? b) && starts_with pre' l'
  | _ :: _, [] => false
  end.

(** A literal prefix followed by [\S+]. *)
Definition prefix_then_nonspace (pre l : str) : option nat :=
  if starts_with pre l then
    let r := run (fun c => negb (isspace c)) (drop (length pre) l) in
    if (0 <? r)%nat then Some (length pre + r)%nat else None
  else None.

(** [(?:https?://\S+|www\.\S+)]. The greedy [s?] is tried with the [s]
    first. *)
Definition match_URL (l : str) : option nat :=
  match prefix_then_nonspace (lit "https://") l with
  | Some n => Some n
  | None =>
      match prefix_then_nonspace (lit "http://") l with
      | Some n => Some n
      | None => prefix_then_nonspace (lit "www.") l
      end
  end.

(** [[A-Za-z0-9.\-]+\.[A-Za-z]{2,}] on [l], trying the lengths [m], [m-1],
    ..., [1] for the greedy [[A-Za-z0-9.\-]+] in that order. *)
Fixpoint email_domain (l : str) (m : nat) : option nat :=
  match m with
  | O => None
  | S m' =>
      match drop m l with
      | c :: l' =>
          if (c =? 46) && (2 <=? run is_letter l')%nat
          then Some (m + 1 + run is_letter l')%nat
          else email_domain l m'
      | [] => email_domain l m'
      end
  end.

(** [[A-Za-z0-9._%+\-]+@[A-Za-z0-9.\-]+\.[A-Za-z]{2,}]. Only the longest
    local part can be followed by [@], which is not in its class. *)
Definition match_EMAIL (l : str) : option nat :=
  let a := run is_local l in
  if (a =? 0)%nat then None
  else
    match drop a l with
    | c :: l' =>
        if c =? 64 then
          match email_domain l' (run is_domain l') with
          | Some n => Some (a + 1 + n)%nat
          | None => None
          end
        else None
    | [] => None
    end.

(** [[@#][A-Za-z0-9_]+] *)
Definition match_HANDLE (l : str) : option nat :=
  match l with
  | c :: l' =>
      if ((c =? 64) || (c =? 35)) && (0 <? run is_handle l')%nat
      then Some (1 + run is_handle l')%nat
      else None
  | [] => None
  end.

(** [(?:…|\.{3})] *)
Definition match_ELLIPSIS (l : str) : option nat :=
  if starts_with [0x2026] l then Some 1%nat
  else if starts_with [46; 46; 46] l then Some 3%nat
  else None.

(** What [(?:[’'\-][A-Za-z0-9]+)*] and the rest of the first
    [[A-Za-z0-9]+] take after one letter or digit: a joiner is taken only
    when a letter or digit follows it. *)
Fixpoint wordish_rest (l : str) : nat :=
  match l with
  | c :: l' =>
      if is_alnum c then S (wordish_rest l')
      else if is_joiner c then
        match l' with
        | c' :: _ => if is_alnum c' then S (wordish_rest l') else O
        | [] => O
        end
      else O
  | [] => O
  end.

(** [[A-Za-z0-9]+(?:[’'\-][A-Za-z0-9]+)*] *)
Definition match_WORD (l : str) : option nat :=
  match l with
  | c :: l' => if is_alnum c then Some (S (wordish_rest l')) else None
  | [] => None
  end.

Definition match_PUNCT (l : str) : option nat :=
  match l with
  | c :: _ => if is_punct c then Some 1%nat else None
  | [] => None
  end.

(** [\s+] *)
Definition match_WS (l : str) : option nat :=
  if (0 <? run isspace l)%nat then Some (run isspace l) else None.

Definition tag (k : Kind) (o : option nat) : option (Kind * nat) :=
  match o with Some n => Some (k, n) | None => None end.

Fixpoint first_match (alts : list (option (Kind * nat))) : option (Kind * nat) :=
  match alts with
  | Some r :: _ => Some r
  | None :: alts' => first_match alts'
  | [] => None
  end.

(** [_MASTER.match] at the start of [l]: the first alternative that
    matches, with [m.lastgroup] and the length of the match. *)
Definition _MASTER (l : str) : option (Kind * nat) :=
  first_match [tag URL (match_URL l); tag EMAIL (match_EMAIL l);
               tag HANDLE (match_HANDLE l); tag ELLIPSIS (match_ELLIPSIS l);
               tag WORD (match_WORD l); tag PUNCT (match_PUNCT l);
               tag WS (match_WS l)].

(** A match object: [m.lastgroup] and [m.span()]. *)
Record Match := mkMatch { lastgroup : Kind; m_start : nat; m_end : nat }.

(** [_MASTER.finditer] from position [pos], where [l] is the text from
    [pos] on. The next [skip] characters belong to the match just found;
    after them the pattern is tried at every position in turn, and a
    position where it does not match is passed over. No alternative
    matches the empty string. *)
Fixpoint finditer_from (l : str) (pos skip : nat) : list Match :=
  match l with
  | [] => []
  | _ :: l' =>
      match skip with
      | S skip' => finditer_from l' (S pos) skip'
      | O =>
          match _MASTER l with
          | Some (kind, len) =>
              mkMatch kind pos (pos + len) :: finditer_from l' (S pos) (len - 1)
          | None => finditer_from l' (S pos) 0
          end
      end
  end.

Definition finditer (text : str) : list Match := finditer_from text 0 0.

(** Sets for sentence end logic. *)
Definition _TERMINATORS_STRONG : list str := [[46]; [63]; [33]].
Definition _TERMINATORS_WEAK : list str := [[0x2026]; [46; 46; 46]].
(** Closers that can follow sentence-ending punctuation. *)
Definition _CLOSERS : list str :=
  [[34]; [0x201D]; [0x2019]; [39]; [41]; [93]; [125]; [0xBB]].

Definition or_flag (bit : Z) (t : Token) : Token :=
  mkToken (idx t) (text t) (start t) (end_ t) (Z.lor (flags t) bit).

Section WithUnicode.
Context `{Unicode}.

Definition first_isupper (piece : str) : bool :=
  match piece with
  | c :: _ => isupper c
  | [] => false
  end.

(** The flags of a matched piece. *)
Definition match_flags (kind : Kind) (piece : str) : Z :=
  let flags := 0 in
  let flags :=
    if bool_decide (kind ∈ [PUNCT; ELLIPSIS]) then Z.lor flags TF_PUNCT
    else flags in
  let flags :=
    if bool_decide (kind = WORD) then
      let flags := if existsb isdigit piece then Z.lor flags TF_NUM else flags in
      if existsb isalpha piece && first_isupper piece
      then Z.lor flags TF_CAP else flags
    else flags in
  let flags :=
    if bool_decide (kind ∈ [URL; EMAIL; HANDLE]) then
      if existsb isdigit piece then Z.lor flags TF_NUM else flags
    else flags in
  flags.

(** The local variables of [tokenize]. *)
Record locals := mkLocals {
  tokens : list Token;
  i : nat;
  idx_ : nat;
  kinds : list Kind
}.

(** The body of [for m in _MASTER.finditer(text)]. *)
Definition scan_step (text : str) (st : locals) (m : Match) : locals :=
  let kind := lastgroup m in
  let s := m_start m in
  let e := m_end m in
  if bool_decide (kind = WS) then mkLocals (tokens st) e (idx_ st) (kinds st)
  else
    let piece := take (e - s) (drop s text) in
    let flags := match_flags kind piece in
    mkLocals (tokens st ++ [mkToken (idx_ st) piece s e flags]) e
             (S (idx_ st)) (kinds st ++ [kind]).

(** [if i < len(text):], the fallback. *)
Definition fallback (text : str) (st : locals) : locals :=
  if (i st <? length text)%nat then
    let piece := drop (i st) text in
    let flags := 0 in
    let flags := if existsb isdigit piece then Z.lor flags TF_NUM else flags in
    let flags :=
      if negb (bool_decide (piece = [])) && existsb isalpha piece
         && first_isupper piece
      then Z.lor flags TF_CAP else flags in
    mkLocals (tokens st ++ [mkToken (idx_ st) piece (i st) (length text) flags])
             (i st) (idx_ st) (kinds st ++ [WORD])
  else st.

(** [while j < n and tokens[j].text in _CLOSERS], with [d = n - j]. *)
Fixpoint bubble (d : nat) (tokens : list Token) (j : nat) : list Token :=
  match d with
  | O => tokens
  | S d' =>
      match tokens !! j with
      | Some t =>
          if bool_decide (text t ∈ _CLOSERS)
          then bubble d' (alter (or_flag TF_SENT_END_WEAK) j tokens) (S j)
          else tokens
      | None => tokens
      end
  end.

(** The body of the post-pass [for k in range(n)]. *)
Definition sentence_end_step (kinds : list Kind) (n : nat)
    (tokens : list Token) (k : nat) : list Token :=
  match tokens !! k, kinds !! k with
  | Some t, Some kind =>
      if bool_decide (kind ∈ [PUNCT; ELLIPSIS]) then
        if bool_decide (text t ∈ _TERMINATORS_STRONG) then
          let tokens := alter (or_flag TF_SENT_END_STRONG) k tokens in
          let j := (k + 1)%nat in
          bubble (n - j) tokens j
        else if bool_decide (text t ∈ _TERMINATORS_WEAK) then
          alter (or_flag TF_SENT_END_WEAK) k tokens
        else tokens
      else tokens
  | _, _ => tokens
  end.

Definition sentence_end_pass (kinds : list Kind) (tokens : list Token)
  : list Token :=
  let n := length tokens in
  foldl (sentence_end_step kinds n) tokens (seq 0 n).

(** The tokens and their kinds before the post-pass. *)
Definition scan (text : str) : locals :=
  fallback text (foldl (scan_step text) (mkLocals [] 0 0 []) (finditer text)).

(** [tokenize], together with the list [kinds] it keeps. *)
Definition tokenize_kinds (text : str) : list Token * list Kind :=
  let st := scan text in
  (sentence_end_pass (kinds st) (tokens st), kinds st).

Definition tokenize (text : str) : list Token := fst (tokenize_kinds text).

End WithUnicode.

End Tokenizer.

(* ===================================================================== *)
(** ** sentences.py *)
(* ===================================================================== *)

Module Sentences.
Import Tokenizer.

(** Python's truth value of an [int]. *)
Definition truthy (z : Z) : bool := negb (z =? 0).

Definition has_flag (bit : Z) (t : Token) : bool :=
  truthy (Z.land (flags t) bit).

(** [tokens[k]] *)
Definition item (tokens : list Token) (k : nat) : outcome Token :=
  match tokens !! k with
  | Some t => Return t
  | None => Raise (IndexError "list index out of range")
  end.

(** [while j < n and (tokens[j].flags & TF_SENT_END_WEAK): end = j; j += 1].
    [rest] is [tokens[j:]]: [j < n] is [rest <> []] and [tokens[j]] is its
    head. Gives the final [(end, j)]. *)
Fixpoint absorb_closers (rest : list Token) (end_ j : nat) : nat * nat :=
  match rest with
  | t :: rest' =>
      if has_flag TF_SENT_END_WEAK t then absorb_closers rest' j (S j)
      else (end_, j)
  | [] => (end_, j)
  end.

(** [while j < n and ((tokens[j].flags & TF_SENT_END_WEAK) or
    (tokens[j].flags & TF_PUNCT)): j += 1], with [rest = tokens[j:]]. *)
Fixpoint lookahead (rest : list Token) (j : nat) : nat :=
  match rest with
  | t :: rest' =>
      if has_flag TF_SENT_END_WEAK t || has_flag TF_PUNCT t
      then lookahead rest' (S j)
      else j
  | [] => j
  end.

(** [t.text in ("…", "...")] *)
Definition is_ellipsis (s : str) : bool :=
  bool_decide (s ∈ [[0x2026]; [46; 46; 46]]).

(** The variables of the main loop: [spans], [s], [k]. *)
Definition seg_state : Type := list (nat * nat) * nat * nat.

(** The body of [while k < n]. *)
Definition seg_step (tokens : list Token) (n : nat) (st : seg_state)
  : outcome seg_state :=
  let '(spans, s, k) := st in
  t ← item tokens k;
  if has_flag TF_SENT_END_STRONG t then
    (* Strong terminators always end; extend over any immediate weak closers *)
    let '(end_, j) := absorb_closers (drop (k + 1) tokens) k (k + 1) in
    let spans := spans ++ [(s, end_ + 1)%nat] in
    let s := (end_ + 1)%nat in
    Return (spans, s, s)
  else
    closes ←
      (if has_flag TF_SENT_END_WEAK t && is_ellipsis (text t) then
         let j := lookahead (drop (k + 1) tokens) (k + 1) in
         if (n <=? j)%nat then Return true
         else tj ← item tokens j; Return (has_flag TF_CAP tj)
       else Return false);
    if (closes : bool) then
      (* close exactly at ellipsis *)
      Return (spans ++ [(s, k + 1)%nat], (k + 1)%nat, (k + 1)%nat)
    else Return (spans, s, (k + 1)%nat).

(** [while k < n: <body>]; [fuel] bounds the number of iterations. *)
Fixpoint seg_loop (fuel : nat) (tokens : list Token) (n : nat)
    (st : seg_state) : outcome seg_state :=
  let '(_, _, k) := st in
  if (k <? n)%nat then
    match fuel with
    | O => OutOfFuel
    | S fuel' => st' ← seg_step tokens n st; seg_loop fuel' tokens n st'
    end
  else Return st.

Definition segment_tokens (tokens : list Token) : outcome (list (nat * nat)) :=
  let spans := [] in
  let n := length tokens in
  if (n =? 0)%nat then Return spans
  else
    '(spans, s, _) ← seg_loop n tokens n (spans, 0%nat, 0%nat);
    (* trailing material without explicit terminator *)
    let spans := if (s <? n)%nat then spans ++ [(s, n)] else spans in
    Return spans.

End Sentences.

(* ===================================================================== *)
(** ** morph.py *)
(* ===================================================================== *)

Module Morph.
Import GraphCore Tokenizer.

(** *** Tiny vocab *)

Record Vocab := mkVocab {
  _tok2id : gmap str Z;
  _id2tok : list str
}.

Definition Vocab_init : Vocab := mkVocab ∅ [].

(** [get_id]: the id, and the vocabulary after the call. *)
Definition get_id (s : str) (self : Vocab) : Z * Vocab :=
  match _tok2id self !! s with
  | Some id => (id, self)
  | None =>
      let idx := Z.of_nat (length (_id2tok self)) + 1 in
      (idx, mkVocab (<[s := idx]> (_tok2id self)) (_id2tok self ++ [s]))
  end.

Definition get_str (i : Z) (self : Vocab) : str :=
  if (i <=? 0) || (Z.of_nat (length (_id2tok self)) <? i) then []
  else default [] (_id2tok self !! Z.to_nat (i - 1)).

(** The vocabulary after [get_id] was called on each string of [ss] in
    turn. *)
Definition intern_all (ss : list str) (v : Vocab) : Vocab :=
  foldl (fun v s => snd (get_id s v)) v ss.

(** *** Graph annotation *)

Record MorphInfo := mkMorphInfo {
  lemma : str;
  lemma_id : Z;
  pos : Z;
  bits : Z;
  is_stop : bool
}.

(** [annotate_graph] writes to the [Node] objects the graph's list refers
    to. The objects live in a store, and the node list of a graph in memory
    is a list of references into it; two entries of one list may be the same
    object. The header fields and the edges are never written and are kept
    by value. *)
Abbreviation ref := positive (only parsing).
Abbreviation store := (gmap positive Node) (only parsing).

Record GraphObj := mkGraphObj {
  o_graph_id : Z;
  o_graph_type : Z;
  o_num_nodes : Z;
  o_num_edges : Z;
  o_g_features : option bytes;
  o_source_id : Z;
  o_version : Z;
  o_schema_id : Z;
  o_nodes : list ref;
  o_edges : list Edge
}.

(** The value of a graph in memory: every referenced node read from the
    store. *)
Definition graph_value (σ : store) (g : GraphObj) : option Graph :=
  ns ← mapM (fun r => σ !! r) (o_nodes g);
  Some {| graph_id := o_graph_id g;
          graph_type := o_graph_type g;
          num_nodes := o_num_nodes g;
          num_edges := o_num_edges g;
          g_features := o_g_features g;
          source_id := o_source_id g;
          version := o_version g;
          schema_id := o_schema_id g;
          nodes := ns;
          edges := o_edges g |}.

(** The three assignments of the loop body, on one node. *)
Definition annotate_node (mi : MorphInfo) (node : Node) : Node :=
  let node := mkNode (node_id node) (n_type node) (pos mi)
                     (features_ref node) (span node) (n_flags node)
                     (n_confidence node) (label_id node) in
  let node := mkNode (node_id node) (n_type node) (sub_type node)
                     (features_ref node) (span node) (n_flags node)
                     (n_confidence node) (lemma_id mi) in
  if is_stop mi
  then mkNode (node_id node) (n_type node) (sub_type node)
              (features_ref node) (span node)
              (Z.lor (n_flags node) NF_IS_STOP)
              (n_confidence node) (label_id node)
  else node.

(** The body of [for i in range(n)]. *)
Definition annotate_step (g : GraphObj) (morphs : list MorphInfo)
    (σ : store) (i : nat) : outcome store :=
  match o_nodes g !! i with
  | None => Raise (IndexError "list index out of range")
  | Some node =>
      match morphs !! i with
      | None => Raise (IndexError "list index out of range")
      | Some mi =>
          match σ !! node with
          | None => Raise (ValueError "dangling reference")
          | Some obj => Return (<[node := annotate_node mi obj]> σ)
          end
      end
  end.

Definition annotate_graph (g : GraphObj) (tokens : list Token)
    (morphs : list MorphInfo) (σ : store) : outcome store :=
  let n := Nat.min (length (o_nodes g))
                   (Nat.min (length tokens) (length morphs)) in
  for_each (annotate_step g morphs) (seq 0 n) σ.

End Morph.

(* ===================================================================== *)
(** ** Ranges of the wire format *)
(* ===================================================================== *)

Module Ranges.
Import GraphCore.

(** A field written as a varint: unsigned, and read back within ten bytes
    (the decoder stops once the shift exceeds 63). *)
Definition uvarint_ok (v : Z) : Prop := 0 <= v < 2 ^ 70.
(** A field written as one raw byte. *)
Definition byte_ok (v : Z) : Prop := 0 <= v < 256.
(** A field written as two bytes, little endian. *)
Definition u16_ok (v : Z) : Prop := 0 <= v < 65536.

Record node_ok (n : Node) : Prop := {
  node_id_ok : uvarint_ok (node_id n);
  n_type_ok : byte_ok (n_type n);
  sub_type_ok : byte_ok (sub_type n);
  features_ref_ok : uvarint_ok (features_ref n);
  span0_ok : uvarint_ok (fst (span n));
  span1_ok : uvarint_ok (snd (span n));
  n_flags_ok : u16_ok (n_flags n);
  n_confidence_ok : byte_ok (n_confidence n);
  label_id_ok : uvarint_ok (label_id n)
}.

Record edge_ok (e : Edge) : Prop := {
  src_id_ok : uvarint_ok (src_id e);
  dst_id_ok : uvarint_ok (dst_id e);
  e_type_ok : byte_ok (e_type e);
  weight_ok : byte_ok (weight e);
  time_ok : uvarint_ok (time e);
  e_flags_ok : u16_ok (e_flags e);
  e_confidence_ok : byte_ok (e_confidence e);
  attr_ref_ok : uvarint_ok (attr_ref e)
}.

(** Everything but the thumbnail. *)
Record fields_ok (g : Graph) : Prop := {
  graph_id_ok : uvarint_ok (graph_id g);
  graph_type_ok : byte_ok (graph_type g);
  num_nodes_ok : num_nodes g = Z.of_nat (length (nodes g));
  num_edges_ok : num_edges g = Z.of_nat (length (edges g));
  num_nodes_small : uvarint_ok (num_nodes g);
  num_edges_small : uvarint_ok (num_edges g);
  source_id_ok : uvarint_ok (source_id g);
  version_ok : uvarint_ok (version g);
  schema_id_ok : byte_ok (schema_id g);
  nodes_ok : Forall node_ok (nodes g);
  edges_ok : Forall edge_ok (edges g)
}.

(** [len(g.g_features or b"")] *)
Definition thumbnail_len (g : Graph) : nat := length (default [] (g_features g)).

(** The thumbnail as the specification states it: of length 0, 64 or 128. *)
Definition thumbnail_len_ok (g : Graph) : Prop :=
  thumbnail_len g ∈ [0%nat; 64%nat; 128%nat].

(** The thumbnail as [set_thumbnail] accepts it: absent, or of 64 or 128
    bytes. *)
Definition thumbnail_ok (g : Graph) : Prop :=
  match g_features g with
  | None => True
  | Some f => length f = 64%nat \/ length f = 128%nat
  end.

(** The wire image of a varint. *)
Definition uv (v : Z) : bytes :=
  default [] (uvarint_encode_loop (uvarint_fuel v) v []).

Definition node_wire (n : Node) : bytes :=
  uv (node_id n) ++ [n_type n] ++ [sub_type n] ++ uv (features_ref n)
  ++ uv (fst (span n)) ++ uv (snd (span n))
  ++ [Z.land (n_flags n) 0xFF; Z.land (Z.shiftr (n_flags n) 8) 0xFF]
  ++ [n_confidence n] ++ uv (label_id n).

Definition edge_wire (e : Edge) : bytes :=
  uv (src_id e) ++ uv (dst_id e) ++ [e_type e] ++ [weight e] ++ uv (time e)
  ++ [Z.land (e_flags e) 0xFF; Z.land (Z.shiftr (e_flags e) 8) 0xFF]
  ++ [e_confidence e] ++ uv (attr_ref e).

Definition graph_wire (g : Graph) : bytes :=
  _PG_MAGIC ++ uv (graph_id g) ++ [graph_type g] ++ uv (num_nodes g)
  ++ uv (num_edges g) ++ uv (source_id g) ++ uv (version g) ++ [schema_id g]
  ++ concat (map node_wire (nodes g)) ++ concat (map edge_wire (edges g))
  ++ uv (Z.of_nat (thumbnail_len g)) ++ default [] (g_features g).

(** [g] with another thumbnail. *)
Definition with_g_features (g : Graph) (f : option bytes) : Graph :=
  {| graph_id := graph_id g; graph_type := graph_type g;
     num_nodes := num_nodes g; num_edges := num_edges g; g_features := f;
     source_id := source_id g; version := version g;
     schema_id := schema_id g; nodes := nodes g; edges := edges g |}.

(** The thumbnail the decoder gives back: an empty one comes back absent. *)
Definition thumbnail_read_back (g : Graph) : option bytes :=
  match g_features g with
  | Some (b :: f) => Some (b :: f)
  | _ => None
  end.

(** A record reader [rd] reads [x] from the wire image [w], wherever [w]
    sits in the buffer: at the cursor [i] when [buf[i:]] starts with [w]. *)
Definition reads {A} (rd : bytes -> nat -> Dec (A * nat)) (w : bytes) (x : A)
  : Prop :=
  forall buf i rest, drop i buf = w ++ rest -> forall tr,
    exists tr', rd buf i tr = (Return (x, (i + length w)%nat), tr').

(** A read that stays inside a buffer of [n] bytes. *)
Definition within (n : nat) (r : read) : Prop := (r_off r + r_len r <= n)%nat.

(** A decoding step on a buffer of [n] bytes that returns only when every
    read so far stayed inside the buffer, and that always returns or
    raises. *)
Definition sound {A} (n : nat) (m : Dec A) : Prop :=
  forall tr, Forall (within n) tr ->
    match m tr with
    | (Return _, tr') => Forall (within n) tr'
    | (Raise _, _) => True
    | (OutOfFuel, _) => False
    end.

(** A graph with no node, no edge and an empty thumbnail. *)
Definition empty_thumbnail_graph : Graph :=
  {| graph_id := 1; graph_type := 5; num_nodes := 0; num_edges := 0;
     g_features := Some []; source_id := 0; version := 1; schema_id := 1;
     nodes := []; edges := [] |}.

(** The graph of [_self_check], with a thumbnail of 64 bytes. *)
Definition self_check_graph : Graph :=
  {| graph_id := 1; graph_type := 5; num_nodes := 2; num_edges := 1;
     g_features := Some (replicate 64 7); source_id := 0; version := 1;
     schema_id := 1;
     nodes := [mkNode 0 1 0 0 (0, 1) NF_IS_CAPITALIZED 240 123;
               mkNode 1 1 0 0 (1, 2) 0 255 456];
     edges := [mkEdge 0 1 9 255 0 EF_DIRECTED 255 0] |}.

(** A builder as [_self_check] creates it. *)
Definition fresh_builder : GraphBuilder := GraphBuilder_init 1 1 5 0 1 None.

End Ranges.

(* ===================================================================== *)
(** ** What the segmenter is expected to give *)
(* ===================================================================== *)

Module Spans.
Import Tokenizer Sentences.

(** [chain a spans b]: the spans are non-empty half-open ranges, the first
    starts at [a], each next one starts where the one before it ends, and
    the last ends at [b]. *)
Fixpoint chain (a : nat) (spans : list (nat * nat)) (b : nat) : Prop :=
  match spans with
  | [] => a = b
  | (lo, hi) :: spans' => lo = a /\ (lo < hi)%nat /\ chain hi spans' b
  end.

(** The spans partition [[0, n)]. *)
Definition partitions (n : nat) (spans : list (nat * nat)) : Prop :=
  chain 0 spans n.

(** The index [i] lies in the span number [p]. *)
Definition in_span (spans : list (nat * nat)) (p i : nat) : Prop :=
  exists lo hi, spans !! p = Some (lo, hi) /\ (lo <= i < hi)%nat.

(** A substantive token: neither a weak sentence end nor punctuation. *)
Definition substantive (t : Token) : Prop :=
  has_flag TF_SENT_END_WEAK t = false /\ has_flag TF_PUNCT t = false.

Global Instance substantive_dec t : Decision (substantive t).
Proof. unfold substantive. apply _. Defined.

(** The first substantive token after position [k], if there is one. *)
Definition next_substantive (tokens : list Token) (k : nat) : option Token :=
  snd <$> list_find substantive (drop (k + 1) tokens).

(** The sentence closes at the ellipsis at [k]: nothing substantive follows,
    or what follows is capitalized. *)
Definition ellipsis_closes (tokens : list Token) (k : nat) : Prop :=
  match next_substantive tokens k with
  | None => True
  | Some t => has_flag TF_CAP t = true
  end.

(** ["Okay... I guess"] *)
Definition okay_i_guess : str := lit "Okay... I guess".

End Spans.

(* ===================================================================== *)
(** ** What the two passes of the tokenizer guarantee *)
(* ===================================================================== *)

Module TokenSpec.
Import Tokenizer Sentences.

Section WithUnicode.
Context `{Unicode}.

(** The token [t], recorded with the kind [kd], as the first pass over the
    text [txt] leaves it: it is a match of the alternative [kd] where it
    starts, or the fallback (recorded as a word) on a remainder the pattern
    does not match; the two sentence-end bits are clear, and the
    capitalized bit is set for a word or the fallback with a letter and an
    uppercase first character, and for nothing else. *)
Definition origin (txt : str) (t : Token) (kd : Kind) : Prop :=
  ((exists len, _MASTER (drop (start t) txt) = Some (kd, len)
                /\ text t = take len (drop (start t) txt))
   \/ (kd = WORD /\ _MASTER (text t) = None))
  /\ kd <> WS
  /\ Z.testbit (flags t) 3 = false
  /\ Z.testbit (flags t) 4 = false
  /\ Z.testbit (flags t) 0
     = bool_decide (kd = WORD) && existsb isalpha (text t)
       && first_isupper (text t).

End WithUnicode.

(** [t'] is [t] with sentence-end bits added and nothing else changed; the
    strong bit is added only to a strong terminator. *)
Definition end_flags_only (t t' : Token) : Prop :=
  idx t' = idx t /\ text t' = text t /\ start t' = start t
  /\ end_ t' = end_ t
  /\ (forall b, 0 <= b -> b <> 3 -> b <> 4 ->
        Z.testbit (flags t') b = Z.testbit (flags t) b)
  /\ (Z.testbit (flags t) 3 = true -> Z.testbit (flags t') 3 = true)
  /\ (Z.testbit (flags t) 4 = true -> Z.testbit (flags t') 4 = true)
  /\ (Z.testbit (flags t') 3 = true ->
      Z.testbit (flags t) 3 = true \/ text t ∈ _TERMINATORS_STRONG).

(** The token number [k] is a punctuation token (one matched by the
    punctuation or the ellipsis alternative) whose text is [.], [?] or
    [!]. *)
Definition strong_terminator (toks : list Token) (kds : list Kind) (k : nat)
  : Prop :=
  exists t kd, toks !! k = Some t /\ kds !! k = Some kd
               /\ kd ∈ [PUNCT; ELLIPSIS] /\ text t ∈ _TERMINATORS_STRONG.

(** The token number [j] is a punctuation token whose text is an
    ellipsis. *)
Definition ellipsis_token (toks : list Token) (kds : list Kind) (j : nat)
  : Prop :=
  exists t kd, toks !! j = Some t /\ kds !! j = Some kd
               /\ kd ∈ [PUNCT; ELLIPSIS] /\ text t ∈ _TERMINATORS_WEAK.

(** Every token after the position [k] up to and including the position
    [j] has its text in the closer set: the closers follow [k] without a
    gap. *)
Definition closer_run (toks : list Token) (k j : nat) : Prop :=
  forall m, (k < m <= j)%nat ->
    exists tm, toks !! m = Some tm /\ text tm ∈ _CLOSERS.

(** Every sentence-end bit of [toks] has its reason: the strong bit sits on
    a strong terminator only, the weak bit only on an ellipsis token or on
    a token reached from a strong terminator through closers. *)
Definition end_flags_sound (kds : list Kind) (toks : list Token) : Prop :=
  forall j t, toks !! j = Some t ->
    (Z.testbit (flags t) 3 = true -> strong_terminator toks kds j)
    /\ (Z.testbit (flags t) 4 = true ->
        ellipsis_token toks kds j
        \/ exists k, (k < j)%nat /\ strong_terminator toks kds k
                     /\ closer_run toks k j).

(** ["(Hi.)] ok... bye"]: a strong terminator, two closers, a word that is
    no closer, and an ellipsis. *)
Definition closers_demo : str := lit "(Hi.)] ok... bye".

(** ["Bob@x.com"] *)
Definition bob_email : str := lit "Bob@x.com".
(** ["$a"] *)
Definition dollar_a : str := lit "$a".

(** The character at position [p] of [txt] is covered by the token [t]. *)
Definition covers (t : Token) (p : nat) : Prop := (start t <= p < end_ t)%nat.

End TokenSpec.

(* ===================================================================== *)
(** ** Invariants of the vocabulary and of a graph in memory *)
(* ===================================================================== *)

Module MorphSpec.
Import GraphCore Tokenizer Morph.

(** The two tables of a vocabulary say the same: [s] has the id [id] exactly
    when [id] is positive and the entry [id - 1] of [_id2tok] is [s]. *)
Definition vocab_ok (v : Vocab) : Prop :=
  forall s id,
    _tok2id v !! s = Some id
    <-> 1 <= id /\ _id2tok v !! Z.to_nat (id - 1) = Some s.

(** The node list of [g] refers to node objects of the store, each of them
    once: what [GraphBuilder.add_node] and [decode_pgraph] build, which
    create one [Node] per entry. *)
Definition distinct_nodes (σ : store) (g : GraphObj) : Prop :=
  NoDup (o_nodes g) /\ forall r, r ∈ o_nodes g -> is_Some (σ !! r).

(** Node ids are dense and in insertion order: the entry [i] of the node
    list refers to a node whose id is [i]. *)
Definition dense_ids (σ : store) (g : GraphObj) : Prop :=
  forall (i : nat) r, o_nodes g !! i = Some r ->
    exists nd, σ !! r = Some nd /\ node_id nd = Z.of_nat i.

(** The number of nodes [annotate_graph] works on. *)
Definition common_prefix (g : GraphObj) (tokens : list Token)
    (morphs : list MorphInfo) : nat :=
  Nat.min (length (o_nodes g)) (Nat.min (length tokens) (length morphs)).

(** After [j] iterations: the first [j] nodes are annotated and every other
    object of the store [σ] is as it was. *)
Definition annotated (σ : store) (g : GraphObj) (morphs : list MorphInfo)
    (j : nat) (σ' : store) : Prop :=
  (forall (i : nat) r nd mi, (i < j)%nat ->
     o_nodes g !! i = Some r -> σ !! r = Some nd -> morphs !! i = Some mi ->
     σ' !! r = Some (annotate_node mi nd))
  /\ (forall r, r ∉ take j (o_nodes g) -> σ' !! r = σ !! r).

(** A store with three nodes, and a graph over them. *)
Definition demo_store : store :=
  <[1%positive := mkNode 0 1 0 0 (0, 2) 4 255 0]>
    (<[2%positive := mkNode 1 1 0 0 (3, 7) 0 255 0]>
       (<[3%positive := mkNode 2 1 0 0 (7, 8) 8 255 0]> ∅)).

Definition demo_graph : GraphObj :=
  mkGraphObj 0 5 3 2 None 0 1 1 [1%positive; 2%positive; 3%positive]
    [mkEdge 0 1 9 255 0 EF_DIRECTED 255 0; mkEdge 1 2 9 255 0 EF_DIRECTED 255 0].

Definition demo_tokens : list Token :=
  [mkToken 0 (lit "He") 0 2 1; mkToken 1 (lit "said") 3 7 0].

Definition demo_morphs : list MorphInfo :=
  [mkMorphInfo (lit "he") 1 5 5 true].

End MorphSpec.


(* ===================================================================== *)
(** ** tokenizer.py: the graph hookup *)
(* ===================================================================== *)

Module TokenGraph.
Import GraphCore Tokenizer Sentences.

(** [NodeType.TOKEN], [EdgeType.NEXT], [SchemaID.WRITING],
    [GraphType.HETERO]. *)
Definition NodeType_TOKEN : Z := 1.
Definition EdgeType_NEXT : Z := 9.
Definition SchemaID_WRITING : Z := 1.
Definition GraphType_HETERO : Z := 5.

(** The node flags of a token. *)
Definition node_flags (t : Token) : Z :=
  let nflags := 0 in
  let nflags :=
    if has_flag TF_PUNCT t then Z.lor nflags NF_IS_PUNCT else nflags in
  let nflags :=
    if has_flag TF_CAP t then Z.lor nflags NF_IS_CAPITALIZED else nflags in
  let nflags :=
    if has_flag TF_SENT_END_STRONG t then Z.lor nflags NF_SENT_END_STRONG
    else nflags in
  let nflags :=
    if has_flag TF_SENT_END_WEAK t then Z.lor nflags NF_SENT_END_WEAK
    else nflags in
  nflags.

(** The body of [for t in toks]: the builder and [node_ids]. *)
Definition node_step (st : GraphBuilder * list Z) (t : Token)
  : GraphBuilder * list Z :=
  let '(gb, node_ids) := st in
  let nflags := node_flags t in
  match add_node NodeType_TOKEN 0 0 (Z.of_nat (start t), Z.of_nat (end_ t))
          nflags 255 0 gb with
  | (Return node_id, gb) => (gb, node_ids ++ [node_id])
  | (_, gb) => (gb, node_ids)
  end.

(** The body of [for a, b in zip(node_ids, node_ids[1:])]. *)
Definition edge_step (gb : GraphBuilder) (ab : Z * Z) : GraphBuilder :=
  snd (add_edge (fst ab) (snd ab) EdgeType_NEXT 255 0 EF_DIRECTED 255 0 gb).

(** [tokens_to_graph] from the tokens on. *)
Definition graph_of_tokens (toks : list Token) (graph_id source_id version : Z)
  : Graph :=
  let gb := GraphBuilder_init graph_id SchemaID_WRITING GraphType_HETERO
              source_id version None in
  let '(gb, node_ids) := foldl node_step (gb, []) toks in
  let gb := foldl edge_step gb (zip node_ids (drop 1 node_ids)) in
  finalize gb.

Definition tokens_to_graph `{Unicode} (text : str)
    (graph_id source_id version : Z) : Graph :=
  graph_of_tokens (tokenize text) graph_id source_id version.

End TokenGraph.

(* ===================================================================== *)
(** ** sentences.py: character spans *)
(* ===================================================================== *)

Module Segment.
Import GraphCore Tokenizer Sentences TokenGraph.

(** The body of [for a, b in spans_tok]. *)
Definition char_span_step (toks : list Token) (out : list (nat * nat))
    (ab : nat * nat) : outcome (list (nat * nat)) :=
  let '(a, b) := ab in
  if (b <=? a)%nat then Return out
  else
    ta ← item toks a;
    let start := Tokenizer.start ta in
    tb ← item toks (b - 1);
    let end_ := Tokenizer.end_ tb in
    Return (out ++ [(start, end_)]).

Section WithUnicode.
Context `{Unicode}.

Definition segment (text : str) : outcome (list (nat * nat)) :=
  let toks := tokenize text in
  spans_tok ← segment_tokens toks;
  for_each (char_span_step toks) spans_tok [].

Definition segment_to_graph (text : str)
  : outcome (Graph * list (nat * nat)) :=
  let g := tokens_to_graph text 0 0 1 in
  let toks := tokenize text in
  spans_tok ← segment_tokens toks;
  Return (g, spans_tok).

End WithUnicode.

End Segment.

(* ===================================================================== *)
(** ** morph.py: the analyser *)
(* ===================================================================== *)

Module Analyzer.
Import GraphCore Tokenizer Sentences Morph.

(** POS ids. *)
Definition POS_X : Z := 0.
Definition POS_NOUN : Z := 1.
Definition POS_VERB : Z := 2.
Definition POS_ADJ : Z := 3.
Definition POS_ADV : Z := 4.
Definition POS_PRON : Z := 5.
Definition POS_DET : Z := 6.
Definition POS_ADP : Z := 7.
Definition POS_CCONJ : Z := 8.
Definition POS_SCONJ : Z := 9.
Definition POS_PUNCT : Z := 10.
Definition POS_NUM : Z := 11.
Definition POS_PROPN : Z := 12.
Definition POS_AUX : Z := 13.

Definition TENSE_NONE : Z := 0.
Definition TENSE_PRES : Z := 1.
Definition TENSE_PAST : Z := 2.
Definition NUM_NONE : Z := 0.
Definition NUM_SING : Z := 1.
Definition NUM_PLUR : Z := 2.
Definition PER_NONE : Z := 0.
Definition PER_1 : Z := 1.
Definition PER_2 : Z := 2.
Definition PER_3 : Z := 3.

Definition pack_bits (pos tense num per : Z) : Z :=
  Z.lor (Z.lor (Z.lor (Z.land pos 0xF) (Z.shiftl (Z.land tense 0x3) 4))
               (Z.shiftl (Z.land num 0x3) 6))
        (Z.shiftl (Z.land per 0x3) 8).

(** [s.replace(old, new)] for one-character [old] and [new]. *)
Definition replace_char (old new : Z) (s : str) : str :=
  map (fun c => if c =? old then new else c) s.

(** [s.endswith(suffix)] *)
Definition endswith (s suffix : str) : bool :=
  (length suffix <=? length s)%nat
  && bool_decide (drop (length s - length suffix) s = suffix).

(** [s[:-n]] *)
Definition drop_last (n : nat) (s : str) : str := take (length s - n) s.

Definition _norm_apostrophes (s : str) : str :=
  replace_char 0x2018 39 (replace_char 0x2019 39 s).

Definition _strip_possessive (s : str) : str :=
  let s2 := _norm_apostrophes s in
  if endswith s2 (lit "'s") then drop_last 2 s2
  else if endswith s2 (lit "'") then drop_last 1 s2
  else s2.

Definition _lemma_guess (lower : str) : str :=
  if endswith lower (lit "ing") && (4 <? length lower)%nat
  then drop_last 3 lower
  else if endswith lower (lit "ed") && (3 <? length lower)%nat
  then drop_last 2 lower
  else if endswith lower (lit "s") && (3 <? length lower)%nat
          && negb (endswith lower (lit "ss"))
  then drop_last 1 lower
  else lower.

Definition _STOP : list str := map lit
  ["the";"a";"an";"and";"or";"but";"if";"because";"that";"which";"who";
   "whom";"whose";"to";"of";"in";"on";"at";"by";"for";"with";"from";"as";
   "than";"then";"so";"yet";"is";"are";"was";"were";"be";"been";"being";
   "do";"does";"did";"have";"has";"had";"not";"no";"yes";"it";"i";"you";
   "he";"she";"we";"they";"me";"him";"her";"us";"them";"this";"that";
   "these";"those"]%string.

Definition _PRON : list str := map lit
  ["i";"you";"he";"she";"it";"we";"they";"me";"him";"her";"us";"them";"my";
   "your";"his";"her";"our";"their"]%string.
Definition _DET : list str := map lit
  ["the";"a";"an";"this";"that";"these";"those"]%string.
Definition _ADP : list str := map lit
  ["of";"to";"in";"on";"at";"by";"for";"with";"from";"as";"into";"onto";
   "over";"under";"between";"through"]%string.
Definition _CCONJ : list str := map lit
  ["and";"or";"but";"nor";"yet";"so"]%string.
Definition _SCONJ : list str := map lit
  ["because";"if";"that";"although";"though";"when";"while";"since";
   "unless"]%string.

(** [_AUX_MAP]: surface form, lemma, tense, number, person. *)
Definition _AUX_MAP : list (str * (str * Z * Z * Z)) :=
  map (fun '(k, l, t, n, p) => (lit k, (lit l, t, n, p)))
  [("am", "be", TENSE_PRES, NUM_SING, PER_1);
   ("are", "be", TENSE_PRES, 0, 0);
   ("is", "be", TENSE_PRES, NUM_SING, PER_3);
   ("was", "be", TENSE_PAST, NUM_SING, PER_1);
   ("were", "be", TENSE_PAST, 0, 0);
   ("be", "be", 0, 0, 0);
   ("been", "be", 0, 0, 0);
   ("being", "be", 0, 0, 0);
   ("have", "have", TENSE_PRES, 0, 0);
   ("has", "have", TENSE_PRES, NUM_SING, PER_3);
   ("had", "have", TENSE_PAST, 0, 0);
   ("do", "do", TENSE_PRES, 0, 0);
   ("does", "do", TENSE_PRES, NUM_SING, PER_3);
   ("did", "do", TENSE_PAST, 0, 0);
   ("can", "can", 0, 0, 0); ("could", "could", 0, 0, 0);
   ("may", "may", 0, 0, 0); ("might", "might", 0, 0, 0);
   ("must", "must", 0, 0, 0); ("should", "should", 0, 0, 0);
   ("would", "would", 0, 0, 0); ("will", "will", 0, 0, 0);
   ("shall", "shall", 0, 0, 0)]%string.

(** [d[key]] for a key of the dictionary, [None] for [key not in d]. *)
Fixpoint dict_get {V} (d : list (str * V)) (key : str) : option V :=
  match d with
  | [] => None
  | (k, v) :: d' => if bool_decide (k = key) then Some v else dict_get d' key
  end.

(** [_RE_INITIAL_CAP.match(raw)], the pattern [^[A-Z][A-Za-z]+$]: a capital,
    at least one more letter, and then the end of the string or the line
    feed that ends the string. *)
Definition _RE_INITIAL_CAP (raw : str) : bool :=
  match raw with
  | c :: rest =>
      between 65 90 c
      && (0 <? run is_letter rest)%nat
      && (bool_decide (drop (run is_letter rest) rest = [])
          || bool_decide (drop (run is_letter rest) rest = [10]))
  | [] => false
  end.

(** [str.lower] is a lookup in the Unicode character database; the analyser
    is stated over any such function. *)
Class Casing := { lower : str -> str }.

(** [str.lower] on ASCII text. *)
Definition ascii_lower : Casing := {|
  lower s := map (fun c => if between 65 90 c then c + 32 else c) s
|}.

Section WithCasing.
Context `{Casing}.

(** The body of [for t in tokens]: the entry appended to [out], and the
    vocabulary after [get_id]. *)
Definition analyze_token (t : Token) (vocab : Vocab) : MorphInfo * Vocab :=
  let raw := text t in
  let norm := _strip_possessive (_norm_apostrophes raw) in
  let lower := lower norm in
  let entry (lemma : str) (pos bits : Z) (stop : bool) :=
    let '(id, vocab) := get_id lemma vocab in
    (mkMorphInfo lemma id pos bits stop, vocab) in
  if has_flag TF_PUNCT t then
    entry norm POS_PUNCT (pack_bits POS_PUNCT 0 0 0) false
  else if has_flag TF_NUM t then
    entry lower POS_NUM (pack_bits POS_NUM 0 0 0) false
  else if bool_decide (lower ∈ _PRON) then
    entry lower POS_PRON (pack_bits POS_PRON 0 0 0) true
  else if bool_decide (lower ∈ _DET) then
    entry lower POS_DET (pack_bits POS_DET 0 0 0) true
  else if bool_decide (lower ∈ _ADP) then
    entry lower POS_ADP (pack_bits POS_ADP 0 0 0) true
  else if bool_decide (lower ∈ _CCONJ) then
    entry lower POS_CCONJ (pack_bits POS_CCONJ 0 0 0) true
  else if bool_decide (lower ∈ _SCONJ) then
    entry lower POS_SCONJ (pack_bits POS_SCONJ 0 0 0) true
  else
    match dict_get _AUX_MAP lower with
    | Some (lemma, tense, num, per) =>
        entry lemma POS_AUX (pack_bits POS_AUX tense num per)
          (bool_decide (lower ∈ _STOP))
    | None =>
        if _RE_INITIAL_CAP raw then
          entry raw POS_PROPN (pack_bits POS_PROPN 0 0 0) false
        else
          let guess := _lemma_guess lower in
          entry guess POS_NOUN (pack_bits POS_NOUN 0 0 0)
            (bool_decide (lower ∈ _STOP))
    end.

(** The loop of [analyze_tokens], with [out] and the vocabulary. *)
Definition analyze_loop (st : list MorphInfo * Vocab) (t : Token)
  : list MorphInfo * Vocab :=
  let '(out, vocab) := st in
  let '(mi, vocab) := analyze_token t vocab in
  (out ++ [mi], vocab).

(** [analyze_tokens]: what it returns, and the vocabulary afterwards. *)
Definition analyze_tokens (tokens : list Token) (vocab : Vocab)
  : list MorphInfo * Vocab :=
  foldl analyze_loop ([], vocab) tokens.

End WithCasing.

End Analyzer.

(* ===================================================================== *)
(** ** A graph value placed in memory, and the calls on a builder *)
(* ===================================================================== *)

Module Memory.
Import GraphCore Tokenizer Morph.

(** The references of a node list of [n] entries, one fresh object each. *)
Definition fresh_refs (n : nat) : list positive :=
  map Pos.of_succ_nat (seq 0 n).

(** The graph [g] as [finalize] and [decode_pgraph] leave it in memory:
    every entry of the node list is an object of its own. *)
Definition load (g : Graph) : gmap positive Node * GraphObj :=
  let refs := fresh_refs (length (nodes g)) in
  (list_to_map (zip refs (nodes g)),
   mkGraphObj (graph_id g) (graph_type g) (num_nodes g) (num_edges g)
     (g_features g) (source_id g) (version g) (schema_id g) refs (edges g)).

(** A call on a [GraphBuilder]. *)
Inductive call :=
| AddNode (n_type sub_type label_id : Z) (span : Span)
          (flags confidence features_ref : Z)
| AddEdge (src_id dst_id e_type weight time flags confidence attr_ref : Z)
| SetThumbnail (features : option bytes).

(** The builder after a call; a call that raises leaves it as it was. *)
Definition perform (self : GraphBuilder) (c : call) : GraphBuilder :=
  match c with
  | AddNode n_type sub_type label_id span flags confidence features_ref =>
      snd (add_node n_type sub_type label_id span flags confidence
             features_ref self)
  | AddEdge src_id dst_id e_type weight time flags confidence attr_ref =>
      snd (add_edge src_id dst_id e_type weight time flags confidence
             attr_ref self)
  | SetThumbnail features => snd (set_thumbnail features self)
  end.

Definition perform_all (self : GraphBuilder) (cs : list call) : GraphBuilder :=
  foldl perform self cs.

End Memory.

(* ===================================================================== *)
(** ** What the codec writes and reads back *)
(* ===================================================================== *)

Module CodecSpec.
Import GraphCore Ranges.

(** A byte whose continuation bit is set. *)
Definition continues (b : Z) : bool := negb (Z.land b 0x80 =? 0).

(** The number of bytes with the continuation bit at the head of [bs]. *)
Fixpoint continuation_run (bs : bytes) : nat :=
  match bs with
  | b :: bs' => if continues b then S (continuation_run bs') else O
  | [] => O
  end.

(** A byte string: every element is in [0, 256). *)
Definition byte_string (bs : bytes) : Prop := Forall byte_ok bs.

(** The only error [encode_pgraph] can raise. *)
Definition negative_value : exn :=
  ValueError "uvarint cannot encode negative values".

(** What [encode_pgraph] writes before the thumbnail bytes: the magic, the
    header, the two tables and the thumbnail length. *)
Definition graph_head (g : Graph) : bytes :=
  _PG_MAGIC ++ uv (graph_id g) ++ [graph_type g] ++ uv (num_nodes g)
  ++ uv (num_edges g) ++ uv (source_id g) ++ uv (version g) ++ [schema_id g]
  ++ concat (map node_wire (nodes g)) ++ concat (map edge_wire (edges g))
  ++ uv (Z.of_nat (thumbnail_len g)).

(** The fields [encode_pgraph] writes as varints. *)
Definition node_varints (n : Node) : list Z :=
  [node_id n; features_ref n; fst (span n); snd (span n); label_id n].
Definition edge_varints (e : Edge) : list Z :=
  [src_id e; dst_id e; time e; attr_ref e].
Definition graph_varints (g : Graph) : list Z :=
  [graph_id g; num_nodes g; num_edges g; source_id g; version g]
  ++ concat (map node_varints (nodes g))
  ++ concat (map edge_varints (edges g)).

(** No varint field is negative. *)
Definition encodable (g : Graph) : bool :=
  forallb (fun v => 0 <=? v) (graph_varints g).

(** The counts are the list lengths and every varint field is read back
    within ten bytes; nothing is asked of the fields written as raw bytes
    nor of the thumbnail. *)
Definition decodable (g : Graph) : Prop :=
  num_nodes g = Z.of_nat (length (nodes g))
  /\ num_edges g = Z.of_nat (length (edges g))
  /\ Forall uvarint_ok (graph_varints g)
  /\ uvarint_ok (Z.of_nat (thumbnail_len g)).

(** A node as it goes on the wire: type, subtype and confidence cut to one
    byte, the flags to two. *)
Definition mask_node (n : Node) : Node :=
  mkNode (node_id n) (Z.land (n_type n) 0xFF) (Z.land (sub_type n) 0xFF)
    (features_ref n) (span n) (Z.land (n_flags n) 0xFFFF)
    (Z.land (n_confidence n) 0xFF) (label_id n).

Definition mask_edge (e : Edge) : Edge :=
  mkEdge (src_id e) (dst_id e) (Z.land (e_type e) 0xFF)
    (Z.land (weight e) 0xFF) (time e) (Z.land (e_flags e) 0xFFFF)
    (Z.land (e_confidence e) 0xFF) (attr_ref e).

Definition mask_graph (g : Graph) : Graph :=
  {| graph_id := graph_id g; graph_type := Z.land (graph_type g) 0xFF;
     num_nodes := num_nodes g; num_edges := num_edges g;
     g_features := g_features g; source_id := source_id g;
     version := version g; schema_id := Z.land (schema_id g) 0xFF;
     nodes := map mask_node (nodes g); edges := map mask_edge (edges g) |}.

(** What [decode_pgraph] gives back for what [encode_pgraph] wrote. *)
Definition read_back (g : Graph) : Graph :=
  with_g_features (mask_graph g) (thumbnail_read_back g).

(** A graph with a type code, a confidence and flags out of range, and a
    thumbnail of 65 bytes. *)
Definition out_of_range_graph : Graph :=
  {| graph_id := 7; graph_type := 261; num_nodes := 1; num_edges := 0;
     g_features := Some (replicate 65 1); source_id := 0; version := 1;
     schema_id := 1;
     nodes := [mkNode 0 257 0 0 (0, 1) 65540 (-1) 3];
     edges := [] |}.

End CodecSpec.

(* ===================================================================== *)
(** ** What a builder holds after a run of calls *)
(* ===================================================================== *)

Module BuilderSpec.
Import GraphCore Ranges Tokenizer Memory TokenGraph.

Definition is_add_node (c : call) : bool :=
  match c with AddNode _ _ _ _ _ _ _ => true | _ => false end.
Definition is_add_edge (c : call) : bool :=
  match c with AddEdge _ _ _ _ _ _ _ _ => true | _ => false end.

(** The arguments of a call are within the ranges of the wire format; the
    node id is the builder's to choose. *)
Definition call_ok (c : call) : Prop :=
  match c with
  | AddNode n_type sub_type label_id span flags confidence features_ref =>
      node_ok (mkNode 0 n_type sub_type features_ref span flags confidence
                 label_id)
  | AddEdge src_id dst_id e_type weight time flags confidence attr_ref =>
      edge_ok (mkEdge src_id dst_id e_type weight time flags confidence
                 attr_ref)
  | SetThumbnail _ => True
  end.

(** A thumbnail as [set_thumbnail] accepts it. *)
Definition thumbnail_arg_ok (f : option bytes) : Prop :=
  match f with
  | None => True
  | Some f => length f = 64%nat \/ length f = 128%nat
  end.

(** The node [tokens_to_graph] adds for the token [t] as the node number
    [k], and the edge it adds from the node [k] to the next one. *)
Definition token_node (k : nat) (t : Token) : Node :=
  mkNode (Z.of_nat k) NodeType_TOKEN 0 0
    (Z.of_nat (start t), Z.of_nat (end_ t)) (node_flags t) 255 0.

Definition next_edge (k : nat) : Edge :=
  mkEdge (Z.of_nat k) (Z.of_nat k + 1) EdgeType_NEXT 255 0 EF_DIRECTED 255 0.

(** The graph of a token list in closed form: one node per token, in
    order, and one edge from each node to the next. *)
Definition token_graph (toks : list Token) (graph_id source_id version : Z)
  : Graph :=
  {| graph_id := graph_id; graph_type := GraphType_HETERO;
     num_nodes := Z.of_nat (length toks);
     num_edges := Z.of_nat (length toks - 1);
     g_features := None; source_id := source_id; version := version;
     schema_id := SchemaID_WRITING;
     nodes := imap token_node toks;
     edges := map next_edge (seq 0 (length toks - 1)) |}.

(** What a builder reached by calls satisfies. *)
Record built (b0 b : GraphBuilder) : Prop := {
  built_graph_id : _graph_id b = _graph_id b0;
  built_graph_type : _graph_type b = _graph_type b0;
  built_source_id : _source_id b = _source_id b0;
  built_version : _version b = _version b0;
  built_schema_id : _schema_id b = _schema_id b0;
  built_features :
    _features b = _features b0 \/ thumbnail_arg_ok (_features b)
}.

(** Node ids are the positions in the node list. *)
Definition dense (ns : list Node) : Prop :=
  forall (i : nat) n, ns !! i = Some n -> node_id n = Z.of_nat i.

(** A builder whose contents are within the ranges of the wire format. *)
Record builder_ok (b : GraphBuilder) : Prop := {
  b_graph_id_ok : uvarint_ok (_graph_id b);
  b_graph_type_ok : byte_ok (_graph_type b);
  b_source_id_ok : uvarint_ok (_source_id b);
  b_version_ok : uvarint_ok (_version b);
  b_schema_id_ok : byte_ok (_schema_id b);
  b_nodes_ok : Forall node_ok (_nodes b);
  b_edges_ok : Forall edge_ok (_edges b);
  b_features_ok : thumbnail_arg_ok (_features b)
}.

(** Calls of a session: two nodes, an edge between them, a thumbnail that
    is refused and one that is taken. *)
Definition demo_calls : list call :=
  [AddNode 1 0 123 (0, 1) NF_IS_CAPITALIZED 240 0;
   AddNode 1 0 456 (1, 2) 0 255 0;
   AddEdge 0 1 9 255 0 EF_DIRECTED 255 0;
   SetThumbnail (Some (replicate 65 7));
   SetThumbnail (Some (replicate 64 7))].

End BuilderSpec.

(* ===================================================================== *)
(** ** Where the tokens lie in the text *)
(* ===================================================================== *)

Module Layout.
Import Tokenizer Sentences.

(** The matches lie one after the other from [p] on and end by [n]: each is
    non-empty and starts no earlier than the one before it ends. *)
Fixpoint ordered_from (p : nat) (ms : list Match) (n : nat) : Prop :=
  match ms with
  | [] => (p <= n)%nat
  | m :: ms' =>
      (p <= m_start m)%nat /\ (m_start m < m_end m)%nat
      /\ ordered_from (m_end m) ms' n
  end.

(** The token [t] is the token number [k] of [txt]: it carries its index,
    is not empty, lies inside the text and holds the characters of its
    span. *)
Definition placed (txt : str) (k : nat) (t : Token) : Prop :=
  idx t = k
  /\ (start t < end_ t <= length txt)%nat
  /\ text t = take (end_ t - start t) (drop (start t) txt).

(** A string without white space. *)
Definition nonspace (l : str) : Prop := Forall (fun c => isspace c = false) l.

(** No token starts before the one before it ends. *)
Definition in_order (toks : list Token) : Prop :=
  forall k t t', toks !! k = Some t -> toks !! S k = Some t' ->
    (end_ t <= start t')%nat.

Section WithUnicode.
Context `{Unicode}.

(** The punctuation and number bits of a token recorded with the kind
    [kd], and no bit from the sixth on. *)
Definition kind_bits (t : Token) (kd : Kind) : Prop :=
  Z.testbit (flags t) 1 = bool_decide (kd ∈ [PUNCT; ELLIPSIS])
  /\ Z.testbit (flags t) 2
     = negb (bool_decide (kd ∈ [PUNCT; ELLIPSIS])) && existsb isdigit (text t)
  /\ 0 <= flags t < 32.

End WithUnicode.

End Layout.

(* ===================================================================== *)
(** ** Where the sentences end *)
(* ===================================================================== *)

Module Boundaries.
Import Tokenizer Sentences.

(** The span ends right after a token flagged as a sentence end. *)
Definition ends_flagged (tokens : list Token) (span : nat * nat) : Prop :=
  exists t, tokens !! (snd span - 1)%nat = Some t
            /\ (1 <= snd span)%nat
            /\ (has_flag TF_SENT_END_STRONG t = true
                \/ has_flag TF_SENT_END_WEAK t = true).

(** No token is flagged as a sentence end. *)
Definition unflagged (tokens : list Token) : Prop :=
  Forall (fun t => has_flag TF_SENT_END_STRONG t = false
                   /\ has_flag TF_SENT_END_WEAK t = false) tokens.

(** Character spans that lie one after the other from [p] on and end by
    [n]: each is non-empty and starts no earlier than the one before it
    ends. *)
Fixpoint spaced (p : nat) (cs : list (nat * nat)) (n : nat) : Prop :=
  match cs with
  | [] => (p <= n)%nat
  | (a, b) :: cs' => (p <= a)%nat /\ (a < b)%nat /\ spaced b cs' n
  end.

(** The character span of the token span [(lo, hi)]: from the start of its
    first token to the end of its last. *)
Definition char_span (toks : list Token) (span : nat * nat)
  : option (nat * nat) :=
  match toks !! fst span, toks !! (snd span - 1)%nat with
  | Some ta, Some tb => Some (start ta, end_ tb)
  | _, _ => None
  end.

(** Three tokens, the second a question mark flagged strong, the third a
    closing quote flagged weak. *)
Definition quoted_question : list Token :=
  [mkToken 0 (lit "Really") 1 7 1; mkToken 1 [63] 7 8 10;
   mkToken 2 [0x201D] 8 9 18; mkToken 3 (lit "Yes") 10 13 1].

End Boundaries.

(* ===================================================================== *)
(** ** What the analyser records *)
(* ===================================================================== *)

Module Analysis.
Import GraphCore Tokenizer Sentences Morph Analyzer.

(** The POS ids [analyze_tokens] assigns. *)
Definition assigned_pos : list Z :=
  [POS_NOUN; POS_PRON; POS_DET; POS_ADP; POS_CCONJ; POS_SCONJ; POS_PUNCT;
   POS_NUM; POS_PROPN; POS_AUX].

(** The POS ids of the closed classes and of the fallback, the only ones a
    stop word can have. *)
Definition stop_pos : list Z :=
  [POS_NOUN; POS_PRON; POS_DET; POS_ADP; POS_CCONJ; POS_SCONJ; POS_AUX].

(** The entry [m] is consistent with the vocabulary [v]: its lemma id is a
    valid id of [v] that stands for its lemma, its POS id is one of those
    assigned, and its bit field repeats the POS id in the low four bits and
    has nothing beyond the ten bits of the layout. *)
Definition consistent (v : Vocab) (m : MorphInfo) : Prop :=
  1 <= lemma_id m <= Z.of_nat (length (_id2tok v))
  /\ get_str (lemma_id m) v = lemma m
  /\ pos m ∈ assigned_pos
  /\ Z.land (bits m) 0xF = pos m
  /\ 0 <= bits m < 1024
  /\ (is_stop m = true -> pos m ∈ stop_pos).

Section WithCasing.
Context `{Casing}.

(** How the entry [m] of the token [t] is classified by the flags and the
    surface form. *)
Definition classified (t : Token) (m : MorphInfo) : Prop :=
  (has_flag TF_PUNCT t = true ->
   pos m = POS_PUNCT /\ is_stop m = false
   /\ lemma m = _strip_possessive (_norm_apostrophes (text t)))
  /\ (has_flag TF_PUNCT t = false -> has_flag TF_NUM t = true ->
      pos m = POS_NUM /\ is_stop m = false
      /\ lemma m = lower (_strip_possessive (_norm_apostrophes (text t))))
  /\ (pos m = POS_PROPN ->
      lemma m = text t /\ _RE_INITIAL_CAP (text t) = true
      /\ is_stop m = false)
  /\ (pos m = POS_PUNCT -> has_flag TF_PUNCT t = true)
  /\ (pos m = POS_NUM -> has_flag TF_NUM t = true).

End WithCasing.

(** ["John's"] with a curly apostrophe, ["running"] and ["glass"]. *)
Definition johns : str := lit "John" ++ [0x2019; 115].
Definition running : str := lit "running".

(** The tokens of ["He said."]. *)
Definition he_said : list Token :=
  [mkToken 0 (lit "He") 0 2 1; mkToken 1 (lit "said") 3 7 0;
   mkToken 2 [46] 7 8 10].

End Analysis.


(* ===================================================================== *)
(** * Properties of the codec *)
(* ===================================================================== *)

Section Codec.
Import GraphCore Ranges.

(** ** The decoding monad *)

Lemma dbind_return {A B} (m : Dec A) (k : A -> Dec B) tr a tr' :
  m tr = (Return a, tr') -> (x ← m; k x) tr = k a tr'.
Proof. intros E. unfold mbind, Dec_bind, dbind. now rewrite E. Qed.

Lemma dbind_raise {A B} (m : Dec A) (k : A -> Dec B) tr e tr' :
  m tr = (Raise e, tr') -> (x ← m; k x) tr = (Raise e, tr').
Proof. intros E. unfold mbind, Dec_bind, dbind. now rewrite E. Qed.

(** ** Bits of a varint group *)

Lemma low7_bound v : 0 <= Z.land v 0x7F < 128.
Proof. change 0x7F with (Z.ones 7). rewrite Z.land_ones by lia. apply Z.mod_pos_bound. lia. Qed.

Lemma split_low n v : 0 <= n ->
  Z.lor (Z.land v (Z.ones n)) (Z.shiftl (Z.shiftr v n) n) = v.
Proof.
  intros Hn. rewrite <- Z.ldiff_ones_r by lia.
  rewrite Z.lor_comm. apply Z.lor_ldiff_and.
Qed.

Lemma split7 v : Z.lor (Z.land v 0x7F) (Z.shiftl (Z.shiftr v 7) 7) = v.
Proof. apply (split_low 7). lia. Qed.

Lemma cont_bit_set b : 0 <= b < 128 -> Z.land (Z.lor b 0x80) 0x80 = 0x80.
Proof.
  intros Hb. rewrite Z.land_lor_distr_l.
  replace (Z.land b 0x80) with 0; [reflexivity|].
  symmetry. apply Z.bits_inj'. intros n Hn. rewrite Z.land_spec, Z.bits_0.
  destruct (Z.eq_dec n 7) as [->|Hne].
  - rewrite (Z.bits_above_log2 b 7); [reflexivity|lia|].
    destruct (Z.eq_dec b 0) as [->|]; [simpl; lia|].
    apply Z.log2_lt_pow2; lia.
  - change 0x80 with (2 ^ 7). rewrite Z.pow2_bits_false by lia.
    apply andb_false_r.
Qed.

Lemma cont_bit_clear b : 0 <= b < 128 -> Z.land b 0x80 = 0.
Proof.
  intros Hb. apply Z.bits_inj'. intros n Hn. rewrite Z.land_spec, Z.bits_0.
  destruct (Z.eq_dec n 7) as [->|Hne].
  - rewrite (Z.bits_above_log2 b 7); [reflexivity|lia|].
    destruct (Z.eq_dec b 0) as [->|]; [simpl; lia|].
    apply Z.log2_lt_pow2; lia.
  - change 0x80 with (2 ^ 7). rewrite Z.pow2_bits_false by lia.
    apply andb_false_r.
Qed.

Lemma payload_of_cont b : 0 <= b < 128 -> Z.land (Z.lor b 0x80) 0x7F = b.
Proof.
  intros Hb. rewrite Z.land_lor_distr_l. change (Z.land 0x80 0x7F) with 0.
  rewrite Z.lor_0_r. change 0x7F with (Z.ones 7). rewrite Z.land_ones by lia.
  apply Z.mod_small. lia.
Qed.

Lemma payload_of_last b : 0 <= b < 128 -> Z.land b 0x7F = b.
Proof.
  intros Hb. change 0x7F with (Z.ones 7). rewrite Z.land_ones by lia.
  apply Z.mod_small. lia.
Qed.

(** ** [_uvarint_encode] *)

Lemma uvarint_encode_loop_out fuel : forall v out,
  uvarint_encode_loop fuel v out
  = (fun bs => out ++ bs) <$> uvarint_encode_loop fuel v [].
Proof.
  induction fuel as [|fuel IH]; intros v out; simpl; [reflexivity|].
  destruct (Z.shiftr v 7 =? 0); simpl; [reflexivity|].
  rewrite IH. rewrite (IH _ [_]).
  destruct (uvarint_encode_loop fuel (Z.shiftr v 7) []); simpl; [|reflexivity].
  now rewrite <- app_assoc.
Qed.

Lemma shiftr7_log2 v : 0 <= v -> Z.shiftr v 7 <> 0 ->
  0 < Z.shiftr v 7 /\ Z.log2 (Z.shiftr v 7) = Z.log2 v - 7.
Proof.
  intros Hv Hne.
  assert (0 <= Z.shiftr v 7) by (apply Z.shiftr_nonneg; lia).
  split; [lia|].
  assert (v <> 0) by (intros ->; now apply Hne).
  rewrite Z.log2_shiftr by lia.
  assert (7 <= Z.log2 v); [|lia].
  destruct (Z.le_gt_cases 7 (Z.log2 v)) as [|Hlt]; [lia|].
  exfalso. apply Hne. apply Z.shiftr_eq_0; lia.
Qed.

(** The loop stops before the fuel [uvarint_fuel] gives it is used up. *)
Lemma uvarint_encode_loop_total fuel : forall v,
  0 <= v -> (Z.to_nat (Z.log2 v) < fuel)%nat ->
  exists bs, uvarint_encode_loop fuel v [] = Some bs.
Proof.
  induction fuel as [|fuel IH]; intros v Hv Hf; [lia|]. simpl.
  destruct (Z.eqb_spec (Z.shiftr v 7) 0) as [E|E]; simpl; [eauto|].
  destruct (shiftr7_log2 v Hv E) as [Hpos Hlog].
  rewrite uvarint_encode_loop_out.
  destruct (IH (Z.shiftr v 7)) as [bs Hbs]; [lia| |].
  - assert (0 <= Z.log2 (Z.shiftr v 7)) by apply Z.log2_nonneg. lia.
  - rewrite Hbs. simpl. eauto.
Qed.

Lemma uvarint_encode_return v : 0 <= v -> _uvarint_encode v = Return (uv v).
Proof.
  intros Hv. unfold _uvarint_encode, uv.
  destruct (Z.ltb_spec v 0); [lia|].
  destruct (uvarint_encode_loop_total (uvarint_fuel v) v Hv) as [bs ->].
  - unfold uvarint_fuel. lia.
  - reflexivity.
Qed.

Lemma uvarint_encode_negative v : v < 0 -> raised (_uvarint_encode v).
Proof.
  intros Hv. unfold _uvarint_encode. destruct (Z.ltb_spec v 0); [|lia].
  eexists; reflexivity.
Qed.

(** ** [_uvarint_decode] after [_uvarint_encode] *)

Lemma uvarint_loops_inverse fuel : forall v bs rest i shift acc tr,
  0 <= v -> uvarint_encode_loop fuel v [] = Some bs ->
  0 <= shift <= 63 -> v < 2 ^ (70 - shift) -> (7 | shift) ->
  exists tr',
    uvarint_decode_loop (bs ++ rest) i shift acc tr
    = (Return (Z.lor acc (Z.shiftl v shift), (i + length bs)%nat), tr').
Proof.
  induction fuel as [|fuel IH]; intros v bs rest i shift acc tr Hv Henc Hs Hlt Hdiv;
    [discriminate|].
  simpl in Henc. pose proof (low7_bound v) as Hb.
  destruct (Z.eqb_spec (Z.shiftr v 7) 0) as [E|E]; simpl in Henc.
  - injection Henc as <-. simpl.
    unfold mbind, Dec_bind, dbind, touch. simpl.
    rewrite cont_bit_clear by lia. simpl. eexists. unfold dret.
    rewrite payload_of_last by lia.
    do 3 f_equal; [|lia].
    rewrite <- (split7 v) at 2. rewrite E. rewrite Z.shiftl_0_l, Z.lor_0_r.
    reflexivity.
  - rewrite uvarint_encode_loop_out in Henc.
    destruct (uvarint_encode_loop fuel (Z.shiftr v 7) []) as [bs'|] eqn:Hbs;
      [|discriminate].
    simpl in Henc. injection Henc as <-.
    destruct (shiftr7_log2 v Hv E) as [Hpos Hlog].
    assert (Hv128 : 128 <= v).
    { destruct (Z.le_gt_cases 128 v); [lia|]. exfalso. apply E.
      apply Z.shiftr_eq_0; [lia|]. destruct (Z.eq_dec v 0) as [->|]; [simpl; lia|].
      apply Z.log2_lt_pow2; lia. }
    assert (Hs56 : shift <= 56).
    { destruct Hdiv as [q ->].
      assert (q * 7 < 63); [|lia].
      destruct (Z.lt_ge_cases (q * 7) 63) as [|Hge]; [lia|].
      assert (2 ^ (70 - q * 7) <= 2 ^ 7) by (apply Z.pow_le_mono_r; lia).
      lia. }
    simpl. unfold mbind at 1, Dec_bind, dbind, touch. simpl.
    rewrite cont_bit_set by lia. simpl.
    destruct (Z.gtb_spec (shift + 7) 63); [lia|].
    rewrite payload_of_cont by lia.
    edestruct (IH (Z.shiftr v 7) bs' rest (S i) (shift + 7)
                 (Z.lor acc (Z.shiftl (Z.land v 127) shift))) as [tr' Htr'];
      [lia|exact Hbs|lia| | |].
    + rewrite Z.shiftr_div_pow2 by lia.
      apply Z.div_lt_upper_bound; [lia|].
      rewrite <- Z.pow_add_r by lia. now replace (7 + (70 - (shift + 7))) with (70 - shift) by lia.
    + apply Z.divide_add_r; [assumption|apply Z.divide_refl].
    + rewrite Htr'. eexists. do 3 f_equal; [|simpl; lia].
      rewrite <- Z.lor_assoc. f_equal.
      rewrite <- (split7 v) at 3.
      rewrite Z.shiftl_lor, Z.shiftl_shiftl by lia.
      now rewrite (Z.add_comm 7 shift).
Qed.

Lemma uvarint_reads v : uvarint_ok v -> reads _uvarint_decode (uv v) v.
Proof.
  intros [Hv Hlt] buf i rest Hd tr. unfold _uvarint_decode. rewrite Hd.
  destruct (uvarint_encode_loop_total (uvarint_fuel v) v Hv) as [bs Hbs].
  { unfold uvarint_fuel. lia. }
  unfold uv. rewrite Hbs. simpl.
  destruct (uvarint_loops_inverse _ v bs rest i 0 0 tr Hv Hbs)
    as [tr' Htr']; [lia|simpl; lia|apply Z.divide_0_r|].
  exists tr'. rewrite Htr'. now rewrite Z.shiftl_0_r, Z.lor_0_l.
Qed.

(** The bound is sharp: 2^70 is written in eleven bytes, and the decoder
    gives up after the tenth. *)
Lemma uvarint_bound_sharp :
  exists bs, _uvarint_encode (2 ^ 70) = Return bs
             /\ length bs = 11%nat
             /\ raised (_uvarint_decode bs 0 []).1.
Proof.
  eexists. split; [reflexivity|]. split; [reflexivity|].
  eexists. reflexivity.
Qed.

(** ** Cursor lemmas *)

Lemma drop_past {A} (buf w rest : list A) i :
  drop i buf = w ++ rest -> drop (i + length w) buf = rest.
Proof. intros Hd. rewrite <- drop_drop, Hd. apply drop_app_length. Qed.

Lemma drop_head {A} (buf rest : list A) i b :
  drop i buf = b :: rest -> buf !! i = Some b.
Proof.
  intros Hd. rewrite <- (Nat.add_0_r i), <- lookup_drop, Hd. reflexivity.
Qed.

Lemma index_at buf i b rest tr :
  drop i buf = [b] ++ rest ->
  exists tr', index buf i tr = (Return b, tr') /\ drop (i + 1) buf = rest.
Proof.
  intros Hd. unfold index. rewrite (drop_head _ _ _ _ Hd).
  unfold mbind, Dec_bind, dbind, touch. simpl. eexists; split; [reflexivity|].
  exact (drop_past buf [b] rest i Hd).
Qed.

Lemma uvarint_at v buf i rest tr :
  uvarint_ok v -> drop i buf = uv v ++ rest ->
  exists tr', _uvarint_decode buf i tr = (Return (v, (i + length (uv v))%nat), tr')
              /\ drop (i + length (uv v)) buf = rest.
Proof.
  intros Hv Hd. destruct (uvarint_reads v Hv buf i rest Hd tr) as [tr' E].
  exists tr'. split; [exact E|]. now apply drop_past.
Qed.

Lemma u16_split f : u16_ok f ->
  from_bytes_little [Z.land f 0xFF; Z.land (Z.shiftr f 8) 0xFF] = f.
Proof.
  intros [H0 H1]. cbn [from_bytes_little]. rewrite Z.shiftl_0_l, Z.lor_0_r.
  change 0xFF with (Z.ones 8).
  assert (E : Z.land (Z.shiftr f 8) (Z.ones 8) = Z.shiftr f 8).
  { rewrite Z.land_ones by lia. apply Z.mod_small.
    rewrite Z.shiftr_div_pow2 by lia. split; [apply Z.div_pos; lia|].
    apply Z.div_lt_upper_bound; lia. }
  rewrite E. apply split_low. lia.
Qed.

Lemma flags_at f buf i rest tr :
  drop i buf = [Z.land f 0xFF; Z.land (Z.shiftr f 8) 0xFF] ++ rest ->
  exists tr', slice buf i (i + 2) tr
              = (Return [Z.land f 0xFF; Z.land (Z.shiftr f 8) 0xFF], tr')
              /\ drop (i + 2) buf = rest.
Proof.
  intros Hd. unfold slice, mbind, Dec_bind, dbind, touch. simpl.
  replace (i + 2 - i)%nat with 2%nat by lia. rewrite Hd. simpl.
  eexists; split; [reflexivity|].
  exact (drop_past buf [_; _] rest i Hd).
Qed.

Lemma to_bytes_u16 f :
  to_bytes_little (Z.land f 0xFFFF) 2
  = Return [Z.land f 0xFF; Z.land (Z.shiftr f 8) 0xFF].
Proof.
  unfold to_bytes_little.
  assert (0 <= Z.land f 0xFFFF < 65536).
  { change 0xFFFF with (Z.ones 16). rewrite Z.land_ones by lia.
    apply Z.mod_pos_bound. lia. }
  destruct (Z.ltb_spec (Z.land f 0xFFFF) 0); [lia|].
  change (2 ^ (8 * Z.of_nat 2)) with 65536.
  destruct (Z.leb_spec 65536 (Z.land f 0xFFFF)); [lia|].
  simpl. do 2 f_equal.
  - rewrite <- Z.land_assoc. reflexivity.
  - f_equal. change 0xFF with (Z.ones 8). change 0xFFFF with (Z.ones 16).
    apply Z.bits_inj'. intros n Hn.
    rewrite !Z.land_spec, !Z.shiftr_spec, Z.land_spec by lia.
    rewrite !Z.testbit_ones by lia.
    destruct (Z.ltb_spec n 8).
    + replace (n + 8 <? 16) with true by (symmetry; apply Z.ltb_lt; lia).
      replace (0 <=? n + 8) with true by (symmetry; apply Z.leb_le; lia).
      now rewrite !andb_true_r.
    + now rewrite !andb_false_r.
Qed.

Lemma byte_mask b : byte_ok b -> Z.land b 0xFF = b.
Proof.
  intros Hb. change 0xFF with (Z.ones 8). rewrite Z.land_ones by lia.
  apply Z.mod_small. exact Hb.
Qed.

(** ** One record *)

Ltac read_uvarint :=
  match goal with
  | Hd : drop ?i ?buf = uv ?v ++ ?rest
    |- exists _, mbind _ (_uvarint_decode ?buf ?i) ?tr = _ =>
      let tr' := fresh "tr" in
      let E := fresh "E" in
      let Hd' := fresh "Hd" in
      destruct (uvarint_at v buf i rest tr ltac:(assumption) Hd)
        as (tr' & E & Hd');
      rewrite (dbind_return _ _ _ _ _ E); clear E Hd; cbv beta iota
  end.

Ltac read_byte :=
  match goal with
  | Hd : drop ?i ?buf = [?b] ++ ?rest
    |- exists _, mbind _ (index ?buf ?i) ?tr = _ =>
      let tr' := fresh "tr" in
      let E := fresh "E" in
      let Hd' := fresh "Hd" in
      destruct (index_at buf i b rest tr Hd) as (tr' & E & Hd');
      rewrite (dbind_return _ _ _ _ _ E); clear E Hd; cbv beta iota zeta
  end.

Ltac read_flags :=
  match goal with
  | Hd : drop ?i ?buf = [Z.land ?f _; _] ++ ?rest
    |- exists _, mbind _ (slice ?buf ?i _) ?tr = _ =>
      let tr' := fresh "tr" in
      let E := fresh "E" in
      let Hd' := fresh "Hd" in
      destruct (flags_at f buf i rest tr Hd) as (tr' & E & Hd');
      rewrite (dbind_return _ _ _ _ _ E); clear E Hd; cbv beta iota zeta
  end.

Lemma decode_node_reads n : node_ok n -> reads decode_node (node_wire n) n.
Proof.
  intros [] buf i rest Hd tr.
  unfold node_wire in Hd. rewrite <- !app_assoc in Hd. unfold decode_node.
  read_uvarint. read_byte. read_byte. do 3 read_uvarint.
  read_flags. read_byte. read_uvarint.
  eexists. unfold mret, Dec_ret, dret. do 2 f_equal.
  rewrite u16_split by assumption. destruct n as [? ? ? ? [? ?] ? ? ?]; simpl.
  f_equal. unfold node_wire. rewrite !length_app. simpl. lia.
Qed.

Lemma decode_edge_reads e : edge_ok e -> reads decode_edge (edge_wire e) e.
Proof.
  intros [] buf i rest Hd tr.
  unfold edge_wire in Hd. rewrite <- !app_assoc in Hd. unfold decode_edge.
  do 2 read_uvarint. read_byte. read_byte. read_uvarint.
  read_flags. read_byte. read_uvarint.
  eexists. unfold mret, Dec_ret, dret. do 2 f_equal.
  rewrite u16_split by assumption. destruct e; simpl.
  f_equal. unfold edge_wire. rewrite !length_app. simpl. lia.
Qed.

Lemma encode_node_wire out n :
  node_ok n -> encode_node out n = Return (out ++ node_wire n).
Proof.
  intros []. unfold encode_node, node_wire, uvarint_ok in *.
  rewrite !uvarint_encode_return by lia. cbn [mbind outcome_bind].
  rewrite to_bytes_u16. cbn [mbind outcome_bind].
  rewrite (byte_mask (n_type n)), (byte_mask (sub_type n)),
    (byte_mask (n_confidence n)) by assumption.
  f_equal. rewrite <- !app_assoc. reflexivity.
Qed.

Lemma encode_edge_wire out e :
  edge_ok e -> encode_edge out e = Return (out ++ edge_wire e).
Proof.
  intros []. unfold encode_edge, edge_wire, uvarint_ok in *.
  rewrite !uvarint_encode_return by lia. cbn [mbind outcome_bind].
  rewrite to_bytes_u16. cbn [mbind outcome_bind].
  rewrite (byte_mask (e_type e)), (byte_mask (weight e)),
    (byte_mask (e_confidence e)) by assumption.
  f_equal. rewrite <- !app_assoc. reflexivity.
Qed.

(** ** Tables *)

Lemma for_each_wire {A} (enc : bytes -> A -> outcome bytes) (wire : A -> bytes)
    (ok : A -> Prop) :
  (forall out x, ok x -> enc out x = Return (out ++ wire x)) ->
  forall xs out, Forall ok xs ->
    for_each enc xs out = Return (out ++ concat (map wire xs)).
Proof.
  intros Henc xs. induction xs as [|x xs IH]; intros out Hok; simpl.
  - now rewrite app_nil_r.
  - inversion Hok; subst. rewrite Henc by assumption. cbn [mbind outcome_bind].
    rewrite IH by assumption. now rewrite <- app_assoc.
Qed.

Lemma decode_table_reads {A} (rd : bytes -> nat -> Dec (A * nat))
    (wire : A -> bytes) (ok : A -> Prop) :
  (forall x, ok x -> reads rd (wire x) x) ->
  forall xs acc buf i rest tr, Forall ok xs ->
    drop i buf = concat (map wire xs) ++ rest ->
    exists tr',
      decode_table rd (length xs) buf i acc tr
      = (Return (acc ++ xs, (i + length (concat (map wire xs)))%nat), tr').
Proof.
  intros Hrd xs. induction xs as [|x xs IH]; intros acc buf i rest tr Hok Hd.
  - simpl. eexists. unfold mret, Dec_ret, dret. rewrite app_nil_r.
    do 3 f_equal. lia.
  - inversion Hok; subst. simpl in Hd. rewrite <- app_assoc in Hd.
    destruct (Hrd x ltac:(assumption) buf i _ Hd tr) as [tr1 E1].
    cbn [decode_table length]. rewrite (dbind_return _ _ _ _ _ E1).
    cbv beta iota.
    destruct (IH (acc ++ [x]) buf (i + length (wire x))%nat rest tr1)
      as [tr2 E2]; [assumption|now apply drop_past|].
    rewrite E2. eexists. do 3 f_equal.
    + now rewrite <- app_assoc.
    + simpl. rewrite length_app. lia.
Qed.

(** ** The whole graph *)

Lemma slice_from_start buf n tr :
  slice buf 0 n tr = (Return (take n buf), tr ++ [mkRead 0 n]).
Proof.
  unfold slice, mbind, Dec_bind, dbind, touch, dret.
  now rewrite drop_0, Nat.sub_0_r.
Qed.

Lemma encode_pgraph_wire g :
  fields_ok g -> encode_pgraph g = Return (graph_wire g).
Proof.
  intros []. unfold encode_pgraph, graph_wire, uvarint_ok in *.
  rewrite !uvarint_encode_return by lia. cbn [mbind outcome_bind].
  rewrite (for_each_wire encode_node node_wire node_ok encode_node_wire)
    by assumption.
  cbn [mbind outcome_bind].
  rewrite (for_each_wire encode_edge edge_wire edge_ok encode_edge_wire)
    by assumption.
  cbn [mbind outcome_bind].
  rewrite (byte_mask (graph_type g)), (byte_mask (schema_id g)) by assumption.
  assert (Hfeat : match g_features g with
                  | Some f => if bool_decide (f = []) then [] else f
                  | None => []
                  end = default [] (g_features g)).
  { destruct (g_features g) as [f|]; [|reflexivity]. simpl.
    case_bool_decide; congruence. }
  rewrite !Hfeat. unfold thumbnail_len.
  f_equal. case_bool_decide as Hnil.
  - rewrite Hnil. rewrite <- !app_assoc. simpl. now rewrite ?app_nil_r.
  - rewrite <- !app_assoc. reflexivity.
Qed.

Ltac read_table Hrd Hok :=
  match goal with
  | Hd : drop ?i ?buf = concat (map ?wire ?xs) ++ ?rest
    |- exists _, mbind _ (decode_table ?rd _ ?buf ?i []) ?tr = _ =>
      let tr' := fresh "tr" in
      let E := fresh "E" in
      destruct (decode_table_reads rd wire _ Hrd xs [] buf i rest tr Hok Hd)
        as [tr' E];
      rewrite (dbind_return _ _ _ _ _ E); clear E; cbv beta iota;
      apply drop_past in Hd
  end.

Lemma decode_pgraph_wire g :
  fields_ok g -> uvarint_ok (Z.of_nat (thumbnail_len g)) ->
  decode_pgraph (graph_wire g)
  = Return (with_g_features g (thumbnail_read_back g)).
Proof.
  intros [] Hthumb. unfold decode_pgraph.
  set (buf := graph_wire g).
  assert (Hd : drop 4 buf
               = uv (graph_id g) ++ [graph_type g] ++ uv (num_nodes g)
                 ++ uv (num_edges g) ++ uv (source_id g) ++ uv (version g)
                 ++ [schema_id g] ++ concat (map node_wire (nodes g))
                 ++ concat (map edge_wire (edges g))
                 ++ uv (Z.of_nat (thumbnail_len g))
                 ++ default [] (g_features g) ++ []).
  { unfold buf, graph_wire. rewrite app_nil_r. reflexivity. }
  assert (Hmagic : take 4 buf = _PG_MAGIC) by reflexivity.
  clearbody buf.
  cut (exists tr, decode_pgraph_reads buf []
                  = (Return (with_g_features g (thumbnail_read_back g)), tr)).
  { intros [tr ->]. reflexivity. }
  unfold decode_pgraph_reads.
  rewrite (dbind_return _ _ _ _ _ (slice_from_start buf 4 [])).
  rewrite Hmagic. rewrite bool_decide_eq_true_2 by reflexivity.
  cbv beta iota zeta. cbn [negb].
  read_uvarint. read_byte. do 4 read_uvarint. read_byte.
  (* node table *)
  replace (Z.to_nat (num_nodes g)) with (length (nodes g)) by lia.
  read_table decode_node_reads nodes_ok0.
  (* edge table *)
  replace (Z.to_nat (num_edges g)) with (length (edges g)) by lia.
  read_table decode_edge_reads edges_ok0.
  (* adjuncts *)
  read_uvarint.
  assert (Hback : thumbnail_read_back g
                  = match default [] (g_features g) with
                    | [] => None
                    | f => Some f
                    end).
  { unfold thumbnail_read_back. now destruct (g_features g) as [[|]|]. }
  rewrite Hback. unfold thumbnail_len in *.
  destruct (default [] (g_features g)) as [|b f].
  - change (Z.of_nat (length []) =? 0) with true. cbn [negb].
    unfold mbind, Dec_bind, dbind, mret, Dec_ret, dret, with_g_features.
    eexists. do 2 f_equal. rewrite !app_nil_l. f_equal; congruence.
  - replace (Z.of_nat (length (b :: f)) =? 0) with false
      by (symmetry; apply Z.eqb_neq; simpl; lia).
    cbn [negb]. rewrite Nat2Z.id.
    unfold slice, mbind, Dec_bind, dbind, touch, mret, Dec_ret, dret,
      with_g_features.
    match goal with |- context [take ?a (drop ?i buf)] =>
      replace (take a (drop i buf)) with (b :: f) end.
    2:{ rewrite Hd. rewrite app_nil_r.
        match goal with |- _ = take ?a _ =>
          replace a with (length (b :: f)) by lia end.
        now rewrite firstn_all. }
    rewrite Z.eqb_refl. cbn [negb].
    eexists. do 2 f_equal. rewrite !app_nil_l. f_equal; congruence.
Qed.

(** ** Reads past the end of the buffer *)

Section Sound.
Variable buf : bytes.
Let n := length buf.

Lemma sound_ret {A} (a : A) : sound n (mret a).
Proof. intros tr Htr. exact Htr. Qed.

Lemma sound_raise {A} e : sound n (@draise A e).
Proof. intros tr Htr. exact I. Qed.

Lemma sound_bind {A B} (m : Dec A) (k : A -> Dec B) :
  sound n m -> (forall a, sound n (k a)) -> sound n (x ← m; k x).
Proof.
  intros Hm Hk tr Htr. specialize (Hm tr Htr).
  unfold mbind, Dec_bind, dbind.
  destruct (m tr) as [[a| |] tr']; [|exact I|exact Hm].
  apply Hk, Hm.
Qed.

Lemma sound_index i : sound n (index buf i).
Proof.
  intros tr Htr. unfold index, mbind, Dec_bind, dbind, touch.
  destruct (buf !! i) as [b|] eqn:Hb; simpl; [|exact I].
  apply Forall_app; split; [exact Htr|]. apply Forall_singleton.
  apply lookup_lt_Some in Hb. unfold within, n. simpl. lia.
Qed.

Lemma sound_uvarint_loop rest : forall i shift value,
  rest = drop i buf -> sound n (uvarint_decode_loop rest i shift value).
Proof.
  induction rest as [|b rest IH]; intros i shift value Hrest tr Htr.
  - exact I.
  - assert (Hi : (i < n)%nat).
    { destruct (Nat.lt_ge_cases i n) as [|Hge]; [assumption|].
      unfold n in Hge. rewrite drop_ge in Hrest by lia. discriminate. }
    assert (Htr' : Forall (within n) (tr ++ [mkRead i 1])).
    { apply Forall_app; split; [exact Htr|]. apply Forall_singleton.
      unfold within. simpl. lia. }
    cbn [uvarint_decode_loop]. unfold mbind, Dec_bind, dbind, touch.
    destruct (Z.land b 128 =? 0); [exact Htr'|].
    destruct (shift + 7 >? 63); [exact I|].
    apply IH; [|exact Htr'].
    rewrite <- (Nat.add_1_r i), <- drop_drop, <- Hrest. reflexivity.
Qed.

Lemma sound_uvarint i : sound n (_uvarint_decode buf i).
Proof. now apply sound_uvarint_loop. Qed.

(** The two bytes of a flag field may be cut short without an error; the
    byte read after them then raises. *)
Lemma sound_flags {A} i (k : bytes -> Z -> Dec A) :
  (forall fl c, sound n (k fl c)) ->
  sound n (fl ← slice buf i (i + 2); c ← index buf (i + 2); k fl c).
Proof.
  intros Hk tr Htr. unfold slice, index, mbind, Dec_bind, dbind, touch, dret.
  destruct (buf !! (i + 2)%nat) as [c|] eqn:Hc; simpl; [|exact I].
  apply Hk. apply lookup_lt_Some in Hc.
  rewrite <- app_assoc. apply Forall_app; split; [exact Htr|].
  repeat constructor; unfold within, n; simpl; lia.
Qed.

Lemma sound_decode_node i : sound n (decode_node buf i).
Proof.
  unfold decode_node. cbv zeta.
  apply sound_bind; [apply sound_uvarint|intros [? ?]].
  apply sound_bind; [apply sound_index|intros ?].
  apply sound_bind; [apply sound_index|intros ?].
  apply sound_bind; [apply sound_uvarint|intros [? ?]].
  apply sound_bind; [apply sound_uvarint|intros [? ?]].
  apply sound_bind; [apply sound_uvarint|intros [? ?]].
  apply sound_flags; intros ? ?.
  apply sound_bind; [apply sound_uvarint|intros [? ?]].
  apply sound_ret.
Qed.

Lemma sound_decode_edge i : sound n (decode_edge buf i).
Proof.
  unfold decode_edge. cbv zeta.
  apply sound_bind; [apply sound_uvarint|intros [? ?]].
  apply sound_bind; [apply sound_uvarint|intros [? ?]].
  apply sound_bind; [apply sound_index|intros ?].
  apply sound_bind; [apply sound_index|intros ?].
  apply sound_bind; [apply sound_uvarint|intros [? ?]].
  apply sound_flags; intros ? ?.
  apply sound_bind; [apply sound_uvarint|intros [? ?]].
  apply sound_ret.
Qed.

Lemma sound_decode_table {A} (rd : bytes -> nat -> Dec (A * nat)) count :
  (forall i, sound n (rd buf i)) ->
  forall i acc, sound n (decode_table rd count buf i acc).
Proof.
  intros Hrd. induction count as [|count IH]; intros i acc; simpl.
  - apply sound_ret.
  - apply sound_bind; [apply Hrd|intros [? ?]; apply IH].
Qed.

(** A thumbnail cut short is detected by the length check. *)
Lemma sound_thumbnail i feat_len :
  feat_len <> 0 ->
  sound n (g_features ← slice buf i (i + Z.to_nat feat_len);
           if negb (Z.of_nat (length g_features) =? feat_len)
           then draise (ValueError "Truncated g_features")
           else mret (Some g_features, (i + Z.to_nat feat_len)%nat)).
Proof.
  intros Hlen tr Htr. unfold slice, mbind, Dec_bind, dbind, touch, dret.
  replace (i + Z.to_nat feat_len - i)%nat with (Z.to_nat feat_len) by lia.
  destruct (Z.eqb_spec
              (Z.of_nat (length (take (Z.to_nat feat_len) (drop i buf))))
              feat_len) as [E|E]; simpl; [|exact I].
  apply Forall_app; split; [exact Htr|]. apply Forall_singleton.
  rewrite length_take, length_drop in E. unfold within, n. simpl. lia.
Qed.

(** A magic cut short is not the magic. *)
Lemma sound_magic {A} (k : Dec A) :
  sound n k ->
  sound n (magic ← slice buf 0 4;
           if negb (bool_decide (magic = _PG_MAGIC))
           then draise (ValueError
                  "Invalid magic; not a .pgraph single-graph payload")
           else k).
Proof.
  intros Hk tr Htr. rewrite (dbind_return _ _ _ _ _ (slice_from_start buf 4 tr)).
  case_bool_decide as E; simpl; [|exact I].
  apply Hk. apply Forall_app; split; [exact Htr|]. apply Forall_singleton.
  assert (length (take 4 buf) = 4%nat) by now rewrite E.
  rewrite length_take in *. unfold within, n. simpl. lia.
Qed.

Lemma sound_decode_pgraph : sound n (decode_pgraph_reads buf).
Proof.
  unfold decode_pgraph_reads. cbv zeta. apply sound_magic.
  apply sound_bind; [apply sound_uvarint|intros [? ?]].
  apply sound_bind; [apply sound_index|intros ?].
  apply sound_bind; [apply sound_uvarint|intros [? ?]].
  apply sound_bind; [apply sound_uvarint|intros [? ?]].
  apply sound_bind; [apply sound_uvarint|intros [? ?]].
  apply sound_bind; [apply sound_uvarint|intros [? ?]].
  apply sound_bind; [apply sound_index|intros ?].
  apply sound_bind;
    [apply sound_decode_table, sound_decode_node|intros [? ?]].
  apply sound_bind;
    [apply sound_decode_table, sound_decode_edge|intros [? ?]].
  apply sound_bind; [apply sound_uvarint|intros [feat_len ?]].
  apply sound_bind; [|intros [? ?]; apply sound_ret].
  destruct (Z.eqb_spec feat_len 0) as [E|E]; cbn [negb]; [apply sound_ret|].
  now apply sound_thumbnail.
Qed.

End Sound.

(** ** The claims on the codec and the builder *)

(** C1 (as amended). For every graph whose fields are within the declared
    ranges (counts equal to the list lengths, varint fields unsigned and
    below 2^70, type codes, subtype, weight and confidence in byte range,
    flags in 16 bits, thumbnail length in {0, 64, 128}), encoding returns a
    buffer and decoding that buffer returns the graph field for field, except
    that a thumbnail that is present but empty is read back as absent. In
    particular the decoded graph is the original one whenever the thumbnail
    is not the empty byte string, which covers the graph with no node and
    no edge. *)
Theorem pgraph_roundtrip g :
  fields_ok g -> thumbnail_len_ok g ->
  exists blob,
    encode_pgraph g = Return blob
    /\ decode_pgraph blob = Return (with_g_features g (thumbnail_read_back g))
    /\ (g_features g <> Some [] -> decode_pgraph blob = Return g).
Proof.
  intros Hok Hlen. exists (graph_wire g).
  assert (Hdec : decode_pgraph (graph_wire g)
                 = Return (with_g_features g (thumbnail_read_back g))).
  { apply decode_pgraph_wire; [exact Hok|].
    unfold thumbnail_len_ok in Hlen. unfold uvarint_ok.
    assert (thumbnail_len g <= 128)%nat.
    { apply list_elem_of_In in Hlen. simpl in Hlen. lia. }
    lia. }
  split; [now apply encode_pgraph_wire|]. split; [exact Hdec|].
  intros Hne. rewrite Hdec. f_equal.
  unfold with_g_features, thumbnail_read_back.
  destruct g as [? ? ? ? [[|b f]|] ? ? ? ? ?]; simpl in *; congruence.
Qed.

Lemma pgraph_roundtrip_witness :
  exists blob,
    encode_pgraph self_check_graph = Return blob
    /\ decode_pgraph blob
       = Return (with_g_features self_check_graph
                   (thumbnail_read_back self_check_graph))
    /\ (g_features self_check_graph <> Some [] ->
        decode_pgraph blob = Return self_check_graph).
Proof.
  apply pgraph_roundtrip.
  - constructor; simpl; try (unfold uvarint_ok, byte_ok; lia);
      repeat (apply Forall_cons_2;
              [constructor; unfold uvarint_ok, byte_ok, u16_ok; simpl;
               first [lia|vm_compute; split; [discriminate|reflexivity]]|]);
      apply Forall_nil_2.
  - unfold thumbnail_len_ok. apply list_elem_of_In. simpl. tauto.
Defined.

(** C1, as stated, fails on a graph whose thumbnail is the empty byte
    string: its length 0 is in {0, 64, 128}, and it is read back as [None]. *)
Lemma pgraph_roundtrip_empty_thumbnail :
  fields_ok empty_thumbnail_graph /\ thumbnail_len_ok empty_thumbnail_graph
  /\ exists blob g',
       encode_pgraph empty_thumbnail_graph = Return blob
       /\ decode_pgraph blob = Return g'
       /\ g_features g' = None
       /\ g' <> empty_thumbnail_graph.
Proof.
  split.
  { constructor; unfold uvarint_ok, byte_ok; simpl; try lia; constructor. }
  split.
  { unfold thumbnail_len_ok. apply list_elem_of_In. simpl. tauto. }
  eexists. eexists. split; [reflexivity|]. split; [reflexivity|].
  split; [reflexivity|]. discriminate.
Qed.

(** C2. Whatever the buffer, if one of the reads [decode_pgraph] performs
    (the magic, a single byte, the two bytes of a flag field, a byte of a
    varint, the thumbnail) runs past the end of the buffer, the call raises
    an error; and a call that raises returns no graph. *)
Theorem decode_read_past_end_raises buf r :
  r ∈ (decode_pgraph_reads buf []).2 ->
  (length buf < r_off r + r_len r)%nat ->
  raised (decode_pgraph buf) /\ forall g, decode_pgraph buf <> Return g.
Proof.
  intros Hr Hpast. unfold decode_pgraph.
  pose proof (sound_decode_pgraph buf [] (Forall_nil_2 _)) as Hs.
  destruct (decode_pgraph_reads buf []) as [[g|e|] tr]; simpl in *.
  - exfalso. rewrite Forall_forall in Hs. specialize (Hs r Hr).
    unfold within in Hs. lia.
  - split; [eexists; reflexivity|discriminate].
  - contradiction.
Qed.

Lemma decode_read_past_end_raises_witness :
  raised (decode_pgraph (_PG_MAGIC ++ [0x80]))
  /\ forall g, decode_pgraph (_PG_MAGIC ++ [0x80]) <> Return g.
Proof.
  apply (decode_read_past_end_raises (_PG_MAGIC ++ [0x80]) (mkRead 5 1)).
  - vm_compute. apply list_elem_of_In. simpl. tauto.
  - simpl. lia.
Defined.

(** C3 (as amended). [set_thumbnail b] raises if and only if [b] is a byte
    string whose length is neither 64 nor 128: [None] and the lengths 64 and
    128 succeed and store [b], every other byte string, the empty one and a
    65-byte one among them, is rejected, and a rejected call leaves the
    builder as it was. *)
Theorem set_thumbnail_raises_iff features self :
  (raised (set_thumbnail features self).1
   <-> exists b, features = Some b /\ length b <> 64%nat /\ length b <> 128%nat)
  /\ (raised (set_thumbnail features self).1 ->
      (set_thumbnail features self).2 = self)
  /\ (~ raised (set_thumbnail features self).1 ->
      set_thumbnail features self = (Return tt, with_features self features))
  /\ (forall b, length b = 65%nat -> raised (set_thumbnail (Some b) self).1).
Proof.
  assert (Hiff : raised (set_thumbnail features self).1
    <-> exists b, features = Some b /\ length b <> 64%nat /\ length b <> 128%nat).
  { unfold set_thumbnail. destruct features as [b|]; simpl.
    - repeat case_bool_decide; simpl; split;
        try (intros [e He]; discriminate);
        try (intros (b' & Hb & H64 & H128); injection Hb as <-; congruence).
      + intros _. exists b. auto.
      + intros _. eexists; reflexivity.
    - split; [intros [e He]; discriminate|intros (b & Hb & _); discriminate]. }
  split; [exact Hiff|]. split; [|split].
  - unfold set_thumbnail. destruct features as [b|]; simpl.
    + destruct (negb _); simpl; [reflexivity|intros [e He]; discriminate].
    + intros [e He]; discriminate.
  - unfold set_thumbnail. destruct features as [b|]; simpl; [|reflexivity].
    destruct (negb _); simpl; [|reflexivity].
    intros Hn. exfalso. apply Hn. eexists; reflexivity.
  - intros b Hb. unfold set_thumbnail. rewrite Hb. simpl.
    eexists; reflexivity.
Qed.

Lemma set_thumbnail_raises_iff_witness :
  raised (set_thumbnail (Some (replicate 65 0)) fresh_builder).1.
Proof.
  apply (proj2 (proj2 (proj2
           (set_thumbnail_raises_iff (Some (replicate 65 0)) fresh_builder)))).
  reflexivity.
Defined.

(** C3, as stated, fails on the empty byte string: its length 0 is in
    {0, 64, 128} and [set_thumbnail] rejects it. *)
Lemma set_thumbnail_rejects_empty :
  ~ (raised (set_thumbnail (Some []) fresh_builder).1
     <-> length ([] : bytes) ∉ [0%nat; 64%nat; 128%nat]).
Proof.
  intros [Hraise _]. apply Hraise.
  - eexists; reflexivity.
  - apply list_elem_of_In. simpl. tauto.
Qed.

End Codec.


(* ===================================================================== *)
(** * Properties of the sentence segmenter *)
(* ===================================================================== *)

Section Segmenter.
Import Tokenizer Sentences Spans.

Local Open Scope nat_scope.

(** ** Chains of spans *)

Lemma chain_le a spans b : chain a spans b -> a <= b.
Proof.
  revert a. induction spans as [|[lo hi] spans IH]; intros a; simpl.
  - lia.
  - intros (-> & Hlt & Hc). specialize (IH _ Hc). lia.
Qed.

Lemma chain_snoc a spans b c :
  chain a spans b -> b < c -> chain a (spans ++ [(b, c)]) c.
Proof.
  revert a. induction spans as [|[lo hi] spans IH]; intros a; simpl.
  - intros -> Hlt. auto.
  - intros (-> & Hlt & Hc) Hbc. auto.
Qed.

(** In a chain every index is in one span, and in one only. *)
Lemma chain_cover a spans b i :
  chain a spans b -> a <= i < b -> exists p, in_span spans p i.
Proof.
  revert a. induction spans as [|[lo hi] spans IH]; intros a; simpl.
  - lia.
  - intros (-> & Hlt & Hc) Hi.
    destruct (Nat.lt_ge_cases i hi) as [Hin|Hout].
    + exists 0. exists a, hi. split; [reflexivity|lia].
    + destruct (IH hi Hc) as (p & lo' & hi' & Hp & Hr); [lia|].
      exists (S p), lo', hi'. auto.
Qed.

Lemma chain_after a spans b p i :
  chain a spans b -> in_span spans p i -> a <= i.
Proof.
  revert a p. induction spans as [|[lo hi] spans IH]; intros a p; simpl.
  - intros _ (lo & hi & Hp & _). discriminate.
  - intros (-> & Hlt & Hc) (lo' & hi' & Hp & Hr). destruct p as [|p]; simpl in Hp.
    + injection Hp as <- <-. lia.
    + assert (hi <= i); [|lia]. apply (IH hi p Hc). exists lo', hi'. auto.
Qed.

Lemma chain_disjoint a spans b p q i :
  chain a spans b -> in_span spans p i -> in_span spans q i -> p = q.
Proof.
  revert a p q. induction spans as [|[lo hi] spans IH]; intros a p q; simpl.
  - intros _ (lo & hi & Hp & _). discriminate.
  - intros (-> & Hlt & Hc) Hp Hq.
    destruct p as [|p], q as [|q]; [reflexivity| | |].
    + destruct Hp as (lo1 & hi1 & Hp & Hr1). simpl in Hp. injection Hp as <- <-.
      destruct Hq as (lo2 & hi2 & Hq & Hr2). simpl in Hq.
      assert (hi <= i); [|lia]. apply (chain_after hi spans b q i Hc).
      exists lo2, hi2. auto.
    + destruct Hq as (lo1 & hi1 & Hq & Hr1). simpl in Hq. injection Hq as <- <-.
      destruct Hp as (lo2 & hi2 & Hp & Hr2). simpl in Hp.
      assert (hi <= i); [|lia]. apply (chain_after hi spans b p i Hc).
      exists lo2, hi2. auto.
    + f_equal. apply (IH hi p q Hc).
      * destruct Hp as (lo1 & hi1 & Hp & Hr1). exists lo1, hi1. auto.
      * destruct Hq as (lo1 & hi1 & Hq & Hr1). exists lo1, hi1. auto.
Qed.

(** ** The inner loops *)

Lemma absorb_closers_range rest : forall e j e' j',
  absorb_closers rest e j = (e', j') ->
  e' = e \/ (j <= e' < j + length rest).
Proof.
  induction rest as [|t rest IH]; intros e j e' j' H; simpl in H.
  - injection H as <- <-. auto.
  - destruct (has_flag TF_SENT_END_WEAK t).
    + apply IH in H. simpl. lia.
    + injection H as <- <-. auto.
Qed.

Lemma lookahead_find rest : forall j,
  match list_find substantive rest with
  | Some (i, _) => lookahead rest j = j + i
  | None => lookahead rest j = j + length rest
  end.
Proof.
  induction rest as [|t rest IH]; intros j; simpl.
  - lia.
  - unfold substantive at 1. case_decide as Hs.
    + destruct Hs as [-> ->]. simpl. lia.
    + assert (E : has_flag TF_SENT_END_WEAK t || has_flag TF_PUNCT t = true).
      { destruct (has_flag TF_SENT_END_WEAK t), (has_flag TF_PUNCT t);
          try reflexivity. exfalso. apply Hs. auto. }
      rewrite E. specialize (IH (S j)).
      destruct (list_find substantive rest) as [[i x]|]; simpl; lia.
Qed.

Lemma item_lookup tokens k t : tokens !! k = Some t -> item tokens k = Return t.
Proof. intros H. unfold item. now rewrite H. Qed.

(** The look-ahead of the ellipsis rule returns, and it decides
    [ellipsis_closes]. *)
Lemma ellipsis_decision tokens k :
  exists b : bool,
    (if length tokens <=? lookahead (drop (k + 1) tokens) (k + 1)
     then Return true
     else tj ← item tokens (lookahead (drop (k + 1) tokens) (k + 1));
          Return (has_flag TF_CAP tj)) = Return b
    /\ (b = true <-> ellipsis_closes tokens k).
Proof.
  pose proof (lookahead_find (drop (k + 1) tokens) (k + 1)) as Hj.
  unfold ellipsis_closes, next_substantive.
  destruct (list_find substantive (drop (k + 1) tokens)) as [[i x]|] eqn:Hf.
  - apply list_find_Some in Hf as (Hx & _ & _). rewrite lookup_drop in Hx.
    rewrite Hj. pose proof (lookup_lt_Some _ _ _ Hx).
    destruct (Nat.leb_spec (length tokens) (k + 1 + i)); [lia|].
    rewrite (item_lookup _ _ _ Hx). simpl. eexists; split; [reflexivity|].
    reflexivity.
  - rewrite Hj, length_drop.
    destruct (Nat.leb_spec (length tokens)
                (k + 1 + (length tokens - (k + 1)))); [|lia].
    exists true. simpl. tauto.
Qed.

(** ** One iteration *)

Lemma seg_step_inv tokens spans s k :
  chain 0 spans s -> s <= k -> k < length tokens ->
  exists spans' s' k',
    seg_step tokens (length tokens) (spans, s, k) = Return (spans', s', k')
    /\ chain 0 spans' s' /\ s' <= k' /\ k < k' <= length tokens.
Proof.
  intros Hc Hsk Hk. unfold seg_step.
  destruct (lookup_lt_is_Some_2 tokens k Hk) as [t Ht].
  rewrite (item_lookup _ _ _ Ht). cbn [mbind outcome_bind].
  destruct (has_flag TF_SENT_END_STRONG t).
  - destruct (absorb_closers (drop (k + 1) tokens) k (k + 1)) as [e j] eqn:Ha.
    apply absorb_closers_range in Ha. rewrite length_drop in Ha.
    do 3 eexists. split; [reflexivity|].
    split; [apply chain_snoc; [exact Hc|lia]|]. lia.
  - destruct (has_flag TF_SENT_END_WEAK t && is_ellipsis (text t)).
    + destruct (ellipsis_decision tokens k) as (b & -> & _).
      cbn [mbind outcome_bind]. destruct b.
      * do 3 eexists. split; [reflexivity|].
        split; [apply chain_snoc; [exact Hc|lia]|]. lia.
      * do 3 eexists. split; [reflexivity|]. split; [exact Hc|]. lia.
    + cbn [mbind outcome_bind]. do 3 eexists. split; [reflexivity|].
      split; [exact Hc|]. lia.
Qed.

(** The iteration at an ellipsis token that is not a strong end. *)
Lemma ellipsis_step tokens spans s k t :
  tokens !! k = Some t ->
  has_flag TF_SENT_END_STRONG t = false ->
  has_flag TF_SENT_END_WEAK t = true ->
  is_ellipsis (text t) = true ->
  (ellipsis_closes tokens k ->
   seg_step tokens (length tokens) (spans, s, k)
   = Return (spans ++ [(s, k + 1)], k + 1, k + 1))
  /\ (~ ellipsis_closes tokens k ->
      seg_step tokens (length tokens) (spans, s, k) = Return (spans, s, k + 1)).
Proof.
  intros Ht Hstrong Hweak Hell. unfold seg_step.
  rewrite (item_lookup _ _ _ Ht). cbn [mbind outcome_bind].
  rewrite Hstrong, Hweak, Hell. cbn [andb].
  destruct (ellipsis_decision tokens k) as (b & -> & Hb).
  cbn [mbind outcome_bind]. split; intros Hc.
  - apply Hb in Hc. now rewrite Hc.
  - destruct b; [|reflexivity]. exfalso. apply Hc, Hb. reflexivity.
Qed.

(** ** The loop: [length tokens - k] iterations are enough *)

Lemma seg_loop_inv tokens fuel : forall spans s k,
  chain 0 spans s -> s <= k <= length tokens -> length tokens - k <= fuel ->
  exists spans' s',
    seg_loop fuel tokens (length tokens) (spans, s, k)
    = Return (spans', s', length tokens)
    /\ chain 0 spans' s' /\ s' <= length tokens.
Proof.
  induction fuel as [|fuel IH]; intros spans s k Hc Hk Hf.
  - assert (k = length tokens) as -> by lia. simpl.
    rewrite Nat.ltb_irrefl. exists spans, s. split; [reflexivity|].
    split; [exact Hc|lia].
  - cbn [seg_loop]. destruct (Nat.ltb_spec k (length tokens)) as [Hlt|Hge].
    + destruct (seg_step_inv tokens spans s k Hc) as
        (spans' & s' & k' & -> & Hc' & Hs' & Hk'); [lia|lia|].
      cbn [mbind outcome_bind]. apply IH; [exact Hc'|lia|lia].
    + assert (k = length tokens) as -> by lia. exists spans, s.
      split; [reflexivity|]. split; [exact Hc|lia].
Qed.

(** ** The claims on the segmenter *)

(** C4. For every token list, [segment_tokens] returns, and what it returns
    is an ordered list of half-open token-index ranges that partitions
    [[0, token_count)]: the spans are non-empty, each starts where the one
    before it ends, the first starts at 0 and the last ends at the token
    count, so that every token index lies in exactly one span; the empty
    token list gives the empty list of spans. *)
Theorem segment_tokens_partitions tokens :
  exists spans,
    segment_tokens tokens = Return spans
    /\ partitions (length tokens) spans
    /\ (forall i, i < length tokens ->
          exists p, in_span spans p i /\ forall q, in_span spans q i -> q = p)
    /\ (tokens = [] -> spans = []).
Proof.
  assert (H : exists spans, segment_tokens tokens = Return spans
                            /\ partitions (length tokens) spans
                            /\ (tokens = [] -> spans = [])).
  { unfold segment_tokens, partitions.
    destruct tokens as [|t tokens]; [exists []; simpl; auto|].
    set (toks := t :: tokens).
    replace (length toks =? 0) with false by reflexivity.
    destruct (seg_loop_inv toks (length toks) [] 0 0) as
      (spans & s & -> & Hc & Hs); [reflexivity|lia|lia|].
    cbn [mbind outcome_bind].
    destruct (Nat.ltb_spec s (length toks)) as [Hlt|Hge].
    - eexists. split; [reflexivity|]. split; [|discriminate].
      now apply chain_snoc.
    - eexists. split; [reflexivity|]. split; [|discriminate].
      now replace (length toks) with s by lia. }
  destruct H as (spans & Hret & Hpart & Hnil). exists spans.
  split; [exact Hret|]. split; [exact Hpart|]. split; [|exact Hnil].
  intros i Hi. destruct (chain_cover 0 spans _ i Hpart) as [p Hp]; [lia|].
  exists p. split; [exact Hp|]. intros q Hq.
  exact (chain_disjoint 0 spans _ q p i Hpart Hq Hp).
Qed.

End Segmenter.


(* ===================================================================== *)
(** * Properties of the tokenizer *)
(* ===================================================================== *)

Section Regex.
Import Tokenizer.

Local Open Scope nat_scope.

(** ** Every alternative matches inside the text, and at least one
       character *)

Lemma run_le p l : run p l <= length l.
Proof. induction l as [|c l IH]; simpl; [lia|]. destruct (p c); simpl; lia. Qed.

Lemma starts_with_length pre : forall l,
  starts_with pre l = true -> length pre <= length l.
Proof.
  induction pre as [|a pre IH]; intros [|b l]; simpl; try lia; try discriminate.
  intros H. apply andb_true_iff in H as [_ H]. apply IH in H. lia.
Qed.

Lemma prefix_then_nonspace_bound pre l n :
  prefix_then_nonspace pre l = Some n -> 1 <= n <= length l.
Proof.
  unfold prefix_then_nonspace.
  destruct (starts_with pre l) eqn:Hp; [|discriminate].
  apply starts_with_length in Hp.
  pose proof (run_le (fun c => negb (isspace c)) (drop (length pre) l)) as Hr.
  rewrite length_drop in Hr.
  destruct (Nat.ltb_spec 0 (run (fun c => negb (isspace c))
                              (drop (length pre) l))); [|discriminate].
  intros [= <-]. lia.
Qed.

Lemma match_URL_bound l n : match_URL l = Some n -> 1 <= n <= length l.
Proof.
  unfold match_URL.
  destruct (prefix_then_nonspace (lit "https://") l) eqn:H1.
  { intros [= <-]. eauto using prefix_then_nonspace_bound. }
  destruct (prefix_then_nonspace (lit "http://") l) eqn:H2.
  { intros [= <-]. eauto using prefix_then_nonspace_bound. }
  apply prefix_then_nonspace_bound.
Qed.

Lemma drop_cons_length {A} (l l' : list A) m c :
  drop m l = c :: l' -> length l = m + 1 + length l'.
Proof.
  intros H. assert (Hl : length (drop m l) = S (length l')) by now rewrite H.
  rewrite length_drop in Hl. lia.
Qed.

Lemma email_domain_bound l m n :
  email_domain l m = Some n -> 1 <= n <= length l.
Proof.
  induction m as [|m IH]; cbn [email_domain]; [discriminate|].
  destruct (drop (S m) l) as [|c l'] eqn:Hd; [exact IH|].
  destruct ((c =? 46)%Z && (2 <=? run is_letter l')); [|exact IH].
  intros [= <-]. apply drop_cons_length in Hd.
  pose proof (run_le is_letter l'). lia.
Qed.

Lemma match_EMAIL_bound l n :
  match_EMAIL l = Some n -> run is_local l < n <= length l.
Proof.
  unfold match_EMAIL. destruct (run is_local l =? 0); [discriminate|].
  destruct (drop (run is_local l) l) as [|c l'] eqn:Hd; [discriminate|].
  destruct (c =? 64)%Z; [|discriminate].
  destruct (email_domain l' (run is_domain l')) as [n'|] eqn:He; [|discriminate].
  intros [= <-]. apply email_domain_bound in He. apply drop_cons_length in Hd.
  lia.
Qed.

Lemma match_HANDLE_bound l n : match_HANDLE l = Some n -> 1 <= n <= length l.
Proof.
  destruct l as [|c l]; simpl; [discriminate|].
  destruct (((c =? 64)%Z || (c =? 35)%Z) && (0 <? run is_handle l));
    [|discriminate].
  intros [= <-]. pose proof (run_le is_handle l). lia.
Qed.

Lemma match_ELLIPSIS_bound l n : match_ELLIPSIS l = Some n -> 1 <= n <= length l.
Proof.
  unfold match_ELLIPSIS.
  destruct (starts_with [8230%Z] l) eqn:H1.
  { intros [= <-]. apply starts_with_length in H1. simpl in H1. lia. }
  destruct (starts_with [46%Z; 46%Z; 46%Z] l) eqn:H2; [|discriminate].
  intros [= <-]. apply starts_with_length in H2. simpl in H2. lia.
Qed.

Lemma wordish_rest_le l : wordish_rest l <= length l.
Proof.
  induction l as [|c l IH]; simpl; [lia|].
  destruct (is_alnum c); [lia|]. destruct (is_joiner c); [|lia].
  destruct l as [|c' l]; [lia|]. destruct (is_alnum c'); simpl in *; lia.
Qed.

Lemma match_WORD_bound l n : match_WORD l = Some n -> 1 <= n <= length l.
Proof.
  destruct l as [|c l]; simpl; [discriminate|].
  destruct (is_alnum c); [|discriminate].
  intros [= <-]. pose proof (wordish_rest_le l). lia.
Qed.

Lemma match_PUNCT_bound l n : match_PUNCT l = Some n -> 1 <= n <= length l.
Proof.
  destruct l as [|c l]; simpl; [discriminate|].
  destruct (is_punct c); [|discriminate]. intros [= <-]. lia.
Qed.

Lemma match_WS_bound l n : match_WS l = Some n -> 1 <= n <= length l.
Proof.
  unfold match_WS. destruct (Nat.ltb_spec 0 (run isspace l)); [|discriminate].
  intros [= <-]. pose proof (run_le isspace l). lia.
Qed.

Lemma _MASTER_bound l kind n : _MASTER l = Some (kind, n) -> 1 <= n <= length l.
Proof.
  unfold _MASTER.
  destruct (match_URL l) eqn:H1; simpl.
  { intros [= <- <-]. eauto using match_URL_bound. }
  destruct (match_EMAIL l) eqn:H2; simpl.
  { intros [= <- <-]. apply match_EMAIL_bound in H2. lia. }
  destruct (match_HANDLE l) eqn:H3; simpl.
  { intros [= <- <-]. eauto using match_HANDLE_bound. }
  destruct (match_ELLIPSIS l) eqn:H4; simpl.
  { intros [= <- <-]. eauto using match_ELLIPSIS_bound. }
  destruct (match_WORD l) eqn:H5; simpl.
  { intros [= <- <-]. eauto using match_WORD_bound. }
  destruct (match_PUNCT l) eqn:H6; simpl.
  { intros [= <- <-]. eauto using match_PUNCT_bound. }
  destruct (match_WS l) eqn:H7; simpl; [|discriminate].
  intros [= <- <-]. eauto using match_WS_bound.
Qed.

(** ** [finditer] *)

(** Every match reported is a match of [_MASTER] where it starts. *)
Lemma finditer_from_match l : forall pos skip m,
  m ∈ finditer_from l pos skip ->
  pos <= m_start m
  /\ _MASTER (drop (m_start m - pos) l)
     = Some (lastgroup m, m_end m - m_start m).
Proof.
  induction l as [|c l IH]; intros pos skip m Hm; simpl in Hm.
  - inversion Hm.
  - assert (Hrec : forall sk, m ∈ finditer_from l (S pos) sk ->
              pos <= m_start m
              /\ _MASTER (drop (m_start m - pos) (c :: l))
                 = Some (lastgroup m, m_end m - m_start m)).
    { intros sk H. apply IH in H as [Hle HM]. split; [lia|].
      replace (m_start m - pos) with (S (m_start m - S pos)) by lia.
      exact HM. }
    destruct skip as [|sk]; [|eauto].
    destruct (_MASTER (c :: l)) as [[kind len]|] eqn:HM; [|eauto].
    apply elem_of_cons in Hm as [->|Hm]; [|eauto].
    simpl. split; [lia|]. rewrite Nat.sub_diag. simpl. rewrite HM.
    do 2 f_equal. lia.
Qed.

(** Where the scan reports nothing, the pattern does not match. *)
Lemma finditer_from_nil l pos : finditer_from l pos 0 = [] -> _MASTER l = None.
Proof.
  destruct l as [|c l]; [reflexivity|]. simpl.
  destruct (_MASTER (c :: l)) as [[kind len]|]; [discriminate|reflexivity].
Qed.

Lemma finditer_from_skip l : forall pos skip,
  skip <= length l -> finditer_from l pos skip = [] ->
  finditer_from (drop skip l) (pos + skip) 0 = [].
Proof.
  induction l as [|c l IH]; intros pos skip Hs H.
  - simpl in Hs. assert (skip = 0) as -> by lia. reflexivity.
  - destruct skip as [|sk].
    + rewrite Nat.add_0_r. exact H.
    + simpl in H, Hs. simpl. replace (pos + S sk) with (S pos + sk) by lia.
      apply IH; [lia|exact H].
Qed.

(** After the last match the scan reports nothing more. *)
Lemma finditer_from_last l : forall pos skip ms m,
  skip <= length l -> finditer_from l pos skip = ms ++ [m] ->
  pos < m_end m <= pos + length l
  /\ finditer_from (drop (m_end m - pos) l) (m_end m) 0 = [].
Proof.
  induction l as [|c l IH]; intros pos skip ms m Hs H.
  - simpl in H. destruct ms; discriminate.
  - assert (Hrec : forall sk ms0, sk <= length l ->
              finditer_from l (S pos) sk = ms0 ++ [m] ->
              pos < m_end m <= pos + length (c :: l)
              /\ finditer_from (drop (m_end m - pos) (c :: l)) (m_end m) 0 = []).
    { intros sk ms0 Hsk H'. destruct (IH _ _ _ _ Hsk H') as [Hr Hn]. simpl.
      split; [lia|].
      replace (m_end m - pos) with (S (m_end m - S pos)) by lia. exact Hn. }
    simpl in H. destruct skip as [|sk];
      [|simpl in Hs; apply (Hrec sk ms); [lia|exact H]].
    destruct (_MASTER (c :: l)) as [[kind len]|] eqn:HM;
      [|apply (Hrec 0 ms); [lia|exact H]].
    apply _MASTER_bound in HM. simpl in HM.
    destruct (finditer_from l (S pos) (len - 1)) as [|m' ms'] eqn:Hrest.
    + destruct ms as [|? [|? ?]]; try discriminate.
      injection H as <-. simpl. split; [lia|].
      replace (pos + len - pos) with (S (len - 1)) by lia. simpl.
      replace (pos + len) with (S pos + (len - 1)) by lia.
      apply finditer_from_skip; [lia|exact Hrest].
    + destruct ms as [|m0 ms]; [destruct ms'; discriminate|].
      injection H as _ H. apply (Hrec (len - 1) ms); [lia|].
      rewrite Hrest. exact H.
Qed.

End Regex.

Section Passes.
Import Tokenizer Sentences TokenSpec.
Context `{Unicode}.

Local Open Scope nat_scope.

(** ** Flag bits *)

Lemma has_flag_testbit n t :
  (0 <= n)%Z -> has_flag (Z.shiftl 1 n) t = Z.testbit (flags t) n.
Proof.
  intros Hn. unfold has_flag, truthy. rewrite Z.shiftl_1_l.
  destruct (Z.testbit (flags t) n) eqn:Hb.
  - apply negb_true_iff, Z.eqb_neq. intros E.
    assert (Hc : Z.testbit (Z.land (flags t) (2 ^ n)) n = true).
    { rewrite Z.land_spec, Hb, Z.pow2_bits_true by lia. reflexivity. }
    rewrite E, Z.bits_0 in Hc. discriminate.
  - apply negb_false_iff, Z.eqb_eq. apply Z.bits_inj'. intros m Hm.
    rewrite Z.land_spec, Z.bits_0.
    destruct (Z.eq_dec n m) as [<-|Hne].
    + now rewrite Hb.
    + rewrite Z.pow2_bits_false by lia. apply andb_false_r.
Qed.

Lemma has_CAP t : has_flag TF_CAP t = Z.testbit (flags t) 0.
Proof. apply has_flag_testbit. lia. Qed.
Lemma has_STRONG t : has_flag TF_SENT_END_STRONG t = Z.testbit (flags t) 3.
Proof. apply has_flag_testbit. lia. Qed.
Lemma has_WEAK t : has_flag TF_SENT_END_WEAK t = Z.testbit (flags t) 4.
Proof. apply has_flag_testbit. lia. Qed.

Lemma testbit_or_bit f n b :
  (0 <= n)%Z -> (0 <= b)%Z ->
  Z.testbit (Z.lor f (Z.shiftl 1 n)) b = Z.testbit f b || (b =? n)%Z.
Proof.
  intros Hn Hb. rewrite Z.lor_spec, Z.shiftl_1_l. f_equal.
  rewrite Z.pow2_bits_eqb by lia. apply Z.eqb_sym.
Qed.

(** ** The first pass *)

Lemma match_flags_bits kd piece :
  Z.testbit (match_flags kd piece) 3 = false
  /\ Z.testbit (match_flags kd piece) 4 = false
  /\ Z.testbit (match_flags kd piece) 0
     = bool_decide (kd = WORD) && existsb isalpha piece && first_isupper piece.
Proof.
  unfold match_flags.
  destruct kd, (existsb isdigit piece), (existsb isalpha piece),
    (first_isupper piece); repeat split; reflexivity.
Qed.

Lemma scan_step_origin txt st m :
  _MASTER (drop (m_start m) txt) = Some (lastgroup m, m_end m - m_start m) ->
  Forall2 (origin txt) (tokens st) (kinds st) ->
  Forall2 (origin txt) (tokens (scan_step txt st m))
    (kinds (scan_step txt st m)).
Proof.
  intros HM Hst. unfold scan_step. case_bool_decide as Hws; [exact Hst|].
  simpl. apply Forall2_app; [exact Hst|]. apply Forall2_cons_2; [|constructor].
  destruct (match_flags_bits (lastgroup m)
              (take (m_end m - m_start m) (drop (m_start m) txt)))
    as (H3 & H4 & H0).
  unfold origin. simpl. repeat split; try assumption.
  left. eexists. split; [exact HM|reflexivity].
Qed.

Lemma scan_fold_origin txt ms : forall st,
  (forall m, m ∈ ms ->
     _MASTER (drop (m_start m) txt)
     = Some (lastgroup m, m_end m - m_start m)) ->
  Forall2 (origin txt) (tokens st) (kinds st) ->
  Forall2 (origin txt) (tokens (foldl (scan_step txt) st ms))
    (kinds (foldl (scan_step txt) st ms)).
Proof.
  induction ms as [|m ms IH]; intros st Hms Hst; simpl; [exact Hst|].
  apply IH.
  - intros m' Hm'. apply Hms. now right.
  - apply scan_step_origin; [|exact Hst]. apply Hms. now left.
Qed.

Lemma scan_step_i txt st m : i (scan_step txt st m) = m_end m.
Proof. unfold scan_step. now case_bool_decide. Qed.

Lemma snoc_case {A} (l : list A) : l = [] \/ exists l' x, l = l' ++ [x].
Proof. induction l using rev_ind; eauto. Qed.

(** Where the first loop stops, the pattern matches no more. *)
Lemma scan_rest_unmatched txt :
  let st := foldl (scan_step txt) (mkLocals [] 0 0 []) (finditer txt) in
  i st < length txt -> _MASTER (drop (i st) txt) = None.
Proof.
  intros st Hi. subst st. unfold finditer in *.
  destruct (snoc_case (finditer_from txt 0 0)) as [Hf|(ms & m & Hf)];
    rewrite Hf in *.
  - simpl. now apply (finditer_from_nil txt 0).
  - rewrite foldl_app in *. simpl in *. rewrite scan_step_i in *.
    destruct (finditer_from_last txt 0 0 _ _ ltac:(lia) Hf) as [_ Hn].
    rewrite Nat.sub_0_r in Hn. now apply finditer_from_nil in Hn.
Qed.

Lemma scan_origin txt :
  Forall2 (origin txt) (tokens (scan txt)) (kinds (scan txt)).
Proof.
  unfold scan.
  pose proof (scan_rest_unmatched txt) as Hrest. simpl in Hrest.
  assert (Hst : Forall2 (origin txt)
            (tokens (foldl (scan_step txt) (mkLocals [] 0 0 []) (finditer txt)))
            (kinds (foldl (scan_step txt) (mkLocals [] 0 0 []) (finditer txt)))).
  { apply scan_fold_origin; [|constructor].
    intros m Hm. apply finditer_from_match in Hm as [_ Hm].
    now rewrite Nat.sub_0_r in Hm. }
  set (st := foldl (scan_step txt) (mkLocals [] 0 0 []) (finditer txt)) in *.
  unfold fallback. destruct (Nat.ltb_spec (i st) (length txt)) as [Hi|Hi];
    [|exact Hst].
  simpl. apply Forall2_app; [exact Hst|]. apply Forall2_cons_2; [|constructor].
  specialize (Hrest Hi). unfold origin. simpl.
  split; [right; auto|]. split; [discriminate|].
  set (piece := drop (i st) txt) in *.
  assert (Hne : bool_decide (piece = []) = false).
  { apply bool_decide_eq_false_2. intros E. rewrite E in Hrest.
    assert (length piece = 0) by now rewrite E.
    unfold piece in *. rewrite length_drop in *. lia. }
  rewrite Hne. simpl.
  destruct (existsb isdigit piece), (existsb isalpha piece),
    (first_isupper piece); repeat split; reflexivity.
Qed.

(** ** The post-pass only adds sentence-end bits *)

Lemma end_flags_only_refl t : end_flags_only t t.
Proof. unfold end_flags_only. repeat split; auto. Qed.

Lemma end_flags_only_trans t1 t2 t3 :
  end_flags_only t1 t2 -> end_flags_only t2 t3 -> end_flags_only t1 t3.
Proof.
  intros (? & Ht & ? & ? & Hb & H3 & H4 & Hs) (? & Ht' & ? & ? & Hb' & H3' & H4' & Hs').
  unfold end_flags_only. repeat split; try congruence; auto.
  - intros b ? ? ?. rewrite Hb', Hb by assumption. reflexivity.
  - intros Hf. destruct (Hs' Hf) as [Hf'|Hin]; [auto|].
    right. now rewrite <- Ht.
Qed.

Lemma end_flags_only_weak t : end_flags_only t (or_flag TF_SENT_END_WEAK t).
Proof.
  unfold end_flags_only, or_flag, TF_SENT_END_WEAK.
  cbn [idx text start end_ flags]. repeat split; try reflexivity.
  - intros b Hb H3 H4. rewrite testbit_or_bit by lia.
    destruct (Z.eqb_spec b 4); [lia|]. apply orb_false_r.
  - intros Hf. rewrite testbit_or_bit by lia. now rewrite Hf.
  - intros Hf. rewrite testbit_or_bit by lia. now rewrite Hf.
  - rewrite testbit_or_bit by lia. change (3 =? 4)%Z with false.
    rewrite orb_false_r. auto.
Qed.

Lemma end_flags_only_strong t :
  text t ∈ _TERMINATORS_STRONG ->
  end_flags_only t (or_flag TF_SENT_END_STRONG t).
Proof.
  intros Hin. unfold end_flags_only, or_flag, TF_SENT_END_STRONG.
  cbn [idx text start end_ flags]. repeat split; try reflexivity; auto.
  - intros b Hb H3 H4. rewrite testbit_or_bit by lia.
    destruct (Z.eqb_spec b 3); [lia|]. apply orb_false_r.
  - intros Hf. rewrite testbit_or_bit by lia. now rewrite Hf.
  - intros Hf. rewrite testbit_or_bit by lia. now rewrite Hf.
Qed.

Lemma Forall2_end_flags_only_refl l : Forall2 end_flags_only l l.
Proof. induction l; constructor; auto using end_flags_only_refl. Qed.

Lemma Forall2_end_flags_only_trans l1 l2 l3 :
  Forall2 end_flags_only l1 l2 -> Forall2 end_flags_only l2 l3 ->
  Forall2 end_flags_only l1 l3.
Proof. apply Forall2_trans. exact end_flags_only_trans. Qed.

Lemma alter_end_flags_only f k (l : list Token) :
  (forall t, l !! k = Some t -> end_flags_only t (f t)) ->
  Forall2 end_flags_only l (alter f k l).
Proof.
  intros Hf. apply Forall2_same_length_lookup_2; [now rewrite length_alter|].
  intros j x y Hx Hy. destruct (decide (k = j)) as [->|Hne].
  - rewrite list_lookup_alter_eq, Hx in Hy. injection Hy as <-. auto.
  - rewrite list_lookup_alter_ne, Hx in Hy by assumption. injection Hy as <-.
    apply end_flags_only_refl.
Qed.

Lemma bubble_end_flags_only d : forall l j,
  Forall2 end_flags_only l (bubble d l j).
Proof.
  induction d as [|d IH]; intros l j; simpl.
  - apply Forall2_end_flags_only_refl.
  - destruct (l !! j) as [t|] eqn:Ht; [|apply Forall2_end_flags_only_refl].
    case_bool_decide; [|apply Forall2_end_flags_only_refl].
    eapply Forall2_end_flags_only_trans; [|apply IH].
    apply alter_end_flags_only. intros ? _. apply end_flags_only_weak.
Qed.

Lemma step_end_flags_only kds n l k :
  Forall2 end_flags_only l (sentence_end_step kds n l k).
Proof.
  unfold sentence_end_step.
  destruct (l !! k) as [t|] eqn:Ht; [|apply Forall2_end_flags_only_refl].
  destruct (kds !! k) as [kd|]; [|apply Forall2_end_flags_only_refl].
  case_bool_decide; [|apply Forall2_end_flags_only_refl].
  case_bool_decide as Hs.
  - eapply Forall2_end_flags_only_trans; [|apply bubble_end_flags_only].
    apply alter_end_flags_only. intros t' Ht'.
    rewrite Ht in Ht'. injection Ht' as <-. now apply end_flags_only_strong.
  - case_bool_decide; [|apply Forall2_end_flags_only_refl].
    apply alter_end_flags_only. intros ? _. apply end_flags_only_weak.
Qed.

Lemma steps_end_flags_only kds n ks : forall l,
  Forall2 end_flags_only l (foldl (sentence_end_step kds n) l ks).
Proof.
  induction ks as [|k ks IH]; intros l; simpl.
  - apply Forall2_end_flags_only_refl.
  - eapply Forall2_end_flags_only_trans; [apply step_end_flags_only|apply IH].
Qed.

Lemma pass_end_flags_only kds l :
  Forall2 end_flags_only l (sentence_end_pass kds l).
Proof. apply steps_end_flags_only. Qed.

(** The post-pass, cut at the iteration [k]. *)
Lemma pass_split kds l k :
  k < length l ->
  sentence_end_pass kds l
  = foldl (sentence_end_step kds (length l))
      (sentence_end_step kds (length l)
         (foldl (sentence_end_step kds (length l)) l (seq 0 k)) k)
      (seq (S k) (length l - S k)).
Proof.
  intros Hk. unfold sentence_end_pass.
  replace (length l) with (k + S (length l - S k)) at 2 by lia.
  rewrite seq_app, foldl_app. reflexivity.
Qed.

(** ** What an iteration of the post-pass sets *)

Lemma bubble_sets d : forall l j0 j,
  j0 <= j < j0 + d ->
  (forall m, j0 <= m <= j ->
     exists t, l !! m = Some t /\ text t ∈ _CLOSERS) ->
  exists t', bubble d l j0 !! j = Some t' /\ Z.testbit (flags t') 4 = true.
Proof.
  induction d as [|d IH]; intros l j0 j Hj Hcl; [lia|].
  destruct (Hcl j0 ltac:(lia)) as (t0 & Ht0 & Hin0).
  cbn [bubble]. rewrite Ht0. rewrite bool_decide_eq_true_2 by assumption.
  set (l' := alter (or_flag TF_SENT_END_WEAK) j0 l).
  destruct (decide (j = j0)) as [->|Hne].
  - pose proof (bubble_end_flags_only d l' (S j0)) as HR.
    assert (Hl' : l' !! j0 = Some (or_flag TF_SENT_END_WEAK t0)).
    { unfold l'. now rewrite list_lookup_alter_eq, Ht0. }
    destruct (Forall2_lookup_l _ _ _ _ _ HR Hl') as (t' & Ht' & Hrel).
    exists t'. split; [exact Ht'|].
    destruct Hrel as (_ & _ & _ & _ & _ & _ & H4 & _). apply H4.
    unfold or_flag, TF_SENT_END_WEAK. cbn [flags].
    rewrite testbit_or_bit by lia. apply orb_true_r.
  - apply IH; [lia|]. intros m Hm.
    destruct (Hcl m ltac:(lia)) as (t & Ht & Hin).
    destruct (decide (j0 = m)) as [->|Hn].
    + exists (or_flag TF_SENT_END_WEAK t). unfold l'.
      rewrite list_lookup_alter_eq, Ht. auto.
    + exists t. unfold l'. rewrite list_lookup_alter_ne by assumption. auto.
Qed.

(** ** A token whose text is an ellipsis comes from the ellipsis
       alternative *)

Lemma master_ellipsis l kd len :
  _MASTER l = Some (kd, len) -> take len l ∈ _TERMINATORS_WEAK ->
  kd = ELLIPSIS.
Proof.
  intros HM Hin. unfold _TERMINATORS_WEAK in Hin.
  apply elem_of_cons in Hin as [Ht|Hin].
  - destruct l as [|c l]; [now rewrite take_nil in Ht|].
    destruct len as [|len]; [discriminate|]. simpl in Ht.
    injection Ht as -> _. cbv in HM. congruence.
  - apply list_elem_of_singleton in Hin.
    destruct len as [|[|[|len]]]; try (destruct l as [|? [|? [|? ?]]]; discriminate).
    destruct l as [|c1 [|c2 [|c3 l]]]; try discriminate.
    simpl in Hin. injection Hin as -> -> -> Hnil.
    unfold _MASTER in HM.
    replace (match_URL (46 :: 46 :: 46 :: l)%Z) with (@None nat) in HM
      by reflexivity.
    destruct (match_EMAIL (46 :: 46 :: 46 :: l)%Z) as [n|] eqn:HE.
    + exfalso. simpl in HM. injection HM as _ Hn.
      apply match_EMAIL_bound in HE.
      assert (3 <= run is_local (46 :: 46 :: 46 :: l)%Z).
      { change (run is_local (46 :: 46 :: 46 :: l)%Z)
          with (S (S (S (run is_local l)))). lia. }
      assert (Hlen : length (take len l) = 0) by now rewrite Hnil.
      rewrite length_take in Hlen. simpl in HE. lia.
    + simpl in HM. congruence.
Qed.

Lemma origin_ellipsis txt t kd :
  origin txt t kd -> text t ∈ _TERMINATORS_WEAK -> kd = ELLIPSIS.
Proof.
  intros ([(len & HM & Ht)|[_ HM]] & _) Hin.
  - rewrite Ht in Hin. eauto using master_ellipsis.
  - exfalso. unfold _TERMINATORS_WEAK in Hin.
    apply elem_of_cons in Hin as [Ht|Hin];
      [|apply list_elem_of_singleton in Hin]; rewrite ?Ht, ?Hin in HM;
      discriminate.
Qed.

Lemma weak_not_strong (s : str) :
  s ∈ _TERMINATORS_WEAK -> s ∉ _TERMINATORS_STRONG.
Proof.
  unfold _TERMINATORS_WEAK, _TERMINATORS_STRONG. intros Hw Hs.
  apply list_elem_of_In in Hw, Hs. simpl in Hw, Hs.
  destruct Hw as [<-|[<-|[]]]; destruct Hs as [?|[?|[?|[]]]]; discriminate.
Qed.

Lemma end_flags_only_lookup_r l1 l2 m t2 :
  Forall2 end_flags_only l1 l2 -> l2 !! m = Some t2 ->
  exists t1, l1 !! m = Some t1 /\ text t2 = text t1 /\ end_flags_only t1 t2.
Proof.
  intros HR H2. destruct (Forall2_lookup_r _ _ _ _ _ HR H2) as (t1 & H1 & Hrel).
  exists t1. split; [exact H1|]. split; [apply Hrel|exact Hrel].
Qed.

Lemma pass_at kds l k :
  k < length l ->
  exists cur,
    Forall2 end_flags_only l cur
    /\ Forall2 end_flags_only (sentence_end_step kds (length l) cur k)
         (sentence_end_pass kds l).
Proof.
  intros Hk. exists (foldl (sentence_end_step kds (length l)) l (seq 0 k)).
  split; [apply steps_end_flags_only|].
  rewrite (pass_split kds l k Hk). apply steps_end_flags_only.
Qed.

(** The iteration at a strong terminator. *)
Lemma step_at_strong kds n cur k tc kd :
  cur !! k = Some tc -> kds !! k = Some kd -> kd ∈ [PUNCT; ELLIPSIS] ->
  text tc ∈ _TERMINATORS_STRONG ->
  sentence_end_step kds n cur k
  = bubble (n - (k + 1)) (alter (or_flag TF_SENT_END_STRONG) k cur) (k + 1).
Proof.
  intros Hc Hk Hkd Hs. unfold sentence_end_step. rewrite Hc, Hk.
  now rewrite !bool_decide_eq_true_2 by assumption.
Qed.

(** The iteration at an ellipsis. *)
Lemma step_at_weak kds n cur k tc kd :
  cur !! k = Some tc -> kds !! k = Some kd -> kd ∈ [PUNCT; ELLIPSIS] ->
  text tc ∈ _TERMINATORS_WEAK ->
  sentence_end_step kds n cur k = alter (or_flag TF_SENT_END_WEAK) k cur.
Proof.
  intros Hc Hk Hkd Hw. unfold sentence_end_step. rewrite Hc, Hk.
  rewrite bool_decide_eq_true_2 by assumption.
  rewrite bool_decide_eq_false_2 by now apply weak_not_strong.
  now rewrite bool_decide_eq_true_2 by assumption.
Qed.

(** The tokens of a text before and after the post-pass. *)
Lemma tokenize_passes txt :
  tokenize_kinds txt
  = (sentence_end_pass (kinds (scan txt)) (tokens (scan txt)),
     kinds (scan txt)).
Proof. reflexivity. Qed.

(** An ellipsis token of a tokenized text is a weak end and not a strong
    one. *)
Lemma ellipsis_token_flags txt k t :
  tokenize txt !! k = Some t -> text t ∈ _TERMINATORS_WEAK ->
  Z.testbit (flags t) 4 = true /\ Z.testbit (flags t) 3 = false.
Proof.
  unfold tokenize. rewrite tokenize_passes. simpl.
  set (l := tokens (scan txt)). set (kds := kinds (scan txt)).
  intros Ht Hw.
  destruct (end_flags_only_lookup_r _ _ _ _ (pass_end_flags_only kds l) Ht)
    as (t0 & Ht0 & Htxt & Hrel).
  destruct (Forall2_lookup_l _ _ _ _ _ (scan_origin txt) Ht0)
    as (kd & Hkd & Hor).
  assert (kd = ELLIPSIS) as ->.
  { apply (origin_ellipsis txt t0); [exact Hor|now rewrite <- Htxt]. }
  split.
  - pose proof (lookup_lt_Some _ _ _ Ht0) as Hlt.
    destruct (pass_at kds l k Hlt) as (cur & Hcur & Hfin).
    destruct (Forall2_lookup_l _ _ _ _ _ Hcur Ht0) as (tc & Htc & Hrc).
    rewrite (step_at_weak kds _ cur k tc ELLIPSIS) in Hfin;
      [|exact Htc|exact Hkd|apply list_elem_of_In; simpl; tauto|].
    2:{ destruct Hrc as (_ & -> & _). now rewrite <- Htxt. }
    destruct (end_flags_only_lookup_r _ _ _ _ Hfin Ht) as (ta & Hta & _ & Hra).
    rewrite list_lookup_alter_eq, Htc in Hta. injection Hta as <-.
    destruct Hra as (_ & _ & _ & _ & _ & _ & H4 & _). apply H4.
    unfold or_flag, TF_SENT_END_WEAK. cbn [flags].
    rewrite testbit_or_bit by lia. apply orb_true_r.
  - apply not_true_is_false. intros H3.
    destruct Hrel as (_ & _ & _ & _ & _ & _ & _ & Hs).
    destruct (Hs H3) as [H3'|Hin].
    + destruct Hor as (_ & _ & H30 & _). congruence.
    + apply (weak_not_strong (text t)); [exact Hw|now rewrite Htxt].
Qed.

(** ** What the post-pass never sets *)

(** A token of [bubble] is as it was, or it got the weak bit and every
    token from the start of the run up to it is a closer. *)
Lemma bubble_only d : forall l j0 j t',
  bubble d l j0 !! j = Some t' ->
  exists t, l !! j = Some t
    /\ (t' = t
        \/ (t' = or_flag TF_SENT_END_WEAK t /\ j0 <= j
            /\ forall m, j0 <= m <= j ->
                 exists tm, l !! m = Some tm /\ text tm ∈ _CLOSERS)).
Proof.
  induction d as [|d IH]; intros l j0 j t' Hb; cbn [bubble] in Hb; [eauto|].
  destruct (l !! j0) as [t0|] eqn:Ht0; [|eauto].
  case_bool_decide as Hc; [|eauto].
  apply IH in Hb as (t1 & Ht1 & Hcase).
  destruct (decide (j0 = j)) as [<-|Hne].
  - rewrite list_lookup_alter_eq, Ht0 in Ht1. injection Ht1 as <-.
    exists t0. split; [exact Ht0|]. right.
    destruct Hcase as [->|(_ & Hle & _)]; [|lia].
    split; [reflexivity|]. split; [lia|].
    intros m Hm. assert (m = j0) as -> by lia. eauto.
  - rewrite list_lookup_alter_ne in Ht1 by assumption.
    exists t1. split; [exact Ht1|].
    destruct Hcase as [->|(-> & Hle & Hrun)]; [now left|]. right.
    split; [reflexivity|]. split; [lia|].
    intros m Hm. destruct (decide (j0 = m)) as [<-|Hm0]; [eauto|].
    destruct (Hrun m ltac:(lia)) as (tm & Htm & Hcm).
    rewrite list_lookup_alter_ne in Htm by assumption. eauto.
Qed.

Lemma or_flag_weak_bit3 t :
  Z.testbit (flags (or_flag TF_SENT_END_WEAK t)) 3 = Z.testbit (flags t) 3.
Proof.
  unfold or_flag, TF_SENT_END_WEAK. cbn [flags].
  rewrite testbit_or_bit by lia. apply orb_false_r.
Qed.

Lemma or_flag_strong_bit4 t :
  Z.testbit (flags (or_flag TF_SENT_END_STRONG t)) 4 = Z.testbit (flags t) 4.
Proof.
  unfold or_flag, TF_SENT_END_STRONG. cbn [flags].
  rewrite testbit_or_bit by lia. apply orb_false_r.
Qed.

(** The bits one iteration of the post-pass adds, with their reasons. *)
Lemma step_causes kds n cur k j t' :
  sentence_end_step kds n cur k !! j = Some t' ->
  exists t, cur !! j = Some t
    /\ (Z.testbit (flags t') 3 = true ->
        Z.testbit (flags t) 3 = true \/ strong_terminator cur kds j)
    /\ (Z.testbit (flags t') 4 = true ->
        Z.testbit (flags t) 4 = true
        \/ ellipsis_token cur kds j
        \/ exists k0, k0 < j /\ strong_terminator cur kds k0
                      /\ closer_run cur k0 j).
Proof.
  assert (Hsame : cur !! j = Some t' ->
    exists t, cur !! j = Some t
      /\ (Z.testbit (flags t') 3 = true ->
          Z.testbit (flags t) 3 = true \/ strong_terminator cur kds j)
      /\ (Z.testbit (flags t') 4 = true ->
          Z.testbit (flags t) 4 = true
          \/ ellipsis_token cur kds j
          \/ exists k0, k0 < j /\ strong_terminator cur kds k0
                        /\ closer_run cur k0 j)).
  { intros Hj. exists t'. split; [exact Hj|]. split; auto. }
  unfold sentence_end_step.
  destruct (cur !! k) as [tc|] eqn:Htc; [|exact Hsame].
  destruct (kds !! k) as [kd|] eqn:Hkd; [|exact Hsame].
  case_bool_decide as Hin; [|exact Hsame].
  case_bool_decide as Hs; [|case_bool_decide as Hw; [|exact Hsame]].
  - (* a strong terminator, and the closers after it *)
    assert (Hst : strong_terminator cur kds k) by (exists tc, kd; auto).
    intros Hb. apply bubble_only in Hb as (t1 & Ht1 & Hcase).
    destruct (decide (k = j)) as [<-|Hne].
    + rewrite list_lookup_alter_eq, Htc in Ht1. injection Ht1 as <-.
      exists tc. split; [exact Htc|].
      destruct Hcase as [->|(_ & Hle & _)]; [|lia].
      split; [auto|]. rewrite or_flag_strong_bit4. auto.
    + rewrite list_lookup_alter_ne in Ht1 by assumption.
      exists t1. split; [exact Ht1|].
      destruct Hcase as [->|(-> & Hle & Hrun)]; [split; auto|].
      rewrite or_flag_weak_bit3. split; [auto|].
      intros _. right. right. exists k. split; [lia|]. split; [exact Hst|].
      intros m Hm. destruct (Hrun m ltac:(lia)) as (tm & Htm & Hcm).
      rewrite list_lookup_alter_ne in Htm by lia. eauto.
  - (* an ellipsis *)
    intros Ht'. destruct (decide (k = j)) as [<-|Hne].
    + rewrite list_lookup_alter_eq, Htc in Ht'. injection Ht' as <-.
      exists tc. split; [exact Htc|]. rewrite or_flag_weak_bit3.
      split; [auto|]. intros _. right. left. exists tc, kd. auto.
    + rewrite list_lookup_alter_ne in Ht' by assumption. exact (Hsame Ht').
Qed.

(** The reasons only depend on the texts, which the post-pass keeps. *)
Lemma end_flags_only_at l1 l2 m t1 :
  Forall2 end_flags_only l1 l2 -> l1 !! m = Some t1 ->
  exists t2, l2 !! m = Some t2 /\ text t2 = text t1.
Proof.
  intros HR H1. destruct (Forall2_lookup_l _ _ _ _ _ HR H1) as (t2 & H2 & Hrel).
  exists t2. split; [exact H2|apply Hrel].
Qed.

Lemma strong_terminator_kept l1 l2 kds k :
  Forall2 end_flags_only l1 l2 ->
  strong_terminator l1 kds k -> strong_terminator l2 kds k.
Proof.
  intros HR (t & kd & Ht & Hkd & Hin & Hs).
  destruct (end_flags_only_at _ _ _ _ HR Ht) as (t2 & Ht2 & Htx).
  exists t2, kd. rewrite Htx. auto.
Qed.

Lemma ellipsis_token_kept l1 l2 kds k :
  Forall2 end_flags_only l1 l2 ->
  ellipsis_token l1 kds k -> ellipsis_token l2 kds k.
Proof.
  intros HR (t & kd & Ht & Hkd & Hin & Hs).
  destruct (end_flags_only_at _ _ _ _ HR Ht) as (t2 & Ht2 & Htx).
  exists t2, kd. rewrite Htx. auto.
Qed.

Lemma closer_run_kept l1 l2 k j :
  Forall2 end_flags_only l1 l2 -> closer_run l1 k j -> closer_run l2 k j.
Proof.
  intros HR Hrun m Hm. destruct (Hrun m Hm) as (tm & Htm & Hc).
  destruct (end_flags_only_at _ _ _ _ HR Htm) as (t2 & Ht2 & Htx).
  exists t2. rewrite Htx. auto.
Qed.

Lemma step_sound kds n cur k :
  end_flags_sound kds cur ->
  end_flags_sound kds (sentence_end_step kds n cur k).
Proof.
  intros Hcur j t' Ht'.
  pose proof (step_end_flags_only kds n cur k) as HR.
  destruct (step_causes kds n cur k j t' Ht') as (t & Ht & H3 & H4).
  destruct (Hcur j t Ht) as [Hc3 Hc4]. split.
  - intros Hb. eapply strong_terminator_kept; [exact HR|].
    destruct (H3 Hb); auto.
  - intros Hb.
    assert (Hcause : ellipsis_token cur kds j
                     \/ exists k0, k0 < j /\ strong_terminator cur kds k0
                                   /\ closer_run cur k0 j).
    { destruct (H4 Hb) as [Hold|[He|Hr]]; auto. }
    destruct Hcause as [He|(k0 & Hlt & Hst & Hrun)].
    + left. eapply ellipsis_token_kept; eassumption.
    + right. exists k0. split; [exact Hlt|].
      split; [eapply strong_terminator_kept|eapply closer_run_kept];
        eassumption.
Qed.

Lemma steps_sound kds n ks : forall l,
  end_flags_sound kds l ->
  end_flags_sound kds (foldl (sentence_end_step kds n) l ks).
Proof.
  induction ks as [|k ks IH]; intros l Hl; simpl; [exact Hl|].
  apply IH, step_sound, Hl.
Qed.

(** Every sentence-end bit of a tokenized text has its reason. *)
Lemma tokenize_end_flags_sound txt :
  end_flags_sound (tokenize_kinds txt).2 (tokenize txt).
Proof.
  unfold tokenize. rewrite tokenize_passes. cbn [fst snd].
  apply steps_sound. intros j t Ht.
  destruct (Forall2_lookup_l _ _ _ _ _ (scan_origin txt) Ht)
    as (kd & _ & (_ & _ & H3 & H4 & _)).
  split; intros Hb; congruence.
Qed.

(** ** The claims on the tokenizer *)

(** C6. In the token sequence [tokenize] returns, every punctuation token
    (one matched by the punctuation or the ellipsis alternative) whose text
    is [.], [?] or [!] has the strong-end flag; when the tokens that follow
    it, up to some token, all have their text in the closer set, that token
    has the weak-end flag; and every token whose text is an ellipsis (the
    glyph or three periods) has the weak-end flag and not the strong-end
    flag.  The flags are set on no other token: a token has the strong-end
    flag exactly when it is such a punctuation token, and the weak-end flag
    exactly when it is an ellipsis token or is reached from such a
    punctuation token through closers without a gap, so that the weak-end
    flag stops at the first token that is not a closer. *)
Theorem sentence_end_flags txt :
  (forall k t kd,
     tokenize txt !! k = Some t -> (tokenize_kinds txt).2 !! k = Some kd ->
     kd ∈ [PUNCT; ELLIPSIS] -> text t ∈ _TERMINATORS_STRONG ->
     has_flag TF_SENT_END_STRONG t = true
     /\ forall j, k < j ->
          (forall m, k < m <= j ->
             exists tm, tokenize txt !! m = Some tm /\ text tm ∈ _CLOSERS) ->
          exists tj, tokenize txt !! j = Some tj
                     /\ has_flag TF_SENT_END_WEAK tj = true)
  /\ (forall k t,
        tokenize txt !! k = Some t -> text t ∈ _TERMINATORS_WEAK ->
        has_flag TF_SENT_END_WEAK t = true
        /\ has_flag TF_SENT_END_STRONG t = false)
  /\ (forall j tj,
        tokenize txt !! j = Some tj ->
        (has_flag TF_SENT_END_STRONG tj = true
         <-> strong_terminator (tokenize txt) (tokenize_kinds txt).2 j)
        /\ (has_flag TF_SENT_END_WEAK tj = true
            <-> ellipsis_token (tokenize txt) (tokenize_kinds txt).2 j
                \/ exists k, k < j
                     /\ strong_terminator (tokenize txt)
                          (tokenize_kinds txt).2 k
                     /\ closer_run (tokenize txt) k j)).
Proof.
  assert (Hfwd :
    (forall k t kd,
       tokenize txt !! k = Some t -> (tokenize_kinds txt).2 !! k = Some kd ->
       kd ∈ [PUNCT; ELLIPSIS] -> text t ∈ _TERMINATORS_STRONG ->
       has_flag TF_SENT_END_STRONG t = true
       /\ forall j, k < j ->
            (forall m, k < m <= j ->
               exists tm, tokenize txt !! m = Some tm /\ text tm ∈ _CLOSERS) ->
            exists tj, tokenize txt !! j = Some tj
                       /\ has_flag TF_SENT_END_WEAK tj = true)
    /\ (forall k t,
          tokenize txt !! k = Some t -> text t ∈ _TERMINATORS_WEAK ->
          has_flag TF_SENT_END_WEAK t = true
          /\ has_flag TF_SENT_END_STRONG t = false)).
  2:{ destruct Hfwd as [Hstrong Hell].
      split; [exact Hstrong|]. split; [exact Hell|].
      intros j tj Htj.
      destruct (tokenize_end_flags_sound txt j tj Htj) as [H3 H4].
      rewrite has_STRONG, has_WEAK. split; split.
      - exact H3.
      - intros (t & kd & Ht & Hkd & Hin & Hs).
        rewrite Htj in Ht. injection Ht as <-. rewrite <- has_STRONG.
        now apply (Hstrong j tj kd).
      - exact H4.
      - rewrite <- has_WEAK.
        intros [(t & kd & Ht & _ & _ & Hw)|(k & Hlt & Hst & Hrun)].
        + rewrite Htj in Ht. injection Ht as <-. now apply (Hell j tj).
        + destruct Hst as (t & kd & Ht & Hkd & Hin & Hs).
          destruct (Hstrong k t kd Ht Hkd Hin Hs) as [_ Hweak].
          destruct (Hweak j Hlt Hrun) as (tj' & Htj' & Hf).
          rewrite Htj in Htj'. now injection Htj' as <-. }
  split.
  - unfold tokenize. rewrite tokenize_passes. simpl.
    set (l := tokens (scan txt)). set (kds := kinds (scan txt)).
    intros k t kd Ht Hkd Hin Hs.
    destruct (end_flags_only_lookup_r _ _ _ _ (pass_end_flags_only kds l) Ht)
      as (t0 & Ht0 & Htxt & _).
    pose proof (lookup_lt_Some _ _ _ Ht0) as Hlt.
    destruct (pass_at kds l k Hlt) as (cur & Hcur & Hfin).
    destruct (Forall2_lookup_l _ _ _ _ _ Hcur Ht0) as (tc & Htc & Hrc).
    assert (Htxtc : text tc = text t).
    { destruct Hrc as (_ & -> & _). now rewrite Htxt. }
    rewrite (step_at_strong kds _ cur k tc kd) in Hfin;
      [|exact Htc|exact Hkd|exact Hin|now rewrite Htxtc].
    set (l1 := alter (or_flag TF_SENT_END_STRONG) k cur) in *.
    assert (Hl1 : Forall2 end_flags_only cur l1).
    { apply alter_end_flags_only. intros t' Ht'. rewrite Htc in Ht'.
      injection Ht' as <-. apply end_flags_only_strong. now rewrite Htxtc. }
    split.
    + rewrite has_STRONG.
      destruct (end_flags_only_lookup_r _ _ _ _ Hfin Ht) as (ta & Hta & _ & Hra).
      destruct (end_flags_only_lookup_r _ _ _ _
                  (bubble_end_flags_only _ l1 (k + 1)) Hta)
        as (t1 & Ht1 & _ & Hr1).
      unfold l1 in Ht1. rewrite list_lookup_alter_eq, Htc in Ht1.
      injection Ht1 as <-.
      destruct Hra as (_ & _ & _ & _ & _ & H3 & _). apply H3.
      destruct Hr1 as (_ & _ & _ & _ & _ & H3' & _). apply H3'.
      unfold or_flag, TF_SENT_END_STRONG. cbn [flags].
      rewrite testbit_or_bit by lia. apply orb_true_r.
    + intros j Hj Hcl.
      destruct (Hcl j ltac:(lia)) as (tj & Htj & _).
      exists tj. split; [exact Htj|]. rewrite has_WEAK.
      destruct (end_flags_only_lookup_r _ _ _ _ Hfin Htj) as (ta & Hta & _ & Hra).
      destruct Hra as (_ & _ & _ & _ & _ & _ & H4 & _). apply H4.
      assert (Hlen : j < length l).
      { apply lookup_lt_Some in Htj.
        now rewrite <- (Forall2_length _ _ _ (pass_end_flags_only kds l)) in Htj. }
      destruct (bubble_sets (length l - (k + 1)) l1 (k + 1) j) as (t' & Ht' & Hb);
        [lia| |].
      * intros m Hm. destruct (Hcl m ltac:(lia)) as (tm & Htm & Hcm).
        destruct (end_flags_only_lookup_r _ _ _ _ Hfin Htm)
          as (tm1 & Htm1 & Htx1 & _).
        destruct (end_flags_only_lookup_r _ _ _ _
                    (bubble_end_flags_only _ l1 (k + 1)) Htm1)
          as (tm2 & Htm2 & Htx2 & _).
        exists tm2. split; [exact Htm2|]. now rewrite <- Htx2, <- Htx1.
      * rewrite Hta in Ht'. injection Ht' as <-. exact Hb.
  - intros k t Ht Hw. rewrite has_WEAK, has_STRONG.
    now apply (ellipsis_token_flags txt k).
Qed.

(** C8 (as amended). A token of [tokenize] carries the capitalized flag
    exactly when it was produced by the word alternative or by the fallback
    (which the tokenizer also records as a word), its first character is an
    uppercase letter and its text contains at least one letter. A token
    produced by the URL, email or handle alternative never carries it,
    whatever its first character. *)
Theorem capitalized_flag txt k t kd :
  tokenize txt !! k = Some t -> (tokenize_kinds txt).2 !! k = Some kd ->
  (has_flag TF_CAP t = true
   <-> kd = WORD /\ first_isupper (text t) = true
       /\ existsb isalpha (text t) = true).
Proof.
  unfold tokenize. rewrite tokenize_passes. simpl.
  set (l := tokens (scan txt)). set (kds := kinds (scan txt)).
  intros Ht Hkd. rewrite has_CAP.
  destruct (end_flags_only_lookup_r _ _ _ _ (pass_end_flags_only kds l) Ht)
    as (t0 & Ht0 & Htxt & Hrel).
  destruct (Forall2_lookup_l _ _ _ _ _ (scan_origin txt) Ht0)
    as (kd' & Hkd' & Hor).
  fold kds in Hkd'. rewrite Hkd in Hkd'. injection Hkd' as <-.
  destruct Hrel as (_ & _ & _ & _ & Hb & _).
  rewrite (Hb 0%Z) by lia.
  destruct Hor as (_ & _ & _ & _ & ->). rewrite <- Htxt.
  rewrite !andb_true_iff, bool_decide_eq_true. tauto.
Qed.

End Passes.

Section TokenizerExamples.
Import Tokenizer Sentences TokenSpec.

(** On ["(Hi.)] ok... bye"]: the period is a strong end, the two closers
    after it are weak ends, the word after them is not, and the ellipsis is
    a weak end and not a strong one. *)
Lemma sentence_end_flags_witness :
  has_flag TF_SENT_END_STRONG (mkToken 2 (lit ".") 3 4 10) = true
  /\ (exists tj, @tokenize basic_latin closers_demo !! 4%nat = Some tj
                 /\ has_flag TF_SENT_END_WEAK tj = true)
  /\ has_flag TF_SENT_END_WEAK (mkToken 5 (lit "ok") 7 9 0) = false
  /\ (has_flag TF_SENT_END_WEAK (mkToken 6 (lit "...") 9 12 18) = true
      /\ has_flag TF_SENT_END_STRONG (mkToken 6 (lit "...") 9 12 18) = false).
Proof.
  destruct (@sentence_end_flags basic_latin closers_demo)
    as (Hstrong & Hell & Honly).
  assert (E2 : @tokenize basic_latin closers_demo !! 2%nat
               = Some (mkToken 2 (lit ".") 3 4 10))
    by (vm_compute; reflexivity).
  assert (K2 : (@tokenize_kinds basic_latin closers_demo).2 !! 2%nat
               = Some PUNCT) by (vm_compute; reflexivity).
  assert (E3 : @tokenize basic_latin closers_demo !! 3%nat
               = Some (mkToken 3 (lit ")") 4 5 18))
    by (vm_compute; reflexivity).
  assert (E4 : @tokenize basic_latin closers_demo !! 4%nat
               = Some (mkToken 4 (lit "]") 5 6 18))
    by (vm_compute; reflexivity).
  assert (E5 : @tokenize basic_latin closers_demo !! 5%nat
               = Some (mkToken 5 (lit "ok") 7 9 0))
    by (vm_compute; reflexivity).
  assert (E6 : @tokenize basic_latin closers_demo !! 6%nat
               = Some (mkToken 6 (lit "...") 9 12 18))
    by (vm_compute; reflexivity).
  assert (Hperiod : (lit "." : list Z) ∈ _TERMINATORS_STRONG)
    by (apply list_elem_of_In; simpl; tauto).
  assert (Hpunct : PUNCT ∈ [PUNCT; ELLIPSIS])
    by (apply list_elem_of_In; simpl; tauto).
  destruct (Hstrong 2%nat (mkToken 2 (lit ".") 3 4 10) PUNCT
              E2 K2 Hpunct Hperiod) as [H3 Hrun].
  split; [exact H3|]. split; [|split].
  - apply (Hrun 4%nat); [lia|]. intros m Hm.
    assert (m = 3 \/ m = 4)%nat as [-> | ->] by lia;
      eexists; (split; [eassumption|]); apply list_elem_of_In; simpl; tauto.
  - apply not_true_is_false. intros Hw.
    apply (proj2 (Honly 5%nat (mkToken 5 (lit "ok") 7 9 0) E5)) in Hw.
    destruct Hw as [(t & kd & Ht & _ & _ & Hin)|(k & Hlt & _ & Hrun')].
    + rewrite E5 in Ht. injection Ht as <-.
      apply list_elem_of_In in Hin. simpl in Hin.
      destruct Hin as [Hin|[Hin|[]]]; discriminate Hin.
    + destruct (Hrun' 5%nat ltac:(lia)) as (tm & Htm & Hin).
      rewrite E5 in Htm. injection Htm as <-.
      apply list_elem_of_In in Hin. simpl in Hin.
      repeat (destruct Hin as [Hin|Hin]; [discriminate Hin|]). exact Hin.
  - apply (Hell 6%nat); [exact E6|].
    apply list_elem_of_In; simpl; tauto.
Defined.

Lemma capitalized_flag_witness :
  has_flag TF_CAP (mkToken 0 (lit "Okay") 0 4 1) = true
  <-> WORD = WORD
      /\ @first_isupper basic_latin (lit "Okay") = true
      /\ existsb (@isalpha basic_latin) (lit "Okay") = true.
Proof.
  apply (@capitalized_flag basic_latin Spans.okay_i_guess 0
           (mkToken 0 (lit "Okay") 0 4 1) WORD); reflexivity.
Defined.

(** C8, as stated, fails on an email address that starts with a capital:
    ["Bob@x.com"] is one token of the email alternative, its first character
    is an uppercase letter, it contains letters, and it does not carry the
    capitalized flag. *)
Lemma email_not_capitalized :
  exists t,
    @tokenize_kinds basic_latin bob_email = ([t], [EMAIL])
    /\ text t = bob_email
    /\ @first_isupper basic_latin (text t) = true
    /\ existsb (@isalpha basic_latin) (text t) = true
    /\ has_flag TF_CAP t = false.
Proof. eexists. repeat split; reflexivity. Qed.

(** C7 fails on ["$a"]: the character [$] at offset 0 is not white space,
    no alternative of the pattern matches it, the scan passes over it, and
    the only token returned is ["a"] at [1, 2): the fallback only picks up
    what follows the last match. *)
Lemma tokenize_loses_unmatched_character `{Unicode} :
  dollar_a !! 0%nat = Some 36
  /\ isspace 36 = false
  /\ map (fun t => (text t, start t, end_ t)) (tokenize dollar_a)
     = [(lit "a", 1%nat, 2%nat)]
  /\ forall t, t ∈ tokenize dollar_a -> ~ covers t 0.
Proof.
  assert (E : map (fun t => (text t, start t, end_ t)) (tokenize dollar_a)
              = [(lit "a", 1%nat, 2%nat)]) by reflexivity.
  split; [reflexivity|]. split; [reflexivity|]. split; [exact E|].
  intros t Ht [Hlo Hhi].
  assert (Hin : (text t, start t, end_ t)
                ∈ map (fun t => (text t, start t, end_ t)) (tokenize dollar_a)).
  { apply list_elem_of_fmap. exists t. auto. }
  rewrite E in Hin. apply list_elem_of_singleton in Hin.
  injection Hin as _ Hs _. lia.
Qed.

End TokenizerExamples.


(* ===================================================================== *)
(** * The ellipsis rule of the segmenter *)
(* ===================================================================== *)

Section Ellipsis.
Import Tokenizer Sentences Spans TokenSpec.

Local Open Scope nat_scope.

(** C5. At a weak-end ellipsis token (one the strong rule does not take),
    the loop looks ahead over weak-end and punctuation tokens to the next
    substantive token; if there is none or it is capitalized, the sentence
    is closed exactly at the ellipsis (the span ends at [k + 1] and the scan
    goes on from there), otherwise nothing is closed and the scan moves to
    the next token. An ellipsis token of a tokenized text always is such a
    token. For ["Okay... I guess"] this gives the two spans [(0, 2)] and
    [(2, 4)], the first ending at the ellipsis token. *)
Theorem ellipsis_rule :
  (forall tokens spans s k t,
     tokens !! k = Some t ->
     has_flag TF_SENT_END_STRONG t = false ->
     has_flag TF_SENT_END_WEAK t = true ->
     is_ellipsis (text t) = true ->
     (ellipsis_closes tokens k ->
      seg_step tokens (length tokens) (spans, s, k)
      = Return (spans ++ [(s, k + 1)], k + 1, k + 1))
     /\ (~ ellipsis_closes tokens k ->
         seg_step tokens (length tokens) (spans, s, k)
         = Return (spans, s, k + 1)))
  /\ (forall (U : Unicode) txt spans s k t,
        tokenize txt !! k = Some t ->
        is_ellipsis (text t) = true ->
        (ellipsis_closes (tokenize txt) k ->
         seg_step (tokenize txt) (length (tokenize txt)) (spans, s, k)
         = Return (spans ++ [(s, k + 1)], k + 1, k + 1))
        /\ (~ ellipsis_closes (tokenize txt) k ->
            seg_step (tokenize txt) (length (tokenize txt)) (spans, s, k)
            = Return (spans, s, k + 1)))
  /\ (map text (@tokenize basic_latin okay_i_guess)
      = [lit "Okay"; lit "..."; lit "I"; lit "guess"]
      /\ segment_tokens (@tokenize basic_latin okay_i_guess)
         = Return [(0, 2); (2, 4)]).
Proof.
  split; [exact ellipsis_step|]. split; [|split; reflexivity].
  intros U txt spans s k t Ht Hell.
  assert (Hw : text t ∈ _TERMINATORS_WEAK).
  { unfold is_ellipsis in Hell. now apply bool_decide_eq_true in Hell. }
  destruct (ellipsis_token_flags txt k t Ht Hw) as [H4 H3].
  apply (ellipsis_step _ spans s k t); [exact Ht| | |exact Hell].
  - now rewrite has_STRONG.
  - now rewrite has_WEAK.
Qed.

Lemma ellipsis_rule_witness :
  seg_step (@tokenize basic_latin okay_i_guess) 4 ([], 0, 1)
  = Return ([(0, 2)], 2, 2).
Proof.
  apply (proj1 ellipsis_rule (@tokenize basic_latin okay_i_guess) [] 0 1
           (mkToken 1 (lit "...") 4 7 18));
    reflexivity.
Defined.

End Ellipsis.


(* ===================================================================== *)
(** * Properties of the vocabulary and of the annotation *)
(* ===================================================================== *)

Section Vocabulary.
Import Tokenizer Morph MorphSpec.

Lemma vocab_ok_init : vocab_ok Vocab_init.
Proof.
  intros s id. unfold Vocab_init. simpl. rewrite lookup_empty. split.
  - discriminate.
  - intros [_ H]. discriminate.
Qed.

Lemma get_id_ok s v : vocab_ok v -> vocab_ok (get_id s v).2.
Proof.
  intros Hv. unfold get_id. destruct (_tok2id v !! s) as [id0|] eqn:Hs;
    [exact Hv|].
  simpl. intros s' id. simpl. split.
  - intros Hl. destruct (decide (s = s')) as [<-|Hne].
    + rewrite lookup_insert_eq in Hl. injection Hl as <-.
      split; [lia|].
      replace (Z.to_nat (Z.of_nat (length (_id2tok v)) + 1 - 1))
        with (length (_id2tok v)) by lia.
      now rewrite lookup_app_r, Nat.sub_diag by lia.
    + rewrite lookup_insert_ne in Hl by assumption.
      apply Hv in Hl as [Hid Hl]. split; [exact Hid|].
      rewrite lookup_app_l; [exact Hl|]. now apply lookup_lt_Some in Hl.
  - intros [Hid Hl].
    destruct (Nat.lt_ge_cases (Z.to_nat (id - 1)) (length (_id2tok v)))
      as [Hlt|Hge].
    + rewrite lookup_app_l in Hl by assumption.
      assert (Hold : _tok2id v !! s' = Some id) by (apply Hv; auto).
      rewrite lookup_insert_ne; [exact Hold|]. intros ->. congruence.
    + rewrite lookup_app_r in Hl by assumption.
      destruct (Z.to_nat (id - 1) - length (_id2tok v))%nat as [|k] eqn:Hk;
        [|destruct k; discriminate].
      simpl in Hl. injection Hl as <-.
      rewrite lookup_insert_eq. f_equal. lia.
Qed.

Lemma intern_all_ok ss : forall v, vocab_ok v -> vocab_ok (intern_all ss v).
Proof.
  induction ss as [|s ss IH]; intros v Hv; simpl; [exact Hv|].
  apply IH. now apply get_id_ok.
Qed.

(** After [get_id s] the string is in the table with the id returned. *)
Lemma get_id_recorded s v :
  _tok2id (get_id s v).2 !! s = Some (get_id s v).1.
Proof.
  unfold get_id. destruct (_tok2id v !! s) as [id0|] eqn:Hs; simpl.
  - exact Hs.
  - apply lookup_insert_eq.
Qed.

(** An entry of the table is never changed. *)
Lemma get_id_keeps s' s id v :
  _tok2id v !! s = Some id -> _tok2id (get_id s' v).2 !! s = Some id.
Proof.
  intros Hs. unfold get_id. destruct (_tok2id v !! s') as [id0|] eqn:Hs'; simpl.
  - exact Hs.
  - rewrite lookup_insert_ne; [exact Hs|]. intros ->. congruence.
Qed.

Lemma intern_all_keeps ss : forall s id v,
  _tok2id v !! s = Some id -> _tok2id (intern_all ss v) !! s = Some id.
Proof.
  induction ss as [|s' ss IH]; intros s id v Hs; simpl; [exact Hs|].
  apply IH. now apply get_id_keeps.
Qed.

Lemma get_id_known s id v : _tok2id v !! s = Some id -> (get_id s v).1 = id.
Proof. intros Hs. unfold get_id. now rewrite Hs. Qed.

(** C9. In one vocabulary, whatever was interned before: [get_id] called
    again with the same string, at once or after any further calls, returns
    the same id; the id is never 0; two distinct strings never get the same
    id; and the first string interned gets the id 1. *)
Theorem vocab_ids :
  (forall history s,
     let v := intern_all history Vocab_init in
     (get_id s (get_id s v).2).1 = (get_id s v).1
     /\ (forall more,
           (get_id s (intern_all more (get_id s v).2)).1 = (get_id s v).1)
     /\ 0 < (get_id s v).1)
  /\ (forall history s1 more s2,
        let v := intern_all history Vocab_init in
        s1 <> s2 ->
        (get_id s1 v).1 <> (get_id s2 (intern_all more (get_id s1 v).2)).1)
  /\ (forall s, (get_id s Vocab_init).1 = 1).
Proof.
  split; [|split].
  - intros history s v.
    assert (Hstable : forall more,
              (get_id s (intern_all more (get_id s v).2)).1 = (get_id s v).1).
    { intros more. apply get_id_known, intern_all_keeps, get_id_recorded. }
    split; [exact (Hstable [])|]. split; [exact Hstable|].
    assert (Hok : vocab_ok (get_id s v).2).
    { apply get_id_ok, intern_all_ok, vocab_ok_init. }
    destruct (proj1 (Hok s _) (get_id_recorded s v)) as [Hpos _]. lia.
  - intros history s1 more s2 v Hne Heq.
    set (v1 := (get_id s1 v).2) in *.
    set (v2 := intern_all more v1) in *.
    assert (Hok : vocab_ok (get_id s2 v2).2).
    { apply get_id_ok, intern_all_ok, get_id_ok, intern_all_ok, vocab_ok_init. }
    assert (H1 : _tok2id (get_id s2 v2).2 !! s1 = Some (get_id s1 v).1).
    { apply get_id_keeps, intern_all_keeps, get_id_recorded. }
    assert (H2 : _tok2id (get_id s2 v2).2 !! s2 = Some (get_id s2 v2).1).
    { apply get_id_recorded. }
    rewrite <- Heq in H2.
    apply Hok in H1 as [_ H1]. apply Hok in H2 as [_ H2]. congruence.
  - intros s. reflexivity.
Qed.

Lemma vocab_ids_witness :
  (get_id (lit "said") (intern_all [lit "he"] Vocab_init)).1
  <> (get_id (lit "he")
        (intern_all [lit "move"]
           (get_id (lit "said") (intern_all [lit "he"] Vocab_init)).2)).1.
Proof.
  apply (proj1 (proj2 vocab_ids) [lit "he"] (lit "said") [lit "move"]
           (lit "he")).
  discriminate.
Defined.

End Vocabulary.

Section Annotation.
Import GraphCore Tokenizer Morph MorphSpec.

Local Open Scope nat_scope.

(** Dense ids leave no room for one node object at two places of the
    list. *)
Lemma dense_ids_distinct σ g : dense_ids σ g -> distinct_nodes σ g.
Proof.
  intros Hd. split.
  - apply NoDup_alt. intros i j r Hi Hj.
    destruct (Hd i r Hi) as (nd & Hnd & Hid).
    destruct (Hd j r Hj) as (nd' & Hnd' & Hid').
    rewrite Hnd in Hnd'. injection Hnd' as <-. lia.
  - intros r Hr. apply list_elem_of_lookup in Hr as [i Hi].
    destruct (Hd i r Hi) as (nd & -> & _). eauto.
Qed.

Lemma annotate_step_annotated σ g morphs j σj :
  distinct_nodes σ g -> j < length (o_nodes g) -> j < length morphs ->
  annotated σ g morphs j σj ->
  exists σ', annotate_step g morphs σj j = Return σ'
             /\ annotated σ g morphs (S j) σ'.
Proof.
  intros [Hnd Hd] Hjn Hjm [Hdone Hrest].
  destruct (lookup_lt_is_Some_2 _ _ Hjn) as [r Hr].
  destruct (lookup_lt_is_Some_2 _ _ Hjm) as [mi Hmi].
  destruct (Hd r (list_elem_of_lookup_2 _ _ _ Hr)) as [nd Hσ].
  assert (Hfresh : r ∉ take j (o_nodes g)).
  { intros Hin. apply list_elem_of_lookup in Hin as [i Hi].
    pose proof (lookup_lt_Some _ _ _ Hi) as Hlt. rewrite length_take in Hlt.
    rewrite lookup_take_lt in Hi by lia.
    pose proof (NoDup_lookup _ _ _ _ Hnd Hi Hr). lia. }
  unfold annotate_step. rewrite Hr, Hmi, (Hrest r Hfresh), Hσ.
  eexists. split; [reflexivity|]. split.
  - intros i r' nd' mi' Hi Hr' Hσ' Hmi'.
    destruct (decide (i = j)) as [->|Hne].
    + rewrite Hr in Hr'. injection Hr' as <-.
      rewrite Hσ in Hσ'. injection Hσ' as <-.
      rewrite Hmi in Hmi'. injection Hmi' as <-.
      apply lookup_insert_eq.
    + rewrite lookup_insert_ne.
      * apply (Hdone i); [lia|assumption..].
      * intros <-. pose proof (NoDup_lookup _ _ _ _ Hnd Hr Hr'). lia.
  - intros r' Hr'. rewrite (take_S_r _ _ _ Hr) in Hr'.
    rewrite elem_of_app, list_elem_of_singleton in Hr'.
    rewrite lookup_insert_ne by (intros <-; apply Hr'; auto).
    apply Hrest. intros Hin. apply Hr'. auto.
Qed.

Lemma annotate_loop σ g morphs m : forall j σj,
  distinct_nodes σ g -> j + m <= length (o_nodes g) -> j + m <= length morphs ->
  annotated σ g morphs j σj ->
  exists σ', for_each (annotate_step g morphs) (seq j m) σj = Return σ'
             /\ annotated σ g morphs (j + m) σ'.
Proof.
  induction m as [|m IH]; intros j σj Hd Hn Hm Hinv; simpl.
  - exists σj. rewrite Nat.add_0_r. auto.
  - destruct (annotate_step_annotated σ g morphs j σj Hd) as (σ1 & -> & H1);
      [lia|lia|exact Hinv|].
    cbn [mbind outcome_bind].
    replace (j + S m) with (S j + m) by lia. apply IH; [exact Hd|lia|lia|exact H1].
Qed.

(** What [annotate_node] changes on a node. *)
Lemma annotate_node_fields mi nd :
  node_id (annotate_node mi nd) = node_id nd
  /\ n_type (annotate_node mi nd) = n_type nd
  /\ features_ref (annotate_node mi nd) = features_ref nd
  /\ span (annotate_node mi nd) = span nd
  /\ n_confidence (annotate_node mi nd) = n_confidence nd
  /\ sub_type (annotate_node mi nd) = pos mi
  /\ label_id (annotate_node mi nd) = lemma_id mi
  /\ n_flags (annotate_node mi nd)
     = (if is_stop mi then Z.lor (n_flags nd) NF_IS_STOP else n_flags nd)
  /\ (forall b, (0 <= b)%Z -> b <> 1%Z ->
        Z.testbit (n_flags (annotate_node mi nd)) b = Z.testbit (n_flags nd) b).
Proof.
  unfold annotate_node. destruct (is_stop mi); simpl; repeat split; try reflexivity.
  intros b Hb Hne. unfold NF_IS_STOP. rewrite Z.lor_spec, Z.shiftl_1_l.
  rewrite Z.pow2_bits_false by lia. apply orb_false_r.
Qed.

(** C10. For a graph in memory whose node list refers to distinct node
    objects, [annotate_graph g tokens morphs] returns without an error
    whatever the three lengths are, and with [n] the least of them:
    each of the first [n] nodes is changed by [annotate_node] with the
    morphology of the same index, which sets [sub_type] to the POS code and
    [label_id] to the lemma id, sets the stop-word bit of [flags] for a stop
    word, and keeps every other field and every other bit; the nodes from
    [n] on and every object outside the node list are as they were; and the
    value of the graph after the call has the same header fields and the
    same edges. *)
Theorem annotate_graph_frame σ g tokens morphs :
  distinct_nodes σ g ->
  let n := common_prefix g tokens morphs in
  exists σ',
    annotate_graph g tokens morphs σ = Return σ'
    /\ (forall i r nd, i < n -> o_nodes g !! i = Some r -> σ !! r = Some nd ->
          exists mi, morphs !! i = Some mi
                     /\ σ' !! r = Some (annotate_node mi nd))
    /\ (forall i r, n <= i -> o_nodes g !! i = Some r -> σ' !! r = σ !! r)
    /\ (forall r, r ∉ o_nodes g -> σ' !! r = σ !! r)
    /\ (forall mi nd,
          node_id (annotate_node mi nd) = node_id nd
          /\ n_type (annotate_node mi nd) = n_type nd
          /\ features_ref (annotate_node mi nd) = features_ref nd
          /\ span (annotate_node mi nd) = span nd
          /\ n_confidence (annotate_node mi nd) = n_confidence nd
          /\ sub_type (annotate_node mi nd) = pos mi
          /\ label_id (annotate_node mi nd) = lemma_id mi
          /\ n_flags (annotate_node mi nd)
             = (if is_stop mi then Z.lor (n_flags nd) NF_IS_STOP
                else n_flags nd)
          /\ (forall b, (0 <= b)%Z -> b <> 1%Z ->
                Z.testbit (n_flags (annotate_node mi nd)) b
                = Z.testbit (n_flags nd) b))
    /\ (exists gv gv',
          graph_value σ g = Some gv /\ graph_value σ' g = Some gv'
          /\ graph_id gv' = graph_id gv /\ graph_type gv' = graph_type gv
          /\ num_nodes gv' = num_nodes gv /\ num_edges gv' = num_edges gv
          /\ g_features gv' = g_features gv /\ source_id gv' = source_id gv
          /\ version gv' = version gv /\ schema_id gv' = schema_id gv
          /\ edges gv' = edges gv
          /\ length (nodes gv') = length (nodes gv)
          /\ forall i nd, n <= i -> nodes gv !! i = Some nd ->
               nodes gv' !! i = Some nd).
Proof.
  intros Hd n.
  pose proof (proj1 Hd) as Hnd.
  assert (Hn1 : n <= length (o_nodes g)) by (unfold n, common_prefix; lia).
  assert (Hn2 : n <= length morphs) by (unfold n, common_prefix; lia).
  destruct (annotate_loop σ g morphs n 0 σ Hd) as (σ' & Hrun & Hdone & Hrest);
    [lia|lia| |].
  { split; [intros; lia|auto]. }
  simpl in Hdone, Hrest.
  assert (Hafter : forall i r, n <= i -> o_nodes g !! i = Some r ->
                     σ' !! r = σ !! r).
  { intros i r Hi Hr. apply Hrest. intros Hin.
    apply list_elem_of_lookup in Hin as [j Hj].
    pose proof (lookup_lt_Some _ _ _ Hj) as Hlt. rewrite length_take in Hlt.
    rewrite lookup_take_lt in Hj by lia.
    pose proof (NoDup_lookup _ _ _ _ Hnd Hj Hr). lia. }
  exists σ'. split; [exact Hrun|]. split; [|split; [exact Hafter|split; [|split]]].
  - intros i r nd Hi Hr Hσ.
    destruct (lookup_lt_is_Some_2 morphs i ltac:(lia)) as [mi Hmi].
    exists mi. split; [exact Hmi|]. now apply (Hdone i).
  - intros r Hr. apply Hrest. intros Hin. apply Hr.
    apply list_elem_of_lookup in Hin as [j Hj].
    apply lookup_take_Some in Hj as [Hj _].
    now apply list_elem_of_lookup_2 in Hj.
  - apply annotate_node_fields.
  - assert (Hall : forall σ0 : gmap positive Node,
              (forall r, r ∈ o_nodes g -> is_Some (σ0 !! r)) ->
              exists ns, mapM (fun r => σ0 !! r) (o_nodes g) = Some ns).
    { intros σ0 H0. apply mapM_is_Some. apply Forall_forall. exact H0. }
    pose proof (proj2 Hd) as Hσ.
    assert (Hσ' : forall r, r ∈ o_nodes g -> is_Some (σ' !! r)).
    { intros r Hr. destruct (Hσ r Hr) as [nd Hr'].
      apply list_elem_of_lookup in Hr as [i Hi].
      destruct (Nat.lt_ge_cases i n) as [Hlt|Hge].
      - destruct (lookup_lt_is_Some_2 morphs i ltac:(lia)) as [mi Hmi].
        rewrite (Hdone i r nd mi Hlt Hi Hr' Hmi). eauto.
      - rewrite (Hafter i r Hge Hi), Hr'. eauto. }
    destruct (Hall σ Hσ) as [ns Hns]. destruct (Hall σ' Hσ') as [ns' Hns'].
    unfold graph_value. rewrite Hns, Hns'. simpl.
    do 2 eexists. split; [reflexivity|]. split; [reflexivity|]. simpl.
    repeat (split; [reflexivity|]).
    apply mapM_Some in Hns, Hns'.
    split.
    { now rewrite <- (Forall2_length _ _ _ Hns), (Forall2_length _ _ _ Hns'). }
    intros i nd Hi Hnd'.
    destruct (Forall2_lookup_r _ _ _ _ _ Hns Hnd') as (r & Hr & Hl).
    destruct (Forall2_lookup_l _ _ _ _ _ Hns' Hr) as (nd' & Hnd2 & Hl').
    rewrite (Hafter i r Hi Hr) in Hl'. congruence.
Qed.

Lemma annotate_graph_frame_witness :
  exists σ',
    annotate_graph demo_graph demo_tokens demo_morphs demo_store = Return σ'
    /\ σ' !! 1%positive = Some (mkNode 0 1 5 0 (0, 2)%Z 6 255 1)
    /\ σ' !! 2%positive = demo_store !! 2%positive
    /\ σ' !! 3%positive = demo_store !! 3%positive.
Proof.
  destruct (annotate_graph_frame demo_store demo_graph demo_tokens demo_morphs)
    as (σ' & Hrun & Hfirst & Hafter & _).
  - apply dense_ids_distinct.
    intros i r Hr. destruct i as [|[|[|i]]]; simpl in Hr;
      try discriminate; injection Hr as <-; eexists; split; reflexivity.
  - exists σ'. split; [exact Hrun|]. split; [|split].
    + destruct (Hfirst 0 1%positive (mkNode 0 1 0 0 (0, 2)%Z 4 255 0))
        as (mi & Hmi & H1);
        [unfold common_prefix; simpl; lia|reflexivity|reflexivity|].
      injection Hmi as <-. exact H1.
    + apply (Hafter 1); [unfold common_prefix; simpl; lia|reflexivity].
    + apply (Hafter 2); [unfold common_prefix; simpl; lia|reflexivity].
Defined.

End Annotation.


(* ===================================================================== *)
(** * More on the varints and the codec *)
(* ===================================================================== *)

Section Varints.
Import GraphCore Ranges CodecSpec.

Lemma lor_cont_bit b : 0 <= b < 128 -> Z.lor b 0x80 = b + 128.
Proof.
  intros Hb. pose proof (Z.add_lor_land b 0x80) as E.
  rewrite cont_bit_clear in E by assumption. lia.
Qed.

Lemma shiftr7_zero v : 0 <= v -> Z.shiftr v 7 = 0 -> v < 128.
Proof.
  intros Hv E. rewrite Z.shiftr_div_pow2 in E by lia.
  change (2 ^ 7) with 128 in E.
  pose proof (Z.div_mod v 128 ltac:(lia)). pose proof (Z.mod_pos_bound v 128).
  lia.
Qed.

Lemma shiftr7_bounds v : 0 <= v ->
  128 * Z.shiftr v 7 <= v < 128 * Z.shiftr v 7 + 128.
Proof.
  intros Hv. rewrite Z.shiftr_div_pow2 by lia. change (2 ^ 7) with 128.
  pose proof (Z.div_mod v 128 ltac:(lia)). pose proof (Z.mod_pos_bound v 128).
  lia.
Qed.

(** The bytes the loop writes: continuation bytes, then one final byte, and
    no more groups than the value needs. *)
Lemma uvarint_encode_loop_shape fuel : forall v bs,
  0 <= v -> uvarint_encode_loop fuel v [] = Some bs ->
  exists body last,
    bs = body ++ [last]
    /\ Forall (fun b => 128 <= b < 256) body
    /\ 0 <= last < 128
    /\ v < 2 ^ (7 * Z.of_nat (length body + 1))
    /\ (body = [] \/ 2 ^ (7 * Z.of_nat (length body)) <= v).
Proof.
  induction fuel as [|fuel IH]; intros v bs Hv Henc; [discriminate|].
  simpl in Henc. pose proof (low7_bound v) as Hb.
  destruct (Z.eqb_spec (Z.shiftr v 7) 0) as [E|E]; simpl in Henc.
  - injection Henc as <-. exists [], (Z.land v 127).
    split; [reflexivity|]. split; [constructor|]. split; [exact Hb|].
    split; [|now left]. apply shiftr7_zero in E; [|exact Hv].
    cbn [length Nat.add]. change (2 ^ (7 * Z.of_nat 1)) with 128. lia.
  - rewrite uvarint_encode_loop_out in Henc.
    destruct (uvarint_encode_loop fuel (Z.shiftr v 7) []) as [bs'|] eqn:Hbs;
      [|discriminate].
    simpl in Henc. injection Henc as <-.
    destruct (shiftr7_log2 v Hv E) as [Hpos _].
    destruct (IH (Z.shiftr v 7) bs' ltac:(lia) Hbs)
      as (body & last & -> & Hbody & Hlast & Hup & Hlow).
    pose proof (shiftr7_bounds v Hv) as Hsh.
    exists (Z.lor (Z.land v 127) 128 :: body), last.
    split; [reflexivity|]. split.
    { constructor; [|exact Hbody]. rewrite lor_cont_bit by lia. lia. }
    split; [exact Hlast|].
    assert (Hpow : forall n : nat,
              2 ^ (7 * Z.of_nat (S n)) = 128 * 2 ^ (7 * Z.of_nat n)).
    { intros n. replace (7 * Z.of_nat (S n)) with (7 + 7 * Z.of_nat n) by lia.
      rewrite Z.pow_add_r by lia. reflexivity. }
    split.
    + cbn [length Nat.add]. rewrite Hpow. lia.
    + right. cbn [length]. rewrite Hpow.
      destruct Hlow as [->|Hlow]; [simpl; lia|lia].
Qed.

(** X1. [_uvarint_encode] raises on a negative value; on any other value it
    returns a non-empty byte string in which every byte but the last has the
    continuation bit and the last has not, with as many 7-bit groups as the
    value needs and no more. *)
Theorem uvarint_encode_shape v :
  (v < 0 ->
   _uvarint_encode v
   = Raise (ValueError "uvarint cannot encode negative values"))
  /\ (0 <= v ->
      exists body last,
        _uvarint_encode v = Return (body ++ [last])
        /\ Forall (fun b => 128 <= b < 256) body
        /\ 0 <= last < 128
        /\ v < 2 ^ (7 * Z.of_nat (length body + 1))
        /\ (body = [] \/ 2 ^ (7 * Z.of_nat (length body)) <= v)).
Proof.
  split; intros Hv.
  - unfold _uvarint_encode. destruct (Z.ltb_spec v 0); [reflexivity|lia].
  - rewrite uvarint_encode_return by exact Hv. unfold uv.
    destruct (uvarint_encode_loop_total (uvarint_fuel v) v Hv) as [bs Hbs].
    { unfold uvarint_fuel. lia. }
    rewrite Hbs. simpl.
    destruct (uvarint_encode_loop_shape _ _ _ Hv Hbs)
      as (body & last & -> & H); eauto.
Qed.

Lemma uvarint_encode_shape_witness :
  exists body last,
    _uvarint_encode 300 = Return (body ++ [last])
    /\ Forall (fun b => 128 <= b < 256) body
    /\ 0 <= last < 128
    /\ 300 < 2 ^ (7 * Z.of_nat (length body + 1))
    /\ (body = [] \/ 2 ^ (7 * Z.of_nat (length body)) <= 300).
Proof. apply (proj2 (uvarint_encode_shape 300)). lia. Defined.

(** ** The decoding loop, case by case *)

Lemma lor_below n a b :
  0 <= n -> 0 <= a < 2 ^ n -> 0 <= b < 2 ^ n -> 0 <= Z.lor a b < 2 ^ n.
Proof.
  intros Hn Ha Hb. pose proof (Z.lor_nonneg a b) as Hnn.
  split; [lia|].
  destruct (Z.eq_dec (Z.lor a b) 0) as [->|Hne]; [lia|].
  assert (Hn0 : 0 < n).
  { destruct (Z.eq_dec n 0) as [->|]; [|lia]. exfalso. apply Hne.
    change (2 ^ 0) with 1 in *.
    assert (a = 0) as -> by lia. assert (b = 0) as -> by lia. reflexivity. }
  assert (Hlog : forall x, 0 <= x < 2 ^ n -> Z.log2 x < n).
  { intros x Hx. destruct (Z.eq_dec x 0) as [->|]; [simpl; lia|].
    apply Z.log2_lt_pow2; lia. }
  apply Z.log2_lt_pow2; [lia|]. rewrite Z.log2_lor by lia.
  apply Z.max_lub_lt; auto.
Qed.

Lemma group_below b j :
  0 <= j -> 0 <= Z.shiftl (Z.land b 0x7F) (7 * j) < 2 ^ (7 * (j + 1)).
Proof.
  intros Hj. pose proof (low7_bound b) as Hb.
  rewrite Z.shiftl_mul_pow2 by lia.
  replace (7 * (j + 1)) with (7 + 7 * j) by lia.
  rewrite Z.pow_add_r by lia. change (2 ^ 7) with 128.
  assert (0 < 2 ^ (7 * j)) by (apply Z.pow_pos_nonneg; lia). nia.
Qed.

Lemma uvarint_decode_loop_cases rest : forall i (j : nat) value tr,
  (j <= 9)%nat -> 0 <= value < 2 ^ (7 * Z.of_nat j) ->
  let k := continuation_run rest in
  let res := (uvarint_decode_loop rest i (7 * Z.of_nat j) value tr).1 in
  ((10 <= j + k)%nat -> res = Raise (ValueError "uvarint: value too large"))
  /\ ((j + k < 10)%nat -> k = length rest ->
      res = Raise (ValueError "uvarint: truncated input"))
  /\ ((j + k < 10)%nat -> (k < length rest)%nat ->
      exists v, res = Return (v, (i + k + 1)%nat)
                /\ 0 <= v < 2 ^ (7 * Z.of_nat (j + k + 1))).
Proof.
  induction rest as [|b rest IH]; intros i j value tr Hj Hval; cbn zeta.
  - simpl. split; [lia|]. split; [reflexivity|lia].
  - cbn [continuation_run uvarint_decode_loop length].
    unfold mbind, Dec_bind, dbind, touch. cbv beta iota.
    pose proof (group_below b (Z.of_nat j) ltac:(lia)) as Hg.
    assert (Hnew : 0 <= Z.lor value (Z.shiftl (Z.land b 127) (7 * Z.of_nat j))
                   < 2 ^ (7 * Z.of_nat (j + 1))).
    { replace (Z.of_nat (j + 1)) with (Z.of_nat j + 1) by lia.
      apply lor_below; [lia| |exact Hg].
      split; [lia|]. eapply Z.lt_le_trans; [apply Hval|].
      apply Z.pow_le_mono_r; lia. }
    unfold continues. destruct (Z.land b 128 =? 0); cbn [negb].
    + split; [lia|]. split; [simpl; lia|]. intros _ _.
      eexists. split; [unfold dret; simpl; do 2 f_equal; lia|].
      now rewrite Nat.add_0_r.
    + destruct (Z.gtb_spec (7 * Z.of_nat j + 7) 63) as [Hbig|Hsmall].
      * split; [reflexivity|]. split; intros; lia.
      * replace (7 * Z.of_nat j + 7) with (7 * Z.of_nat (j + 1)) by lia.
        destruct (IH (S i) (j + 1)%nat
                    (Z.lor value (Z.shiftl (Z.land b 127) (7 * Z.of_nat j)))
                    (tr ++ [mkRead i 1]) ltac:(lia) Hnew) as (H1 & H2 & H3).
        split; [intros; apply H1; lia|].
        split; [intros; apply H2; lia|].
        intros Hlt Hk. destruct H3 as (v & Hv & Hb); [lia|lia|].
        exists v. split.
        -- rewrite Hv. do 2 f_equal. lia.
        -- replace (j + S (continuation_run rest) + 1)%nat
             with (j + 1 + continuation_run rest + 1)%nat by lia. exact Hb.
Qed.

(** X2. What [_uvarint_decode] does at an offset is decided by the bytes
    from there on: ten continuation bytes make it raise "value too large";
    fewer, with nothing after them (the offset at or past the end among
    that), make it raise "truncated input"; otherwise it returns a value in
    [0, 2^70) and the offset just after the first byte without the
    continuation bit. *)
Theorem uvarint_decode_cases buf offset tr :
  let k := continuation_run (drop offset buf) in
  let res := (_uvarint_decode buf offset tr).1 in
  ((10 <= k)%nat -> res = Raise (ValueError "uvarint: value too large"))
  /\ ((k < 10)%nat -> k = length (drop offset buf) ->
      res = Raise (ValueError "uvarint: truncated input"))
  /\ ((k < 10)%nat -> (k < length (drop offset buf))%nat ->
      exists v, res = Return (v, (offset + k + 1)%nat) /\ 0 <= v < 2 ^ 70).
Proof.
  cbn zeta. unfold _uvarint_decode.
  destruct (uvarint_decode_loop_cases (drop offset buf) offset 0 0 tr
              ltac:(lia) ltac:(simpl; lia)) as (H1 & H2 & H3).
  change (7 * Z.of_nat 0) with 0 in *.
  split; [exact H1|]. split; [exact H2|].
  intros Hk Hlen. destruct (H3 Hk Hlen) as (v & Hv & Hb).
  exists v. split; [exact Hv|]. split; [lia|].
  eapply Z.lt_le_trans; [apply Hb|]. apply Z.pow_le_mono_r; lia.
Qed.

Lemma uvarint_decode_cases_witness :
  (_uvarint_decode [0x80; 0x80] 0 []).1
  = Raise (ValueError "uvarint: truncated input").
Proof.
  apply (proj1 (proj2 (uvarint_decode_cases [0x80; 0x80] 0 [])));
    [simpl; lia|reflexivity].
Defined.

End Varints.

Section CodecMore.
Import GraphCore Ranges CodecSpec.

(** ** Varints, there and back *)

Lemma continues_high b : 128 <= b < 256 -> continues b = true.
Proof.
  intros Hb. unfold continues.
  replace b with (Z.lor (b - 128) 0x80) by (rewrite lor_cont_bit; lia).
  rewrite cont_bit_set by lia. reflexivity.
Qed.

Lemma continuation_run_app body rest :
  Forall (fun b => 128 <= b < 256) body ->
  (length body <= continuation_run (body ++ rest))%nat.
Proof.
  induction 1 as [|b body Hb _ IH]; simpl; [lia|].
  rewrite continues_high by exact Hb. lia.
Qed.

Lemma uv_shape v : 0 <= v ->
  exists body last,
    uv v = body ++ [last]
    /\ Forall (fun b => 128 <= b < 256) body /\ 0 <= last < 128
    /\ v < 2 ^ (7 * Z.of_nat (length body + 1)).
Proof.
  intros Hv. unfold uv.
  destruct (uvarint_encode_loop_total (uvarint_fuel v) v Hv) as [bs Hbs].
  { unfold uvarint_fuel. lia. }
  rewrite Hbs. simpl.
  destruct (uvarint_encode_loop_shape _ _ _ Hv Hbs)
    as (body & last & -> & H1 & H2 & H3 & _). eauto 6.
Qed.

Lemma uvarint_decode_overlong buf offset tr :
  (10 <= continuation_run (drop offset buf))%nat ->
  (_uvarint_decode buf offset tr).1
  = Raise (ValueError "uvarint: value too large").
Proof.
  intros Hk. unfold _uvarint_decode.
  destruct (uvarint_decode_loop_cases (drop offset buf) offset 0 0 tr
              ltac:(lia) ltac:(simpl; lia)) as (H1 & _).
  apply H1. lia.
Qed.

(** X3. A value written by [_uvarint_encode] is read back by
    [_uvarint_decode], wherever the bytes sit in a buffer and whatever
    follows them, together with the offset just after them, exactly when it
    is below 2^70; from 2^70 on the bytes are written but reading them
    raises "value too large". *)
Theorem uvarint_round_trip v pre post tr :
  0 <= v ->
  exists bs,
    _uvarint_encode v = Return bs
    /\ (v < 2 ^ 70 ->
        (_uvarint_decode (pre ++ bs ++ post) (length pre) tr).1
        = Return (v, (length pre + length bs)%nat))
    /\ (2 ^ 70 <= v ->
        (_uvarint_decode (pre ++ bs ++ post) (length pre) tr).1
        = Raise (ValueError "uvarint: value too large")).
Proof.
  intros Hv. exists (uv v). split; [now apply uvarint_encode_return|].
  split.
  - intros Hlt.
    destruct (uvarint_reads v (conj Hv Hlt) (pre ++ uv v ++ post) (length pre)
                post (drop_app_length _ _) tr) as [tr' ->]. reflexivity.
  - intros Hbig.
    destruct (uv_shape v Hv) as (body & last & E & Hbody & _ & Hup).
    apply uvarint_decode_overlong.
    rewrite drop_app_length, E, <- app_assoc.
    pose proof (continuation_run_app body ([last] ++ post) Hbody) as Hrun.
    assert (10 <= length body)%nat; [|lia].
    destruct (Nat.le_gt_cases 10 (length body)) as [|Hshort]; [lia|].
    exfalso.
    assert (2 ^ (7 * Z.of_nat (length body + 1)) <= 2 ^ 70)
      by (apply Z.pow_le_mono_r; lia).
    lia.
Qed.

Lemma uvarint_round_trip_witness :
  exists bs,
    _uvarint_encode 300 = Return bs
    /\ (300 < 2 ^ 70 ->
        (_uvarint_decode ([1; 2] ++ bs ++ [3]) 2 []).1
        = Return (300, (2 + length bs)%nat))
    /\ (2 ^ 70 <= 300 ->
        (_uvarint_decode ([1; 2] ++ bs ++ [3]) 2 []).1
        = Raise (ValueError "uvarint: value too large")).
Proof. apply (uvarint_round_trip 300 [1; 2] [3] []). lia. Defined.

(** ** What [encode_pgraph] writes *)

Lemma land_idem x m : Z.land (Z.land x m) m = Z.land x m.
Proof. now rewrite <- Z.land_assoc, Z.land_diag. Qed.

Lemma land_ones_range x n : 0 <= n -> 0 <= Z.land x (Z.ones n) < 2 ^ n.
Proof. intros Hn. rewrite Z.land_ones by lia. apply Z.mod_pos_bound. lia. Qed.

Lemma byte_ok_mask x : byte_ok (Z.land x 0xFF).
Proof. apply (land_ones_range x 8). lia. Qed.

Lemma u16_ok_mask x : u16_ok (Z.land x 0xFFFF).
Proof. apply (land_ones_range x 16). lia. Qed.

Lemma node_wire_mask n : node_wire (mask_node n)
  = uv (node_id n) ++ [Z.land (n_type n) 0xFF] ++ [Z.land (sub_type n) 0xFF]
    ++ uv (features_ref n) ++ uv (fst (span n)) ++ uv (snd (span n))
    ++ [Z.land (n_flags n) 0xFF; Z.land (Z.shiftr (n_flags n) 8) 0xFF]
    ++ [Z.land (n_confidence n) 0xFF] ++ uv (label_id n).
Proof.
  unfold node_wire, mask_node. cbn [node_id n_type sub_type features_ref span
    n_flags n_confidence label_id].
  pose proof (to_bytes_u16 (n_flags n)) as E1.
  pose proof (to_bytes_u16 (Z.land (n_flags n) 0xFFFF)) as E2.
  rewrite land_idem, E1 in E2. injection E2 as <- <-. reflexivity.
Qed.

Lemma edge_wire_mask e : edge_wire (mask_edge e)
  = uv (src_id e) ++ uv (dst_id e) ++ [Z.land (e_type e) 0xFF]
    ++ [Z.land (weight e) 0xFF] ++ uv (time e)
    ++ [Z.land (e_flags e) 0xFF; Z.land (Z.shiftr (e_flags e) 8) 0xFF]
    ++ [Z.land (e_confidence e) 0xFF] ++ uv (attr_ref e).
Proof.
  unfold edge_wire, mask_edge. cbn [src_id dst_id e_type weight time e_flags
    e_confidence attr_ref].
  pose proof (to_bytes_u16 (e_flags e)) as E1.
  pose proof (to_bytes_u16 (Z.land (e_flags e) 0xFFFF)) as E2.
  rewrite land_idem, E1 in E2. injection E2 as <- <-. reflexivity.
Qed.

Lemma uvarint_encode_raise v : v < 0 -> _uvarint_encode v = Raise negative_value.
Proof. intros Hv. unfold _uvarint_encode. destruct (Z.ltb_spec v 0); [reflexivity|lia]. Qed.

(** Runs the varints of a record in the order they are written. *)
Ltac write_varints :=
  repeat match goal with
  | |- context [_uvarint_encode ?v] =>
      destruct (Z.leb_spec 0 v);
      [rewrite (uvarint_encode_return v) by assumption
      |rewrite (uvarint_encode_raise v) by assumption; reflexivity];
      cbn [mbind outcome_bind andb]
  end.

Lemma encode_node_outcome out n :
  encode_node out n
  = if forallb (fun v => 0 <=? v) (node_varints n)
    then Return (out ++ node_wire (mask_node n))
    else Raise negative_value.
Proof.
  rewrite node_wire_mask. unfold encode_node, node_varints.
  cbn [forallb]. write_varints.
  rewrite to_bytes_u16. cbn [mbind outcome_bind].
  write_varints. rewrite <- !app_assoc. reflexivity.
Qed.

Lemma encode_edge_outcome out e :
  encode_edge out e
  = if forallb (fun v => 0 <=? v) (edge_varints e)
    then Return (out ++ edge_wire (mask_edge e))
    else Raise negative_value.
Proof.
  rewrite edge_wire_mask. unfold encode_edge, edge_varints.
  cbn [forallb]. write_varints.
  rewrite to_bytes_u16. cbn [mbind outcome_bind].
  write_varints. rewrite <- !app_assoc. reflexivity.
Qed.

Lemma for_each_outcome {A} (enc : bytes -> A -> outcome bytes)
    (wire : A -> bytes) (vs : A -> list Z) :
  (forall out x,
     enc out x = if forallb (fun v => 0 <=? v) (vs x)
                 then Return (out ++ wire x) else Raise negative_value) ->
  forall xs out,
    for_each enc xs out
    = if forallb (fun v => 0 <=? v) (concat (map vs xs))
      then Return (out ++ concat (map wire xs)) else Raise negative_value.
Proof.
  intros Henc xs. induction xs as [|x xs IH]; intros out; simpl.
  - now rewrite app_nil_r.
  - rewrite forallb_app, Henc.
    destruct (forallb (fun v => 0 <=? v) (vs x)); simpl; [|reflexivity].
    rewrite IH. destruct (forallb _ (concat (map vs xs))); [|reflexivity].
    now rewrite <- app_assoc.
Qed.

Lemma encode_pgraph_outcome g :
  encode_pgraph g
  = if encodable g then Return (graph_wire (mask_graph g))
    else Raise negative_value.
Proof.
  unfold encode_pgraph, encodable, graph_varints.
  cbn [forallb app]. write_varints.
  rewrite (for_each_outcome encode_node (fun n => node_wire (mask_node n))
             node_varints encode_node_outcome).
  rewrite forallb_app.
  destruct (forallb _ (concat (map node_varints (nodes g)))); simpl;
    [|reflexivity].
  rewrite (for_each_outcome encode_edge (fun e => edge_wire (mask_edge e))
             edge_varints encode_edge_outcome).
  destruct (forallb _ (concat (map edge_varints (edges g)))); simpl;
    [|reflexivity].
  assert (Hfeat : match g_features g with
                  | Some f => if bool_decide (f = []) then [] else f
                  | None => []
                  end = default [] (g_features g)).
  { destruct (g_features g) as [f|]; [|reflexivity]. simpl.
    case_bool_decide; congruence. }
  rewrite !Hfeat.
  rewrite uvarint_encode_return by lia. cbn [mbind outcome_bind].
  f_equal. unfold graph_wire, mask_graph, thumbnail_len.
  cbn [graph_id graph_type num_nodes num_edges source_id version schema_id
       nodes edges g_features].
  rewrite !map_map.
  case_bool_decide as Hnil.
  - rewrite Hnil. rewrite <- !app_assoc. simpl. now rewrite ?app_nil_r.
  - rewrite <- !app_assoc. reflexivity.
Qed.


(** ** What [decode_pgraph] reads, whatever follows *)

Ltac next_uvarint :=
  match goal with
  | Hd : drop ?i ?buf = uv ?v ++ ?rest
    |- exists _, mbind _ (_uvarint_decode ?buf ?i) ?tr = _ =>
      let tr' := fresh "tr" in
      let E := fresh "E" in
      let Hd' := fresh "Hd" in
      destruct (uvarint_at v buf i rest tr ltac:(assumption) Hd)
        as (tr' & E & Hd');
      rewrite (dbind_return _ _ _ _ _ E); clear E Hd; cbv beta iota
  end.

Ltac next_byte :=
  match goal with
  | Hd : drop ?i ?buf = [?b] ++ ?rest
    |- exists _, mbind _ (index ?buf ?i) ?tr = _ =>
      let tr' := fresh "tr" in
      let E := fresh "E" in
      let Hd' := fresh "Hd" in
      destruct (index_at buf i b rest tr Hd) as (tr' & E & Hd');
      rewrite (dbind_return _ _ _ _ _ E); clear E Hd; cbv beta iota zeta
  end.

Ltac next_table Hrd Hok :=
  match goal with
  | Hd : drop ?i ?buf = concat (map ?wire ?xs) ++ ?rest
    |- exists _, mbind _ (decode_table ?rd _ ?buf ?i []) ?tr = _ =>
      let tr' := fresh "tr" in
      let E := fresh "E" in
      destruct (decode_table_reads rd wire _ Hrd xs [] buf i rest tr Hok Hd)
        as [tr' E];
      rewrite (dbind_return _ _ _ _ _ E); clear E; cbv beta iota;
      apply drop_past in Hd
  end.

Lemma decode_pgraph_wire_then g extra :
  fields_ok g -> uvarint_ok (Z.of_nat (thumbnail_len g)) ->
  decode_pgraph (graph_wire g ++ extra)
  = Return (with_g_features g (thumbnail_read_back g)).
Proof.
  intros [] Hthumb. unfold decode_pgraph.
  set (buf := graph_wire g ++ extra).
  assert (Hd : drop 4 buf
               = uv (graph_id g) ++ [graph_type g] ++ uv (num_nodes g)
                 ++ uv (num_edges g) ++ uv (source_id g) ++ uv (version g)
                 ++ [schema_id g] ++ concat (map node_wire (nodes g))
                 ++ concat (map edge_wire (edges g))
                 ++ uv (Z.of_nat (thumbnail_len g))
                 ++ default [] (g_features g) ++ extra).
  { unfold buf, graph_wire. rewrite <- !app_assoc. reflexivity. }
  assert (Hmagic : take 4 buf = _PG_MAGIC) by reflexivity.
  clearbody buf.
  cut (exists tr, decode_pgraph_reads buf []
                  = (Return (with_g_features g (thumbnail_read_back g)), tr)).
  { intros [tr ->]. reflexivity. }
  unfold decode_pgraph_reads.
  rewrite (dbind_return _ _ _ _ _ (slice_from_start buf 4 [])).
  rewrite Hmagic. rewrite bool_decide_eq_true_2 by reflexivity.
  cbv beta iota zeta. cbn [negb].
  next_uvarint. next_byte. do 4 next_uvarint. next_byte.
  replace (Z.to_nat (num_nodes g)) with (length (nodes g)) by lia.
  next_table decode_node_reads nodes_ok0.
  replace (Z.to_nat (num_edges g)) with (length (edges g)) by lia.
  next_table decode_edge_reads edges_ok0.
  next_uvarint.
  assert (Hback : thumbnail_read_back g
                  = match default [] (g_features g) with
                    | [] => None
                    | f => Some f
                    end).
  { unfold thumbnail_read_back. now destruct (g_features g) as [[|]|]. }
  rewrite Hback. unfold thumbnail_len in *.
  destruct (default [] (g_features g)) as [|b f].
  - change (Z.of_nat (length []) =? 0) with true. cbn [negb].
    unfold mbind, Dec_bind, dbind, mret, Dec_ret, dret, with_g_features.
    eexists. do 2 f_equal. rewrite !app_nil_l. f_equal; congruence.
  - replace (Z.of_nat (length (b :: f)) =? 0) with false
      by (symmetry; apply Z.eqb_neq; simpl; lia).
    cbn [negb]. rewrite Nat2Z.id.
    unfold slice, mbind, Dec_bind, dbind, touch, mret, Dec_ret, dret,
      with_g_features.
    match goal with |- context [take ?a (drop ?i buf)] =>
      replace (take a (drop i buf)) with (b :: f) end.
    2:{ rewrite Hd.
        match goal with |- _ = take ?a _ =>
          replace a with (length (b :: f)) by lia end.
        now rewrite take_app_length. }
    rewrite Z.eqb_refl. cbn [negb].
    eexists. do 2 f_equal. rewrite !app_nil_l. f_equal; congruence.
Qed.

(** ** Masked fields are in range *)

Lemma Forall_uvarint_app (P : Z -> Prop) xs ys :
  Forall P (xs ++ ys) -> Forall P xs /\ Forall P ys.
Proof. apply Forall_app. Qed.

Lemma mask_node_ok n : Forall uvarint_ok (node_varints n) -> node_ok (mask_node n).
Proof.
  unfold node_varints. rewrite !Forall_cons. intros (?&?&?&?&?&_).
  split; cbn [mask_node node_id n_type sub_type features_ref span n_flags
              n_confidence label_id];
    auto using byte_ok_mask, u16_ok_mask.
Qed.

Lemma mask_edge_ok e : Forall uvarint_ok (edge_varints e) -> edge_ok (mask_edge e).
Proof.
  unfold edge_varints. rewrite !Forall_cons. intros (?&?&?&?&_).
  split; cbn [mask_edge src_id dst_id e_type weight time e_flags
              e_confidence attr_ref];
    auto using byte_ok_mask, u16_ok_mask.
Qed.

Lemma Forall_concat_map {A} (P : Z -> Prop) (Q : A -> Prop) (f : A -> list Z) xs :
  (forall x, Forall P (f x) -> Q x) ->
  Forall P (concat (map f xs)) -> Forall Q xs.
Proof.
  intros HPQ. induction xs as [|x xs IH]; simpl; [constructor|].
  rewrite Forall_app. intros [? ?]. constructor; auto.
Qed.

Lemma mask_graph_ok g : decodable g -> fields_ok (mask_graph g).
Proof.
  intros (Hn & He & Hv & _). unfold graph_varints in Hv.
  cbn [app] in Hv. rewrite !Forall_cons, Forall_app in Hv.
  destruct Hv as (?&?&?&?&?&Hns&Hes).
  split; cbn [mask_graph graph_id graph_type num_nodes num_edges source_id
              version schema_id nodes edges];
    rewrite ?length_map; auto using byte_ok_mask.
  - apply Forall_map. revert Hns. apply Forall_concat_map, mask_node_ok.
  - apply Forall_map. revert Hes. apply Forall_concat_map, mask_edge_ok.
Qed.

Lemma decodable_encodable g : decodable g -> encodable g = true.
Proof.
  intros (_ & _ & Hv & _). unfold encodable.
  induction Hv as [|v vs [Hv _] _ IH]; [reflexivity|].
  simpl. rewrite IH, andb_true_r. now apply Z.leb_le.
Qed.

Lemma thumbnail_len_mask g : thumbnail_len (mask_graph g) = thumbnail_len g.
Proof. reflexivity. Qed.

(** X4. Whatever the codec can read back it reads back cut to the wire
    widths: for a graph whose counts are its list lengths and whose varint
    fields are below 2^70, [encode_pgraph] returns and [decode_pgraph] of
    those bytes, followed by any bytes at all, returns the graph with type
    codes, weights and confidences reduced to eight bits, flags to sixteen,
    and an empty thumbnail absent.  The thumbnail may have any length. *)
Theorem decode_encode_read_back g extra :
  decodable g ->
  exists blob,
    encode_pgraph g = Return blob
    /\ decode_pgraph (blob ++ extra) = Return (read_back g).
Proof.
  intros Hg. exists (graph_wire (mask_graph g)). split.
  - now rewrite encode_pgraph_outcome, decodable_encodable.
  - rewrite decode_pgraph_wire_then.
    + reflexivity.
    + now apply mask_graph_ok.
    + rewrite thumbnail_len_mask. apply Hg.
Qed.

Lemma decode_encode_read_back_witness :
  exists blob,
    encode_pgraph out_of_range_graph = Return blob
    /\ decode_pgraph (blob ++ [9; 9]) = Return (read_back out_of_range_graph).
Proof.
  apply (decode_encode_read_back out_of_range_graph [9; 9]).
  unfold decodable. split; [reflexivity|]. split; [reflexivity|].
  split; [|vm_compute; split; [discriminate|reflexivity]].
  repeat constructor; vm_compute; discriminate.
Defined.

Lemma read_back_ok g : decodable g -> fields_ok (read_back g).
Proof.
  intros Hg. destruct (mask_graph_ok g Hg). split; assumption.
Qed.

Lemma read_back_wire g : graph_wire (read_back g) = graph_wire (mask_graph g).
Proof.
  unfold graph_wire, read_back, with_g_features, thumbnail_len,
    thumbnail_read_back.
  cbn [graph_id graph_type num_nodes num_edges source_id version schema_id
       nodes edges g_features mask_graph].
  now destruct (g_features g) as [[|]|].
Qed.

(** X5. Encoding is canonical on what decoding gives: for a graph the codec
    can read back, encoding it, decoding the bytes and encoding the decoded
    graph gives the first bytes again, though the decoded graph may differ
    from the first. *)
Theorem encode_decode_encode g :
  decodable g ->
  exists blob g',
    encode_pgraph g = Return blob
    /\ decode_pgraph blob = Return g'
    /\ encode_pgraph g' = Return blob.
Proof.
  intros Hg. exists (graph_wire (mask_graph g)), (read_back g).
  split; [now rewrite encode_pgraph_outcome, decodable_encodable|].
  split.
  - rewrite <- (app_nil_r (graph_wire _)), decode_pgraph_wire_then.
    + reflexivity.
    + now apply mask_graph_ok.
    + rewrite thumbnail_len_mask. apply Hg.
  - rewrite (encode_pgraph_wire _ (read_back_ok g Hg)).
    now rewrite read_back_wire.
Qed.

Lemma encode_decode_encode_witness :
  exists blob g',
    encode_pgraph out_of_range_graph = Return blob
    /\ decode_pgraph blob = Return g'
    /\ encode_pgraph g' = Return blob.
Proof.
  apply (encode_decode_encode out_of_range_graph).
  unfold decodable. split; [reflexivity|]. split; [reflexivity|].
  split; [|vm_compute; split; [discriminate|reflexivity]].
  repeat constructor; vm_compute; discriminate.
Defined.

(** ** The errors of the two directions *)

Lemma uv_bytes v : 0 <= v -> byte_string (uv v).
Proof.
  intros Hv. destruct (uv_shape v Hv) as (body & last & -> & Hb & Hl & _).
  apply Forall_app. split.
  - eapply Forall_impl; [exact Hb|]. unfold byte_ok. simpl. lia.
  - repeat constructor; lia.
Qed.

Lemma nonneg_cons v vs :
  forallb (fun v => 0 <=? v) (v :: vs) = true ->
  0 <= v /\ forallb (fun v => 0 <=? v) vs = true.
Proof. simpl. rewrite andb_true_iff, Z.leb_le. tauto. Qed.

Lemma nonneg_app vs ws :
  forallb (fun v => 0 <=? v) (vs ++ ws) = true ->
  forallb (fun v => 0 <=? v) vs = true /\ forallb (fun v => 0 <=? v) ws = true.
Proof. rewrite forallb_app, andb_true_iff. tauto. Qed.

Lemma byte_string_app bs cs : byte_string bs -> byte_string cs -> byte_string (bs ++ cs).
Proof. intros. apply Forall_app. now split. Qed.

Lemma byte_string_one x : byte_string [Z.land x 0xFF].
Proof. repeat constructor; apply byte_ok_mask. Qed.

Lemma node_wire_bytes n :
  forallb (fun v => 0 <=? v) (node_varints n) = true ->
  byte_string (node_wire (mask_node n)).
Proof.
  unfold node_varints. intros H.
  repeat (apply nonneg_cons in H; destruct H as [? H]).
  rewrite node_wire_mask.
  repeat first [apply byte_string_one | apply uv_bytes; assumption
               | apply byte_string_app].
  repeat constructor; apply byte_ok_mask.
Qed.

Lemma edge_wire_bytes e :
  forallb (fun v => 0 <=? v) (edge_varints e) = true ->
  byte_string (edge_wire (mask_edge e)).
Proof.
  unfold edge_varints. intros H.
  repeat (apply nonneg_cons in H; destruct H as [? H]).
  rewrite edge_wire_mask.
  repeat first [apply byte_string_one | apply uv_bytes; assumption
               | apply byte_string_app].
  repeat constructor; apply byte_ok_mask.
Qed.

Lemma table_bytes {A} (vs : A -> list Z) (wire : A -> bytes) xs :
  (forall x, forallb (fun v => 0 <=? v) (vs x) = true -> byte_string (wire x)) ->
  forallb (fun v => 0 <=? v) (concat (map vs xs)) = true ->
  byte_string (concat (map wire xs)).
Proof.
  intros Hw. induction xs as [|x xs IH]; simpl; [constructor|].
  intros H. apply nonneg_app in H as [? ?]. apply byte_string_app; auto.
Qed.

Lemma graph_wire_bytes g :
  encodable g = true -> byte_string (default [] (g_features g)) ->
  byte_string (graph_wire (mask_graph g)).
Proof.
  unfold encodable, graph_varints. cbn [app]. intros H Hfeat.
  repeat (apply nonneg_cons in H; destruct H as [? H]).
  apply nonneg_app in H as [Hns Hes].
  unfold graph_wire, thumbnail_len.
  cbn [mask_graph graph_id graph_type num_nodes num_edges source_id version
       schema_id nodes edges g_features].
  rewrite !map_map.
  repeat first [apply byte_string_one
               | apply uv_bytes; first [assumption | lia]
               | exact Hfeat
               | revert Hns; apply table_bytes, node_wire_bytes
               | revert Hes; apply table_bytes, edge_wire_bytes
               | apply byte_string_app].
  unfold _PG_MAGIC. repeat apply Forall_cons_2; [..|apply Forall_nil_2];
    unfold byte_ok; lia.
Qed.

(** X6. [encode_pgraph] fails in one way only: it returns exactly when no
    field written as a varint is negative, and raises the varint
    [ValueError] otherwise; fields too wide for their bytes are cut, never
    refused.  What it returns starts with the magic and is a byte string
    when the thumbnail is one. *)
Theorem encode_pgraph_returns_or_raises g :
  (encodable g = true ->
   exists blob, encode_pgraph g = Return blob
                /\ take 4 blob = _PG_MAGIC
                /\ (byte_string (default [] (g_features g)) -> byte_string blob))
  /\ (encodable g = false -> encode_pgraph g = Raise negative_value).
Proof.
  rewrite encode_pgraph_outcome. split; intros Hg; rewrite Hg; [|reflexivity].
  exists (graph_wire (mask_graph g)). split; [reflexivity|].
  split; [reflexivity|]. now apply graph_wire_bytes.
Qed.

Lemma encode_pgraph_returns_or_raises_witness :
  exists blob, encode_pgraph out_of_range_graph = Return blob
               /\ take 4 blob = _PG_MAGIC
               /\ (byte_string (default [] (g_features out_of_range_graph))
                   -> byte_string blob).
Proof.
  apply (proj1 (encode_pgraph_returns_or_raises out_of_range_graph)).
  reflexivity.
Defined.

(** X7. [decode_pgraph] refuses with the magic [ValueError], before it
    reads anything else, every buffer whose first four bytes are not the
    magic: a buffer of fewer than four bytes among them, the empty one
    too. *)
Theorem decode_pgraph_invalid_magic buf :
  take 4 buf <> _PG_MAGIC ->
  decode_pgraph buf
  = Raise (ValueError "Invalid magic; not a .pgraph single-graph payload").
Proof.
  intros Hm. unfold decode_pgraph, decode_pgraph_reads.
  rewrite (dbind_return _ _ _ _ _ (slice_from_start buf 4 [])).
  rewrite bool_decide_eq_false_2 by exact Hm. reflexivity.
Qed.

Lemma decode_pgraph_invalid_magic_witness :
  decode_pgraph [80; 71; 82]
  = Raise (ValueError "Invalid magic; not a .pgraph single-graph payload").
Proof. apply (decode_pgraph_invalid_magic [80; 71; 82]). discriminate. Defined.

(** ** A thumbnail cut short *)

Lemma graph_wire_head g :
  graph_wire g = graph_head g ++ default [] (g_features g).
Proof. unfold graph_wire, graph_head. now rewrite <- !app_assoc. Qed.

Lemma decode_pgraph_head g tail :
  fields_ok g -> uvarint_ok (Z.of_nat (thumbnail_len g)) ->
  decode_pgraph (graph_head g ++ tail)
  = if (thumbnail_len g =? 0)%nat then Return (with_g_features g None)
    else if (length tail <? thumbnail_len g)%nat
         then Raise (ValueError "Truncated g_features")
         else Return (with_g_features g (Some (take (thumbnail_len g) tail))).
Proof.
  intros [] Hthumb. unfold decode_pgraph.
  set (buf := graph_head g ++ tail).
  assert (Hd : drop 4 buf
               = uv (graph_id g) ++ [graph_type g] ++ uv (num_nodes g)
                 ++ uv (num_edges g) ++ uv (source_id g) ++ uv (version g)
                 ++ [schema_id g] ++ concat (map node_wire (nodes g))
                 ++ concat (map edge_wire (edges g))
                 ++ uv (Z.of_nat (thumbnail_len g)) ++ tail).
  { unfold buf, graph_head. rewrite <- !app_assoc. reflexivity. }
  assert (Hmagic : take 4 buf = _PG_MAGIC) by reflexivity.
  clearbody buf.
  set (res := if (thumbnail_len g =? 0)%nat then Return (with_g_features g None)
              else if (length tail <? thumbnail_len g)%nat
                   then Raise (ValueError "Truncated g_features")
                   else Return (with_g_features g
                                  (Some (take (thumbnail_len g) tail)))).
  cut (exists tr, decode_pgraph_reads buf [] = (res, tr)).
  { intros [tr ->]. reflexivity. }
  unfold decode_pgraph_reads.
  rewrite (dbind_return _ _ _ _ _ (slice_from_start buf 4 [])).
  rewrite Hmagic. rewrite bool_decide_eq_true_2 by reflexivity.
  cbv beta iota zeta. cbn [negb].
  next_uvarint. next_byte. do 4 next_uvarint. next_byte.
  replace (Z.to_nat (num_nodes g)) with (length (nodes g)) by lia.
  next_table decode_node_reads nodes_ok0.
  replace (Z.to_nat (num_edges g)) with (length (edges g)) by lia.
  next_table decode_edge_reads edges_ok0.
  next_uvarint. subst res.
  destruct (Nat.eqb_spec (thumbnail_len g) 0) as [Hz|Hnz].
  - rewrite Hz. change (Z.of_nat 0 =? 0) with true. cbn [negb].
    unfold mbind, Dec_bind, dbind, mret, Dec_ret, dret, with_g_features.
    eexists. do 2 f_equal. rewrite !app_nil_l. f_equal; congruence.
  - replace (Z.of_nat (thumbnail_len g) =? 0) with false
      by (symmetry; apply Z.eqb_neq; lia).
    cbn [negb]. rewrite Nat2Z.id.
    unfold slice, mbind, Dec_bind, dbind, touch, mret, Dec_ret, dret,
      draise, with_g_features.
    match goal with |- context [take ?a (drop ?i buf)] =>
      replace (take a (drop i buf)) with (take (thumbnail_len g) tail)
        by (rewrite Hd; f_equal; lia) end.
    rewrite length_take.
    destruct (Nat.ltb_spec (length tail) (thumbnail_len g)) as [Hlt|Hge].
    + replace (Z.of_nat (thumbnail_len g `min` length tail)
               =? Z.of_nat (thumbnail_len g)) with false
        by (symmetry; apply Z.eqb_neq; lia).
      cbn [negb]. cbv beta iota. eexists. reflexivity.
    + replace (Z.of_nat (thumbnail_len g `min` length tail)
               =? Z.of_nat (thumbnail_len g)) with true
        by (symmetry; apply Z.eqb_eq; lia).
      cbn [negb]. eexists. do 2 f_equal. rewrite !app_nil_l.
      f_equal; congruence.
Qed.

(** X25. What [encode_pgraph] wrote, cut anywhere inside the thumbnail
    bytes, is refused by [decode_pgraph] with the [ValueError] "Truncated
    g_features": the slice that comes back short does not raise by itself,
    the length check after it does. *)
Theorem decode_truncated_thumbnail g (j : nat) :
  decodable g -> (0 < j <= thumbnail_len g)%nat ->
  exists blob,
    encode_pgraph g = Return blob
    /\ decode_pgraph (take (length blob - j) blob)
       = Raise (ValueError "Truncated g_features").
Proof.
  intros Hg Hj. exists (graph_wire (mask_graph g)). split.
  { now rewrite encode_pgraph_outcome, decodable_encodable. }
  rewrite graph_wire_head.
  change (g_features (mask_graph g)) with (g_features g).
  fold (thumbnail_len g).
  set (feat := default [] (g_features g)).
  assert (Hfeat : length feat = thumbnail_len g) by reflexivity.
  rewrite length_app, Hfeat.
  replace (length (graph_head (mask_graph g)) + thumbnail_len g - j)%nat
    with (length (graph_head (mask_graph g)) + (thumbnail_len g - j))%nat
    by lia.
  rewrite take_app_add'. 2: reflexivity.
  rewrite decode_pgraph_head.
  - rewrite thumbnail_len_mask.
    destruct (Nat.eqb_spec (thumbnail_len g) 0); [lia|].
    destruct (Nat.ltb_spec (length (take (thumbnail_len g - j) feat))
                (thumbnail_len g)) as [|Hge]; [reflexivity|].
    rewrite length_take in Hge. lia.
  - now apply mask_graph_ok.
  - rewrite thumbnail_len_mask. apply Hg.
Qed.

Lemma decode_truncated_thumbnail_witness :
  exists blob,
    encode_pgraph out_of_range_graph = Return blob
    /\ decode_pgraph (take (length blob - 3) blob)
       = Raise (ValueError "Truncated g_features").
Proof.
  apply (decode_truncated_thumbnail out_of_range_graph 3).
  - unfold decodable. split; [reflexivity|]. split; [reflexivity|].
    split; [|vm_compute; split; [discriminate|reflexivity]].
    repeat constructor; vm_compute; discriminate.
  - vm_compute. split; apply le_n || (repeat constructor).
Defined.

End CodecMore.


(* ===================================================================== *)
(** * The builder *)
(* ===================================================================== *)

Section Builder.
Import GraphCore Ranges CodecSpec Memory BuilderSpec.


Lemma built_refl b : built b b.
Proof. split; auto. Qed.

Lemma set_thumbnail_cases f self :
  (set_thumbnail f self).2 = self
  \/ (thumbnail_arg_ok f /\ (set_thumbnail f self).2 = with_features self f).
Proof.
  unfold set_thumbnail. destruct f as [f|]; [|right; split; [exact I|reflexivity]].
  destruct (bool_decide (length f = 64%nat)) eqn:E1;
    destruct (bool_decide (length f = 128%nat)) eqn:E2; simpl; auto;
    right; split; try reflexivity;
    first [apply bool_decide_eq_true in E1; now left
          |apply bool_decide_eq_true in E2; now right].
Qed.

Lemma perform_built b0 b c : built b0 b -> built b0 (perform b c).
Proof.
  intros []. destruct c as [| |f]; simpl; [split; assumption..|].
  destruct (set_thumbnail_cases f b) as [->|[Hf ->]]; split; auto.
Qed.

Lemma perform_all_built cs : forall b0 b, built b0 b -> built b0 (perform_all b cs).
Proof.
  induction cs as [|c cs IH]; intros b0 b Hb; [exact Hb|].
  apply IH, perform_built, Hb.
Qed.

Lemma perform_nodes b c :
  _nodes (perform b c)
  = _nodes b ++
    match c with
    | AddNode n_type sub_type label_id span flags confidence features_ref =>
        [mkNode (Z.of_nat (length (_nodes b))) n_type sub_type features_ref
           span flags confidence label_id]
    | _ => []
    end.
Proof.
  destruct c as [| |f]; simpl; rewrite ?app_nil_r; try reflexivity.
  now destruct (set_thumbnail_cases f b) as [->|[_ ->]].
Qed.

Lemma perform_edges b c :
  _edges (perform b c)
  = _edges b ++
    match c with
    | AddEdge src_id dst_id e_type weight time flags confidence attr_ref =>
        [mkEdge src_id dst_id e_type weight time flags confidence attr_ref]
    | _ => []
    end.
Proof.
  destruct c as [| |f]; simpl; rewrite ?app_nil_r; try reflexivity.
  now destruct (set_thumbnail_cases f b) as [->|[_ ->]].
Qed.


Lemma perform_dense b c : dense (_nodes b) -> dense (_nodes (perform b c)).
Proof.
  intros Hd i n. rewrite perform_nodes.
  destruct (decide (i < length (_nodes b))%nat) as [Hi|Hi].
  - rewrite lookup_app_l by exact Hi. apply Hd.
  - rewrite lookup_app_r by lia. destruct c; try (now rewrite lookup_nil).
    destruct (i - length (_nodes b))%nat as [|j] eqn:E; simpl;
      [|now rewrite lookup_nil].
    intros [= <-]. simpl. f_equal. lia.
Qed.

Lemma perform_all_dense cs : forall b,
  dense (_nodes b) -> dense (_nodes (perform_all b cs)).
Proof.
  induction cs as [|c cs IH]; intros b Hb; [exact Hb|].
  apply IH, perform_dense, Hb.
Qed.

Lemma perform_all_counts cs : forall b,
  length (_nodes (perform_all b cs))
  = (length (_nodes b) + length (List.filter is_add_node cs))%nat
  /\ length (_edges (perform_all b cs))
     = (length (_edges b) + length (List.filter is_add_edge cs))%nat.
Proof.
  induction cs as [|c cs IH]; intros b; [simpl; lia|].
  change (perform_all b (c :: cs)) with (perform_all (perform b c) cs).
  destruct (IH (perform b c)) as [-> ->].
  rewrite perform_nodes, perform_edges, !length_app.
  destruct c; simpl; lia.
Qed.

(** X8. Whatever calls are made on a fresh [GraphBuilder], and whether or
    not some [set_thumbnail] among them raised, [finalize] gives a graph
    with the header of the constructor, counts that are the lengths of its
    lists, one node per [add_node] and one edge per [add_edge], node ids
    that are the positions in the node list, and a thumbnail that is the
    constructor's or else absent or of 64 or 128 bytes. *)
Theorem finalize_invariants graph_id schema_id graph_type source_id version f cs :
  let g := finalize (perform_all
             (GraphBuilder_init graph_id schema_id graph_type source_id
                version f) cs) in
  (GraphCore.graph_id g, GraphCore.schema_id g, GraphCore.graph_type g,
   GraphCore.source_id g, GraphCore.version g)
  = (graph_id, schema_id, graph_type, source_id, version)
  /\ num_nodes g = Z.of_nat (length (nodes g))
  /\ num_edges g = Z.of_nat (length (edges g))
  /\ length (nodes g) = length (List.filter is_add_node cs)
  /\ length (edges g) = length (List.filter is_add_edge cs)
  /\ (forall (i : nat) n, nodes g !! i = Some n -> node_id n = Z.of_nat i)
  /\ (g_features g = f \/ thumbnail_ok g).
Proof.
  cbn zeta.
  set (b0 := GraphBuilder_init graph_id schema_id graph_type source_id version f).
  destruct (perform_all_built cs b0 b0 (built_refl b0)) as [E1 E2 E3 E4 E5 E6].
  destruct (perform_all_counts cs b0) as [Hn He].
  unfold finalize, thumbnail_ok.
  cbn [GraphCore.graph_id GraphCore.schema_id GraphCore.graph_type
       GraphCore.source_id GraphCore.version num_nodes num_edges nodes edges
       g_features].
  rewrite E1, E2, E3, E4, E5.
  split; [reflexivity|]. split; [reflexivity|]. split; [reflexivity|].
  split; [exact Hn|]. split; [exact He|]. split; [|exact E6].
  apply perform_all_dense. intros i n. simpl. now rewrite lookup_nil.
Qed.

(** ** Graphs built within the ranges *)


Lemma perform_ok b c :
  call_ok c -> Z.of_nat (length (_nodes b)) < 2 ^ 70 ->
  builder_ok b -> builder_ok (perform b c).
Proof.
  intros Hc Hlen Hb.
  assert (Hh : built b (perform b c)) by apply perform_built, built_refl.
  destruct Hh as [E1 E2 E3 E4 E5 E6]. destruct Hb.
  split; rewrite ?E1, ?E2, ?E3, ?E4, ?E5; try assumption.
  - rewrite perform_nodes. apply Forall_app. split; [assumption|].
    destruct c; try constructor; [|constructor].
    destruct Hc. split; try assumption. simpl. unfold uvarint_ok. lia.
  - rewrite perform_edges. apply Forall_app. split; [assumption|].
    destruct c; try constructor; [|constructor]. exact Hc.
  - destruct E6 as [->|]; assumption.
Qed.

Lemma perform_all_ok cs : forall b,
  Forall call_ok cs ->
  Z.of_nat (length (_nodes b) + length cs) < 2 ^ 70 ->
  builder_ok b -> builder_ok (perform_all b cs).
Proof.
  induction cs as [|c cs IH]; intros b Hcs Hlen Hb; [exact Hb|].
  inversion Hcs; subst.
  change (perform_all b (c :: cs)) with (perform_all (perform b c) cs).
  apply IH; [assumption| |apply perform_ok; [assumption|simpl in Hlen; lia|assumption]].
  rewrite perform_nodes, length_app. simpl in *. destruct c; simpl; lia.
Qed.

Lemma finalize_fields_ok b :
  builder_ok b ->
  Z.of_nat (length (_nodes b)) < 2 ^ 70 ->
  Z.of_nat (length (_edges b)) < 2 ^ 70 ->
  fields_ok (finalize b) /\ thumbnail_ok (finalize b).
Proof.
  intros [] Hn He. split; [|assumption].
  split; simpl; try assumption; try reflexivity; unfold uvarint_ok; lia.
Qed.

Lemma thumbnail_ok_len g :
  thumbnail_ok g -> uvarint_ok (Z.of_nat (thumbnail_len g)).
Proof.
  unfold thumbnail_ok, thumbnail_len, uvarint_ok.
  destruct (g_features g) as [f|]; simpl; [intros [->| ->]|intros _]; lia.
Qed.

Lemma thumbnail_ok_read_back g :
  thumbnail_ok g -> with_g_features g (thumbnail_read_back g) = g.
Proof.
  unfold thumbnail_ok, thumbnail_read_back, with_g_features.
  destruct g as [? ? ? ? [[|? f]|] ? ? ? ? ?]; simpl; try reflexivity.
  intros [|]; discriminate.
Qed.

Lemma round_trip_of_ok g :
  fields_ok g -> thumbnail_ok g ->
  exists blob, encode_pgraph g = Return blob /\ decode_pgraph blob = Return g.
Proof.
  intros Hg Ht. exists (graph_wire g). split; [now apply encode_pgraph_wire|].
  rewrite decode_pgraph_wire; [|assumption|now apply thumbnail_ok_len].
  now rewrite thumbnail_ok_read_back.
Qed.

(** X9. A graph built through the [GraphBuilder] with arguments within the
    ranges of the wire format survives the codec unchanged: after fewer
    than 2^70 calls, of which those of [set_thumbnail] may have raised,
    [decode_pgraph(encode_pgraph(gb.finalize()))] is [gb.finalize()]. *)
Theorem built_graph_round_trips graph_id schema_id graph_type source_id version f cs :
  uvarint_ok graph_id -> byte_ok schema_id -> byte_ok graph_type ->
  uvarint_ok source_id -> uvarint_ok version -> thumbnail_arg_ok f ->
  Forall call_ok cs -> Z.of_nat (length cs) < 2 ^ 70 ->
  let g := finalize (perform_all
             (GraphBuilder_init graph_id schema_id graph_type source_id
                version f) cs) in
  exists blob, encode_pgraph g = Return blob /\ decode_pgraph blob = Return g.
Proof.
  intros H1 H2 H3 H4 H5 H6 Hcs Hlen. cbn zeta.
  set (b0 := GraphBuilder_init graph_id schema_id graph_type source_id version f).
  assert (Hb0 : builder_ok b0) by (split; simpl; auto).
  pose proof (perform_all_ok cs b0 Hcs ltac:(simpl; lia) Hb0) as Hb.
  destruct (perform_all_counts cs b0) as [Hn He]. simpl in Hn, He.
  pose proof (List.filter_length_le is_add_node cs).
  pose proof (List.filter_length_le is_add_edge cs).
  destruct (finalize_fields_ok _ Hb) as [Hf Ht]; [lia|lia|].
  now apply round_trip_of_ok.
Qed.

Lemma built_graph_round_trips_witness :
  let g := finalize (perform_all fresh_builder demo_calls) in
  exists blob, encode_pgraph g = Return blob /\ decode_pgraph blob = Return g.
Proof.
  apply (built_graph_round_trips 1 1 5 0 1 None demo_calls);
    try (vm_compute; split; [discriminate|reflexivity]);
    try exact I; try reflexivity.
  repeat apply Forall_cons_2; try apply Forall_nil_2; try exact I;
    split; vm_compute; split; first [discriminate | reflexivity].
Defined.

End Builder.


(* ===================================================================== *)
(** * Where the tokens lie, and their punctuation and number bits *)
(* ===================================================================== *)

Section TokenLayout.
Import Tokenizer Sentences TokenSpec Layout.
Context `{Unicode}.

Local Open Scope nat_scope.

(** ** The matches of [finditer] come in order *)

Lemma ordered_from_weaken ms : forall p p' n,
  p' <= p -> ordered_from p ms n -> ordered_from p' ms n.
Proof. destruct ms as [|m ms]; simpl; intros; [lia|intuition lia]. Qed.

Lemma ordered_from_le ms : forall p n, ordered_from p ms n -> p <= n.
Proof.
  induction ms as [|m ms IH]; simpl; intros p n; [lia|].
  intros (? & ? & Hrest). apply IH in Hrest. lia.
Qed.

Lemma finditer_from_ordered l : forall pos skip,
  skip <= length l ->
  ordered_from (pos + skip) (finditer_from l pos skip) (pos + length l).
Proof.
  induction l as [|c l IH]; intros pos skip Hs; simpl in *; [lia|].
  destruct skip as [|sk].
  - destruct (_MASTER (c :: l)) as [[kind len]|] eqn:HM.
    + apply _MASTER_bound in HM. simpl in HM. simpl.
      split; [lia|]. split; [lia|].
      replace (pos + len) with (S pos + (len - 1)) by lia.
      replace (pos + S (length l)) with (S pos + length l) by lia.
      apply IH. lia.
    + apply (ordered_from_weaken _ (S pos + 0)); [lia|].
      replace (pos + S (length l)) with (S pos + length l) by lia.
      apply IH. lia.
  - replace (pos + S sk) with (S pos + sk) by lia.
    replace (pos + S (length l)) with (S pos + length l) by lia.
    apply IH. lia.
Qed.

(** ** The first loop *)

Lemma in_order_snoc toks t bound :
  in_order toks ->
  (forall k t0, toks !! k = Some t0 -> end_ t0 <= bound) ->
  bound <= start t ->
  in_order (toks ++ [t]).
Proof.
  intros Hord Hend Hb k t1 t2 H1 H2.
  destruct (decide (S k < length toks)) as [Hk|Hk].
  - rewrite lookup_app_l in H1, H2 by lia. eauto.
  - assert (Hk1 : k < length toks).
    { apply lookup_lt_Some in H2. rewrite length_app in H2. simpl in H2.
      lia. }
    rewrite lookup_app_l in H1 by lia.
    rewrite lookup_app_r in H2 by lia.
    replace (S k - length toks) with 0 in H2 by lia. injection H2 as <-.
    apply Hend in H1. lia.
Qed.

(** What holds of the local variables while the text is scanned. *)
Lemma scan_fold_layout txt ms : forall st p,
  ordered_from p ms (length txt) -> i st <= p ->
  idx_ st = length (tokens st) ->
  (forall k t, tokens st !! k = Some t -> placed txt k t /\ end_ t <= i st) ->
  in_order (tokens st) ->
  let st' := foldl (scan_step txt) st ms in
  idx_ st' = length (tokens st')
  /\ (forall k t, tokens st' !! k = Some t -> placed txt k t /\ end_ t <= i st')
  /\ in_order (tokens st')
  /\ i st' <= length txt.
Proof.
  induction ms as [|m ms IH]; intros st p Hms Hi Hidx Hpl Hord; cbn zeta.
  - simpl in *. repeat split; auto; try apply Hpl; try lia; eauto.
    all: try (eapply Hpl; eassumption).
  - destruct Hms as (Hp & Hse & Hrest). simpl.
    pose proof (ordered_from_le _ _ _ Hrest) as Hen.
    apply (IH _ (m_end m)); [exact Hrest|now rewrite scan_step_i|..];
      unfold scan_step; case_bool_decide as Hws; cbn [idx_ tokens i].
    + exact Hidx.
    + rewrite length_app. simpl. lia.
    + intros k t Ht. destruct (Hpl k t Ht). split; [assumption|lia].
    + intros k t Ht.
      destruct (decide (k < length (tokens st))) as [Hk|Hk].
      * rewrite lookup_app_l in Ht by lia.
        destruct (Hpl k t Ht). split; [assumption|lia].
      * rewrite lookup_app_r in Ht by lia.
        destruct (k - length (tokens st)) as [|j] eqn:E; simpl in Ht;
          [|now rewrite lookup_nil in Ht].
        injection Ht as <-. unfold placed. cbn [idx start end_ text].
        repeat split; lia.
    + exact Hord.
    + apply (in_order_snoc _ _ (i st)); [exact Hord| |simpl; lia].
      intros k t0 Ht0. now destruct (Hpl k t0 Ht0).
Qed.

Lemma scan_layout txt :
  (forall k t, tokens (scan txt) !! k = Some t -> placed txt k t)
  /\ in_order (tokens (scan txt)).
Proof.
  unfold scan.
  destruct (scan_fold_layout txt (finditer txt) (mkLocals [] 0 0 []) 0)
    as (Hidx & Hpl & Hord & Hi); simpl.
  - apply (finditer_from_ordered txt 0 0). lia.
  - lia.
  - reflexivity.
  - intros k t. now rewrite lookup_nil.
  - intros k t t'. now rewrite lookup_nil.
  - set (st := foldl (scan_step txt) (mkLocals [] 0 0 []) (finditer txt)) in *.
    unfold fallback. destruct (Nat.ltb_spec (i st) (length txt)) as [Hlt|Hge].
    + cbn [tokens]. split.
      * intros k t Ht.
        destruct (decide (k < length (tokens st))) as [Hk|Hk].
        -- rewrite lookup_app_l in Ht by lia. now destruct (Hpl k t Ht).
        -- rewrite lookup_app_r in Ht by lia.
           destruct (k - length (tokens st)) as [|j] eqn:E; simpl in Ht;
             [|now rewrite lookup_nil in Ht].
           injection Ht as <-. unfold placed. cbn [idx start end_ text].
           split; [lia|]. split; [lia|].
           rewrite take_ge; [reflexivity|]. rewrite length_drop. lia.
      * apply (in_order_snoc _ _ (i st)); [exact Hord| |simpl; lia].
        intros k t0 Ht0. now destruct (Hpl k t0 Ht0).
    + split; [|exact Hord]. intros k t Ht. now destruct (Hpl k t Ht).
Qed.

Lemma tokenize_lookup txt k t :
  tokenize txt !! k = Some t ->
  exists t0, tokens (scan txt) !! k = Some t0 /\ end_flags_only t0 t.
Proof.
  unfold tokenize. rewrite tokenize_passes. simpl. intros Ht.
  destruct (end_flags_only_lookup_r _ _ _ _
              (pass_end_flags_only (kinds (scan txt)) (tokens (scan txt))) Ht)
    as (t0 & H0 & _ & Hrel). eauto.
Qed.

Lemma tokenize_placed txt k t : tokenize txt !! k = Some t -> placed txt k t.
Proof.
  intros Ht. destruct (tokenize_lookup txt k t Ht) as (t0 & H0 & Hrel).
  destruct (proj1 (scan_layout txt) k t0 H0) as (Hi & Hse & Htx).
  destruct Hrel as (E1 & E2 & E3 & E4 & _).
  unfold placed. rewrite E1, E2, E3, E4. auto.
Qed.

Lemma tokenize_in_order txt : in_order (tokenize txt).
Proof.
  intros k t t' Ht Ht'.
  destruct (tokenize_lookup txt k t Ht) as (t0 & H0 & Hrel).
  destruct (tokenize_lookup txt (S k) t' Ht') as (t0' & H0' & Hrel').
  pose proof (proj2 (scan_layout txt) k t0 t0' H0 H0') as Hle.
  destruct Hrel as (_ & _ & _ & E4 & _). destruct Hrel' as (_ & _ & E3 & _).
  lia.
Qed.

(** X10. Every token of [tokenize(text)] carries its position in the list
    as [idx], is not empty, lies inside the text, holds exactly the
    characters [text[start:end]], and ends no later than the next token
    starts: the tokens are slices of the text, in order and without
    overlap. *)
Theorem tokenize_layout txt k t :
  tokenize txt !! k = Some t ->
  idx t = k
  /\ start t < end_ t <= length txt
  /\ text t = take (end_ t - start t) (drop (start t) txt)
  /\ length (text t) = end_ t - start t
  /\ (forall t', tokenize txt !! S k = Some t' -> end_ t <= start t').
Proof.
  intros Ht. destruct (tokenize_placed txt k t Ht) as (Hi & Hse & Htx).
  split; [exact Hi|]. split; [exact Hse|]. split; [exact Htx|]. split.
  - rewrite Htx, length_take, length_drop. lia.
  - intros t' Ht'. exact (tokenize_in_order txt k t t' Ht Ht').
Qed.

(** The tokens are at most as many as the characters. *)
Lemma placed_from_index txt : forall k t,
  tokenize txt !! k = Some t -> k <= start t.
Proof.
  induction k as [|k IH]; intros t Ht; [lia|].
  destruct (lookup_lt_is_Some_2 (tokenize txt) k) as [t0 Ht0].
  { apply lookup_lt_Some in Ht. lia. }
  pose proof (IH t0 Ht0).
  destruct (tokenize_placed txt k t0 Ht0) as (_ & ? & _).
  pose proof (tokenize_in_order txt k t0 t Ht0 Ht). lia.
Qed.

Lemma tokenize_length txt : length (tokenize txt) <= length txt.
Proof.
  destruct (snoc_case (tokenize txt)) as [->|(l & t & E)]; [simpl; lia|].
  assert (Ht : tokenize txt !! length l = Some t).
  { rewrite E. rewrite lookup_app_r by lia. now rewrite Nat.sub_diag. }
  pose proof (placed_from_index txt _ _ Ht).
  destruct (tokenize_placed txt _ _ Ht) as (_ & ? & _).
  rewrite E, length_app. simpl. lia.
Qed.

(** ** The punctuation and number bits *)

Lemma match_flags_kind_bits kd piece idx s e :
  kd <> WS -> kind_bits (mkToken idx piece s e (match_flags kd piece)) kd.
Proof.
  intros Hws. unfold kind_bits, match_flags. cbn [flags text].
  destruct kd; try congruence; clear Hws;
  destruct (existsb isdigit piece), (existsb isalpha piece),
    (first_isupper piece); repeat split; try reflexivity;
    vm_compute; first [reflexivity | discriminate].
Qed.

Lemma scan_fold_kind_bits txt ms : forall st,
  Forall2 kind_bits (tokens st) (kinds st) ->
  Forall2 kind_bits (tokens (foldl (scan_step txt) st ms))
    (kinds (foldl (scan_step txt) st ms)).
Proof.
  induction ms as [|m ms IH]; intros st Hst; simpl; [exact Hst|].
  apply IH. unfold scan_step. case_bool_decide as Hws; [exact Hst|]. simpl.
  apply Forall2_app; [exact Hst|]. apply Forall2_cons_2; [|constructor].
  apply match_flags_kind_bits, Hws.
Qed.

Lemma scan_kind_bits txt :
  Forall2 kind_bits (tokens (scan txt)) (kinds (scan txt)).
Proof.
  unfold scan.
  pose proof (scan_fold_kind_bits txt (finditer txt) (mkLocals [] 0 0 [])
                ltac:(constructor)) as Hst.
  set (st := foldl (scan_step txt) (mkLocals [] 0 0 []) (finditer txt)) in *.
  unfold fallback. destruct (i st <? length txt); [|exact Hst].
  simpl. apply Forall2_app; [exact Hst|]. apply Forall2_cons_2; [|constructor].
  unfold kind_bits. cbn [flags text].
  destruct (existsb isdigit (drop (i st) txt)),
    (negb (bool_decide (drop (i st) txt = [])) && existsb isalpha (drop (i st) txt)
     && first_isupper (drop (i st) txt));
    repeat split; try reflexivity; vm_compute; first [reflexivity | discriminate].
Qed.

Lemma small_flags_bits f :
  (0 <= f < 32)%Z <-> (forall b, (5 <= b)%Z -> Z.testbit f b = false).
Proof.
  split.
  - intros [H0 H1] b Hb.
    destruct (Z.eq_dec f 0%Z) as [->|Hne]; [apply Z.bits_0|].
    apply Z.bits_above_log2; [lia|].
    assert (Z.log2 f < 5)%Z; [|lia].
    apply Z.log2_lt_pow2; [lia|]. exact H1.
  - intros Hb.
    assert (H0 : (0 <= f)%Z).
    { apply Z.bits_iff_nonneg_ex. exists 5%Z. intros m Hm. apply Hb. lia. }
    split; [exact H0|].
    destruct (Z.lt_ge_cases f 32%Z) as [|Hge]; [assumption|exfalso].
    assert (Hlog : (5 <= Z.log2 f)%Z).
    { change 5%Z with (Z.log2 32%Z). now apply Z.log2_le_mono. }
    pose proof (Z.bit_log2 f ltac:(lia)) as Hbit.
    rewrite Hb in Hbit by exact Hlog. discriminate.
Qed.

Lemma end_flags_only_kind_bits t t' kd :
  end_flags_only t t' -> kind_bits t kd -> kind_bits t' kd.
Proof.
  intros (_ & Etx & _ & _ & Hb & _) (H1 & H2 & Hr).
  unfold kind_bits. rewrite Etx, !Hb by lia.
  split; [exact H1|]. split; [exact H2|].
  apply small_flags_bits. intros b Hb5. rewrite Hb by lia.
  now apply small_flags_bits.
Qed.

(** X11. In [tokenize(text)] the punctuation flag marks exactly the tokens
    matched as punctuation or as an ellipsis, the number flag exactly the
    other tokens that contain a digit (words, URLs, emails, handles and the
    fallback piece), and no flag beyond the five declared is ever set; the
    list [kinds] is as long as the token list. *)
Theorem tokenize_kind_flags txt :
  Forall2 (fun t kd =>
     has_flag TF_PUNCT t = bool_decide (kd ∈ [PUNCT; ELLIPSIS])
     /\ has_flag TF_NUM t
        = negb (bool_decide (kd ∈ [PUNCT; ELLIPSIS]))
          && existsb isdigit (text t)
     /\ (0 <= flags t < 32)%Z)
    (tokenize_kinds txt).1 (tokenize_kinds txt).2.
Proof.
  rewrite tokenize_passes. cbn [fst snd].
  pose proof (pass_end_flags_only (kinds (scan txt)) (tokens (scan txt))) as Hp.
  pose proof (scan_kind_bits txt) as Hs.
  apply Forall2_same_length_lookup_2.
  - apply Forall2_length in Hp, Hs. lia.
  - intros k t kd Ht Hkd.
    destruct (Forall2_lookup_r _ _ _ _ _ Hp Ht) as (t0 & H0 & Hrel).
    pose proof (Forall2_lookup_lr _ _ _ _ _ _ Hs H0 Hkd) as Hkb.
    destruct (end_flags_only_kind_bits _ _ _ Hrel Hkb) as (H1 & H2 & H3).
    unfold TF_PUNCT, TF_NUM. rewrite !has_flag_testbit by lia. auto.
Qed.

End TokenLayout.

Section TokenLayoutExamples.
Import Tokenizer Sentences TokenSpec Layout Spans.

Lemma tokenize_layout_witness :
  let t := mkToken 1 (lit "...") 4 7 18 in
  idx t = 1%nat
  /\ (start t < end_ t <= length okay_i_guess)%nat
  /\ text t = take (end_ t - start t) (drop (start t) okay_i_guess)
  /\ length (text t) = (end_ t - start t)%nat
  /\ (forall t', tokenize (H := basic_latin) okay_i_guess !! 2%nat = Some t' ->
        (end_ t <= start t')%nat).
Proof.
  apply (tokenize_layout (H := basic_latin) okay_i_guess 1). reflexivity.
Defined.

End TokenLayoutExamples.


(* ===================================================================== *)
(** * The graph of a text *)
(* ===================================================================== *)

Section TokenGraphs.
Import GraphCore Ranges Tokenizer Sentences TokenGraph BuilderSpec Layout.

(** ** The two loops of [tokens_to_graph] in closed form *)

Lemma with_nodes_same gb : with_nodes gb (_nodes gb) = gb.
Proof. now destruct gb. Qed.

Lemma with_edges_same gb : with_edges gb (_edges gb) = gb.
Proof. now destruct gb. Qed.

Lemma node_fold toks : forall gb ids,
  foldl node_step (gb, ids) toks
  = (with_nodes gb
       (_nodes gb
        ++ imap (fun j => token_node (length (_nodes gb) + j)) toks),
     ids ++ map Z.of_nat (seq (length (_nodes gb)) (length toks))).
Proof.
  induction toks as [|t toks IH]; intros gb ids.
  - simpl. now rewrite !app_nil_r, with_nodes_same.
  - cbn [foldl]. unfold node_step at 2, add_node. cbv beta iota zeta.
    rewrite IH. cbn [with_nodes _nodes length seq map imap].
    rewrite length_app, <- !app_assoc. cbn [length app].
    f_equal.
    + unfold with_nodes. cbn [_graph_id _graph_type _source_id _version
        _schema_id _nodes _edges _features]. f_equal. f_equal.
      rewrite Nat.add_0_r. f_equal. apply imap_ext. intros j x _.
      simpl. f_equal. lia.
    + rewrite Nat.add_1_r. reflexivity.
Qed.

Lemma edge_fold pairs : forall gb,
  foldl edge_step gb pairs
  = with_edges gb
      (_edges gb
       ++ map (fun ab : Z * Z =>
                 mkEdge ab.1 ab.2 EdgeType_NEXT 255 0 EF_DIRECTED 255 0)
            pairs).
Proof.
  induction pairs as [|ab pairs IH]; intros gb.
  - simpl. now rewrite app_nil_r, with_edges_same.
  - cbn [foldl]. rewrite IH. unfold edge_step, add_edge. cbn [snd map].
    unfold with_edges. cbn [_graph_id _graph_type _source_id _version
      _schema_id _nodes _edges _features]. now rewrite <- app_assoc.
Qed.

Lemma zip_with_next n : forall a,
  zip (map Z.of_nat (seq a (S n))) (map Z.of_nat (seq (S a) n))
  = map (fun k => (Z.of_nat k, Z.of_nat k + 1)) (seq a n).
Proof.
  induction n as [|n IH]; intros a; [reflexivity|].
  cbn [seq map zip_with].
  f_equal; [f_equal; lia|]. apply (IH (S a)).
Qed.

Lemma zip_ids n :
  zip (map Z.of_nat (seq 0 n)) (drop 1 (map Z.of_nat (seq 0 n)))
  = map (fun k => (Z.of_nat k, Z.of_nat k + 1)) (seq 0 (n - 1)).
Proof.
  destruct n as [|n]; [reflexivity|].
  replace (S n - 1)%nat with n by lia. rewrite <- zip_with_next.
  reflexivity.
Qed.

Lemma graph_of_tokens_closed toks graph_id source_id version :
  graph_of_tokens toks graph_id source_id version
  = token_graph toks graph_id source_id version.
Proof.
  unfold graph_of_tokens. rewrite node_fold. cbv beta iota zeta.
  rewrite edge_fold. unfold GraphBuilder_init.
  cbn [_nodes _edges app length Nat.add with_nodes].
  rewrite zip_ids, map_map.
  unfold finalize, token_graph, with_edges, with_nodes.
  cbn [_graph_id _graph_type _source_id _version _schema_id _nodes _edges
       _features app].
  rewrite length_imap, length_map, length_seq. reflexivity.
Qed.

(** X12. [tokens_to_graph(text)] is the graph with one token node per token
    of [tokenize(text)], in order, whose id is its position and whose span
    is the token's character span, and one directed NEXT edge from each
    node to the following one: as many nodes as tokens, one edge fewer
    (none for an empty token list), no thumbnail, schema WRITING, type
    HETERO, and the ids and version given. *)
Theorem tokens_to_graph_closed `{Unicode} text graph_id source_id version :
  let g := tokens_to_graph text graph_id source_id version in
  let toks := tokenize text in
  g = token_graph toks graph_id source_id version
  /\ (forall k t, toks !! k = Some t -> nodes g !! k = Some (token_node k t))
  /\ (forall k : nat, (S k < length toks)%nat ->
        edges g !! k = Some (next_edge k))
  /\ length (nodes g) = length toks
  /\ length (edges g) = (length toks - 1)%nat.
Proof.
  cbn zeta. unfold tokens_to_graph. rewrite graph_of_tokens_closed.
  split; [reflexivity|]. cbn [token_graph nodes edges].
  split; [|split; [|split]].
  - intros k t Ht. now rewrite list_lookup_imap, Ht.
  - intros k Hk. rewrite list_lookup_fmap, lookup_seq_lt by lia. reflexivity.
  - apply length_imap.
  - now rewrite length_map, length_seq.
Qed.

(** ** The graph of a text is within the ranges of the wire format *)

Lemma node_flags_range t : 0 <= node_flags t < 256.
Proof.
  unfold node_flags.
  destruct (has_flag TF_PUNCT t), (has_flag TF_CAP t),
    (has_flag TF_SENT_END_STRONG t), (has_flag TF_SENT_END_WEAK t);
    vm_compute; split; first [discriminate | reflexivity].
Qed.

Lemma token_graph_ok `{Unicode} text graph_id source_id version :
  uvarint_ok graph_id -> uvarint_ok source_id -> uvarint_ok version ->
  Z.of_nat (length text) < 2 ^ 70 ->
  fields_ok (token_graph (tokenize text) graph_id source_id version).
Proof.
  intros Hg Hs Hv Hlen. pose proof (tokenize_length text) as Hn.
  assert (Hsmall : forall k : nat, (k <= length text)%nat ->
            uvarint_ok (Z.of_nat k)) by (intros k Hk; unfold uvarint_ok; lia).
  split; cbn [token_graph GraphCore.graph_id graph_type num_nodes num_edges
              GraphCore.source_id GraphCore.version schema_id nodes edges];
    try assumption.
  - vm_compute. split; [discriminate|reflexivity].
  - now rewrite length_imap.
  - now rewrite length_map, length_seq.
  - apply Hsmall. exact Hn.
  - apply Hsmall. lia.
  - vm_compute. split; [discriminate|reflexivity].
  - apply Forall_lookup_2. intros k n. rewrite list_lookup_imap.
    destruct (tokenize text !! k) as [t|] eqn:Ht; [|discriminate].
    intros [= <-].
    destruct (tokenize_placed text k t Ht) as (_ & Hse & _).
    apply lookup_lt_Some in Ht.
    pose proof (node_flags_range t) as Hf.
    split; cbn [token_node node_id n_type sub_type features_ref span fst snd
                n_flags n_confidence label_id];
      try (apply Hsmall; lia);
      try (unfold uvarint_ok, byte_ok, u16_ok, NodeType_TOKEN; lia).
  - apply Forall_lookup_2. intros k e. rewrite list_lookup_fmap.
    destruct (seq 0 (length (tokenize text) - 1) !! k) as [j|] eqn:Hj;
      [|discriminate].
    intros [= <-]. apply lookup_seq in Hj as [-> Hk].
    split; cbn [next_edge src_id dst_id e_type weight time e_flags
                e_confidence attr_ref];
      try (unfold uvarint_ok; lia);
      vm_compute; split; first [discriminate | reflexivity].
Qed.

(** X13. The graph of any text of fewer than 2^70 characters, with a graph
    id, source id and version that fit a varint, goes through the codec
    unchanged: [decode_pgraph(encode_pgraph(tokens_to_graph(text)))] is
    [tokens_to_graph(text)].  Ids, spans and flags of its nodes are always
    within the ranges of the wire format. *)
Theorem tokens_to_graph_round_trips `{Unicode} text graph_id source_id version :
  uvarint_ok graph_id -> uvarint_ok source_id -> uvarint_ok version ->
  Z.of_nat (length text) < 2 ^ 70 ->
  let g := tokens_to_graph text graph_id source_id version in
  exists blob, encode_pgraph g = Return blob /\ decode_pgraph blob = Return g.
Proof.
  intros Hg Hs Hv Hlen. cbn zeta.
  unfold tokens_to_graph. rewrite graph_of_tokens_closed.
  apply round_trip_of_ok; [now apply token_graph_ok|exact I].
Qed.

End TokenGraphs.

Section TokenGraphExamples.
Import GraphCore Ranges Tokenizer Sentences TokenGraph BuilderSpec Spans.

Lemma tokens_to_graph_round_trips_witness :
  let g := tokens_to_graph (H := basic_latin) okay_i_guess 0 0 1 in
  exists blob, encode_pgraph g = Return blob /\ decode_pgraph blob = Return g.
Proof.
  apply (tokens_to_graph_round_trips (H := basic_latin) okay_i_guess 0 0 1);
    vm_compute; first [reflexivity | split; [discriminate|reflexivity]].
Defined.

End TokenGraphExamples.


(* ===================================================================== *)
(** * Where sentences end, and their character spans *)
(* ===================================================================== *)

Section SentenceEnds.
Import GraphCore Tokenizer Sentences Spans TokenSpec Layout Boundaries.
Import TokenGraph Segment BuilderSpec.

Local Open Scope nat_scope.

(** ** The strong rule *)

Lemma absorb_closers_run rest : forall e j,
  exists w,
    absorb_closers rest e j = ((if w =? 0 then e else j + w - 1), j + w)
    /\ w <= length rest
    /\ (forall i t, i < w -> rest !! i = Some t ->
          has_flag TF_SENT_END_WEAK t = true)
    /\ (forall t, rest !! w = Some t -> has_flag TF_SENT_END_WEAK t = false).
Proof.
  induction rest as [|t rest IH]; intros e j.
  - exists 0. simpl. rewrite Nat.add_0_r.
    split; [reflexivity|]. split; [lia|]. split; [intros; lia|].
    intros t Ht. discriminate Ht.
  - simpl. destruct (has_flag TF_SENT_END_WEAK t) eqn:Hw.
    + destruct (IH j (S j)) as (w & E & Hl & Hall & Hnext).
      exists (S w). rewrite E. split.
      { destruct w; simpl; f_equal; lia. }
      split; [lia|]. split.
      * intros [|i] t' Hi Ht'; simpl in Ht'; [congruence|].
        apply (Hall i); [lia|exact Ht'].
      * intros t' Ht'. simpl in Ht'. auto.
    + exists 0. simpl. rewrite Nat.add_0_r.
      split; [reflexivity|]. split; [lia|]. split; [intros; lia|].
      intros t' [= <-]. exact Hw.
Qed.

(** X14. At a token flagged as a strong sentence end the loop of
    [segment_tokens] always closes the sentence, and it closes it after the
    run of weak-flagged tokens that follow immediately: the span ends after
    [w] more tokens, all flagged weak, and the token after them, if there
    is one, is not flagged weak; the scan goes on from there. *)
Theorem strong_rule tokens spans s k t :
  tokens !! k = Some t ->
  has_flag TF_SENT_END_STRONG t = true ->
  exists w,
    seg_step tokens (length tokens) (spans, s, k)
    = Return (spans ++ [(s, k + 1 + w)], k + 1 + w, k + 1 + w)
    /\ k + 1 + w <= length tokens
    /\ (forall i t', i < w -> tokens !! (k + 1 + i) = Some t' ->
          has_flag TF_SENT_END_WEAK t' = true)
    /\ (forall t', tokens !! (k + 1 + w) = Some t' ->
          has_flag TF_SENT_END_WEAK t' = false).
Proof.
  intros Ht Hs. unfold seg_step. rewrite (item_lookup _ _ _ Ht).
  cbn [mbind outcome_bind]. rewrite Hs.
  destruct (absorb_closers_run (drop (k + 1) tokens) k (k + 1))
    as (w & -> & Hl & Hall & Hnext).
  exists w. rewrite length_drop in Hl. apply lookup_lt_Some in Ht.
  split.
  { replace ((if w =? 0 then k else k + 1 + w - 1) + 1) with (k + 1 + w)
      by (destruct w; simpl; lia). reflexivity. }
  split; [lia|]. split.
  - intros i t' Hi Ht'. apply (Hall i); [exact Hi|].
    now rewrite lookup_drop.
  - intros t' Ht'. apply Hnext. now rewrite lookup_drop.
Qed.

(** ** Every sentence but the last ends at a flagged token *)

Lemma seg_step_ends tokens spans s k spans' s' k' :
  Forall (ends_flagged tokens) spans ->
  seg_step tokens (length tokens) (spans, s, k) = Return (spans', s', k') ->
  Forall (ends_flagged tokens) spans'.
Proof.
  intros Hsp. unfold seg_step.
  destruct (tokens !! k) as [t|] eqn:Ht.
  2:{ assert (E : item tokens k = Raise (IndexError "list index out of range"))
        by (unfold item; now rewrite Ht).
      rewrite E. discriminate. }
  rewrite (item_lookup _ _ _ Ht). cbn [mbind outcome_bind].
  destruct (has_flag TF_SENT_END_STRONG t) eqn:Hs.
  - destruct (absorb_closers_run (drop (k + 1) tokens) k (k + 1))
      as (w & -> & Hl & Hall & _).
    intros [= <- <- <-]. apply Forall_app. split; [exact Hsp|].
    apply Forall_cons_2; [|constructor]. unfold ends_flagged. cbn [snd].
    destruct w as [|w]; simpl.
    + exists t. replace (k + 1 - 1) with k by lia. split; [exact Ht|].
      split; [lia|]. now left.
    + destruct (lookup_lt_is_Some_2 (drop (k + 1) tokens) w ltac:(lia))
        as [t' Ht'].
      exists t'. split.
      * rewrite lookup_drop in Ht'. rewrite <- Ht'. f_equal. lia.
      * split; [lia|]. right. apply (Hall w); [lia|exact Ht'].
  - destruct (has_flag TF_SENT_END_WEAK t && is_ellipsis (text t)) eqn:Hw.
    + destruct (ellipsis_decision tokens k) as (b & -> & _).
      cbn [mbind outcome_bind]. destruct b; intros [= <- <- <-];
        [|exact Hsp].
      apply Forall_app. split; [exact Hsp|].
      apply Forall_cons_2; [|constructor]. exists t. cbn [snd].
      replace (k + 1 - 1) with k by lia. split; [exact Ht|].
      split; [lia|]. right. now apply andb_true_iff in Hw as [? _].
    + cbn [mbind outcome_bind]. intros [= <- <- <-]. exact Hsp.
Qed.

Lemma seg_loop_ends tokens fuel : forall spans s k spans' s' k',
  Forall (ends_flagged tokens) spans ->
  seg_loop fuel tokens (length tokens) (spans, s, k)
  = Return (spans', s', k') ->
  Forall (ends_flagged tokens) spans'.
Proof.
  induction fuel as [|fuel IH]; intros spans s k spans' s' k' Hsp;
    cbn [seg_loop]; destruct (k <? length tokens).
  - discriminate.
  - now intros [= <- <- <-].
  - destruct (seg_step tokens (length tokens) (spans, s, k))
      as [[[spans1 s1] k1]| |] eqn:E; cbn [mbind outcome_bind];
      try discriminate.
    apply IH. eapply seg_step_ends; eassumption.
  - now intros [= <- <- <-].
Qed.

Lemma segment_tokens_loop tokens :
  tokens <> [] ->
  exists spans s,
    seg_loop (length tokens) tokens (length tokens) ([], 0, 0)
    = Return (spans, s, length tokens)
    /\ chain 0 spans s /\ s <= length tokens
    /\ Forall (ends_flagged tokens) spans
    /\ segment_tokens tokens
       = Return (if s <? length tokens then spans ++ [(s, length tokens)]
                 else spans).
Proof.
  intros Hne.
  destruct (seg_loop_inv tokens (length tokens) [] 0 0) as
    (spans & s & E & Hc & Hs); [reflexivity|lia|lia|].
  exists spans, s. split; [exact E|]. split; [exact Hc|]. split; [exact Hs|].
  split; [eapply seg_loop_ends; [constructor|exact E]|].
  unfold segment_tokens.
  destruct tokens as [|t tokens]; [congruence|].
  change (length (t :: tokens) =? 0) with false. cbv iota.
  rewrite E. reflexivity.
Qed.

Lemma segment_tokens_chain tokens :
  exists spans,
    segment_tokens tokens = Return spans /\ chain 0 spans (length tokens).
Proof.
  destruct tokens as [|t tokens]; [exists []; split; reflexivity|].
  destruct (segment_tokens_loop (t :: tokens) ltac:(discriminate))
    as (spans & s & _ & Hc & Hs & _ & ->).
  eexists. split; [reflexivity|].
  destruct (Nat.ltb_spec s (length (t :: tokens))) as [Hlt|Hge].
  - now apply chain_snoc.
  - now replace (length (t :: tokens)) with s by lia.
Qed.

Lemma unflagged_not_ends tokens span :
  unflagged tokens -> ~ ends_flagged tokens span.
Proof.
  intros Hu (t & Ht & _ & Hf). unfold unflagged in Hu.
  rewrite Forall_lookup in Hu. destruct (Hu _ _ Ht) as [H1 H2].
  destruct Hf; congruence.
Qed.

(** X15. [segment_tokens] ends a sentence only at a flag: every span it
    returns for a non-empty token list either runs to the end of the list
    or ends right after a token flagged as a strong or weak sentence end.
    Tokens without any such flag therefore form the single span
    [(0, len(tokens))]. *)
Theorem spans_end_at_flags tokens :
  tokens <> [] ->
  exists spans,
    segment_tokens tokens = Return spans
    /\ (forall p span, spans !! p = Some span ->
          snd span = length tokens \/ ends_flagged tokens span)
    /\ (unflagged tokens -> spans = [(0, length tokens)]).
Proof.
  intros Hne.
  destruct (segment_tokens_loop tokens Hne)
    as (spans & s & _ & Hc & Hs & Hends & ->).
  eexists. split; [reflexivity|]. split.
  - intros p span Hp. rewrite Forall_lookup in Hends.
    destruct (s <? length tokens).
    + destruct (decide (p < length spans)) as [Hlt|Hge].
      * rewrite lookup_app_l in Hp by lia. right. eauto.
      * rewrite lookup_app_r in Hp by lia.
        destruct (p - length spans) as [|j]; simpl in Hp;
          [|now rewrite lookup_nil in Hp].
        injection Hp as <-. now left.
    + right. eauto.
  - intros Hu. destruct spans as [|span spans].
    + simpl in Hc. subst s.
      destruct (Nat.ltb_spec 0 (length tokens)) as [|Hz]; [reflexivity|].
      destruct tokens; [congruence|simpl in Hz; lia].
    + exfalso. inversion Hends as [|? ? Hx _]; subst.
      exact (unflagged_not_ends tokens span Hu Hx).
Qed.

(** ** Character spans *)

Section WithUnicode.
Context `{Unicode}.

Lemma token_ends_mono txt : forall d i ti tj,
  tokenize txt !! i = Some ti -> tokenize txt !! (i + d) = Some tj ->
  end_ ti <= end_ tj /\ (0 < d -> end_ ti <= start tj).
Proof.
  induction d as [|d IH]; intros i ti tj Hi Hj.
  - rewrite Nat.add_0_r in Hj. assert (ti = tj) as -> by congruence.
    split; lia.
  - destruct (lookup_lt_is_Some_2 (tokenize txt) (i + d)) as [tm Hm].
    { apply lookup_lt_Some in Hj. lia. }
    destruct (IH i ti tm Hi Hm) as [Hle _].
    replace (i + S d) with (S (i + d)) in Hj by lia.
    pose proof (tokenize_in_order txt _ _ _ Hm Hj).
    destruct (tokenize_placed txt _ _ Hj) as (_ & ? & _).
    split; intros; lia.
Qed.

Lemma char_spans_fold txt spans : forall p out,
  chain p spans (length (tokenize txt)) ->
  exists cs,
    for_each (char_span_step (tokenize txt)) spans out = Return (out ++ cs)
    /\ Forall2 (fun sp c => char_span (tokenize txt) sp = Some c) spans cs.
Proof.
  induction spans as [|[lo hi] spans IH]; intros p out Hc.
  - exists []. simpl. rewrite app_nil_r. split; [reflexivity|constructor].
  - destruct Hc as (<- & Hlt & Hc). pose proof (chain_le _ _ _ Hc) as Hhi.
    destruct (lookup_lt_is_Some_2 (tokenize txt) lo ltac:(lia)) as [ta Ha].
    destruct (lookup_lt_is_Some_2 (tokenize txt) (hi - 1) ltac:(lia))
      as [tb Hb].
    cbn [for_each]. unfold char_span_step at 2.
    destruct (Nat.leb_spec hi lo); [lia|].
    rewrite (item_lookup _ _ _ Ha), (item_lookup _ _ _ Hb).
    cbn [mbind outcome_bind].
    destruct (IH hi (out ++ [(start ta, end_ tb)]) Hc) as (cs & -> & Hcs).
    exists ((start ta, end_ tb) :: cs). split.
    + now rewrite <- app_assoc.
    + constructor; [|exact Hcs]. unfold char_span. cbn [fst snd].
      now rewrite Ha, Hb.
Qed.

Lemma char_spans_spaced txt spans : forall p q cs,
  chain p spans (length (tokenize txt)) ->
  Forall2 (fun sp c => char_span (tokenize txt) sp = Some c) spans cs ->
  q <= length txt ->
  (forall tp, tokenize txt !! p = Some tp -> q <= start tp) ->
  spaced q cs (length txt).
Proof.
  induction spans as [|[lo hi] spans IH]; intros p q cs Hc Hcs Hq Hp.
  - inversion Hcs; subst. exact Hq.
  - inversion Hcs as [|? c ? cs' Hc1 Hcs']; subst.
    destruct Hc as (<- & Hlt & Hc). pose proof (chain_le _ _ _ Hc) as Hhi.
    unfold char_span in Hc1. cbn [fst snd] in Hc1.
    destruct (tokenize txt !! lo) as [ta|] eqn:Ha; [|discriminate].
    destruct (tokenize txt !! (hi - 1)) as [tb|] eqn:Hb; [|discriminate].
    injection Hc1 as <-.
    destruct (tokenize_placed txt _ _ Ha) as (_ & ? & _).
    destruct (tokenize_placed txt _ _ Hb) as (_ & ? & _).
    destruct (token_ends_mono txt (hi - 1 - lo) lo ta tb Ha) as [Hm _].
    { rewrite <- Hb. f_equal. lia. }
    cbn [spaced]. split; [auto|]. split; [lia|].
    apply (IH hi); [exact Hc|exact Hcs'|lia|].
    intros tp Htp.
    apply (tokenize_in_order txt (hi - 1) tb tp Hb).
    rewrite <- Htp. f_equal. lia.
Qed.

(** X16. [segment(text)] always returns, with one character span per token
    span of [segment_tokens(tokenize(text))]: the span from the start of
    its first token to the end of its last.  The character spans are not
    empty, lie inside the text and come in order without overlap; white
    space between sentences belongs to none. *)
Theorem segment_char_spans text :
  exists spans cs,
    segment_tokens (tokenize text) = Return spans
    /\ segment text = Return cs
    /\ Forall2 (fun sp c => char_span (tokenize text) sp = Some c) spans cs
    /\ spaced 0 cs (length text).
Proof.
  destruct (segment_tokens_chain (tokenize text)) as (spans & E & Hc).
  destruct (char_spans_fold text spans 0 [] Hc) as (cs & Ecs & Hcs).
  exists spans, cs. split; [exact E|]. split.
  { unfold segment. rewrite E. exact Ecs. }
  split; [exact Hcs|].
  apply (char_spans_spaced text spans 0 0 cs Hc Hcs); intros; lia.
Qed.

(** X17. [segment_to_graph(text)] always returns the graph of
    [tokens_to_graph(text)] with graph id 0, source id 0 and version 1,
    together with token spans that partition its node list: the spans are
    ranges of node positions, each starting where the one before ends, from
    0 to the number of nodes. *)
Theorem segment_to_graph_partitions text :
  exists g spans,
    segment_to_graph text = Return (g, spans)
    /\ g = token_graph (tokenize text) 0 0 1
    /\ partitions (length (nodes g)) spans.
Proof.
  destruct (segment_tokens_chain (tokenize text)) as (spans & E & Hc).
  exists (token_graph (tokenize text) 0 0 1), spans.
  split.
  { unfold segment_to_graph. rewrite E. cbn [mbind outcome_bind].
    unfold tokens_to_graph. now rewrite graph_of_tokens_closed. }
  split; [reflexivity|].
  unfold partitions. cbn [token_graph nodes]. now rewrite length_imap.
Qed.

End WithUnicode.

End SentenceEnds.

Section SentenceEndExamples.
Import Tokenizer Sentences Spans Boundaries.

Lemma strong_rule_witness :
  exists w,
    seg_step quoted_question 4 ([], 0, 1)%nat
    = Return ([(0, 1 + 1 + w)], 1 + 1 + w, 1 + 1 + w)%nat
    /\ (1 + 1 + w <= 4)%nat
    /\ (forall i t', (i < w)%nat -> quoted_question !! (1 + 1 + i)%nat = Some t' ->
          has_flag TF_SENT_END_WEAK t' = true)
    /\ (forall t', quoted_question !! (1 + 1 + w)%nat = Some t' ->
          has_flag TF_SENT_END_WEAK t' = false).
Proof.
  apply (strong_rule quoted_question [] 0 1 (mkToken 1 [63] 7 8 10));
    reflexivity.
Defined.

Lemma spans_end_at_flags_witness :
  exists spans,
    segment_tokens quoted_question = Return spans
    /\ (forall p span, spans !! p = Some span ->
          snd span = 4%nat \/ ends_flagged quoted_question span)
    /\ (unflagged quoted_question -> spans = [(0, 4)%nat]).
Proof. apply (spans_end_at_flags quoted_question). discriminate. Defined.

End SentenceEndExamples.


(* ===================================================================== *)
(** * The morphology stub *)
(* ===================================================================== *)

Section MorphBits.
Import GraphCore Tokenizer Sentences Morph MorphSpec Analyzer Analysis.

(** ** The bit field *)

Lemma low_bits_range n f :
  0 <= n -> (forall b, n <= b -> Z.testbit f b = false) -> 0 <= f < 2 ^ n.
Proof.
  intros Hn Hb.
  assert (H0 : 0 <= f).
  { apply Z.bits_iff_nonneg_ex. exists n. intros m Hm. apply Hb. lia. }
  split; [exact H0|].
  destruct (Z.lt_ge_cases f (2 ^ n)) as [|Hge]; [assumption|exfalso].
  assert (0 < 2 ^ n) by (apply Z.pow_pos_nonneg; lia).
  assert (Hlog : n <= Z.log2 f).
  { rewrite <- (Z.log2_pow2 n) by lia. apply Z.log2_le_mono. lia. }
  pose proof (Z.bit_log2 f ltac:(lia)) as Hbit.
  rewrite Hb in Hbit by exact Hlog. discriminate.
Qed.

Ltac compare_cases :=
  repeat match goal with
  | |- context [Z.ltb ?x ?y] => destruct (Z.ltb_spec x y)
  | |- context [Z.leb ?x ?y] => destruct (Z.leb_spec x y)
  end; try lia.

Ltac bit_cases :=
  compare_cases;
  repeat match goal with
  | |- context [Z.testbit ?a ?b] => destruct (Z.testbit a b)
  end; reflexivity.

Lemma pack_bits_testbit pos tense num per b : 0 <= b ->
  Z.testbit (pack_bits pos tense num per) b
  = (Z.testbit pos b && (b <? 4))
    || (Z.testbit tense (b - 4) && (4 <=? b) && (b <? 6))
    || (Z.testbit num (b - 6) && (6 <=? b) && (b <? 8))
    || (Z.testbit per (b - 8) && (8 <=? b) && (b <? 10)).
Proof.
  intros Hb. unfold pack_bits.
  change 0xF with (Z.ones 4). change 0x3 with (Z.ones 2).
  rewrite !Z.lor_spec, !Z.shiftl_spec, !Z.land_spec, !Z.testbit_ones by lia.
  bit_cases.
Qed.

Lemma pack_bits_low pos tense num per :
  Z.land (pack_bits pos tense num per) 0xF = Z.land pos 0xF.
Proof.
  change 0xF with (Z.ones 4). apply Z.bits_inj'. intros b Hb.
  rewrite !Z.land_spec, pack_bits_testbit, !Z.testbit_ones by lia.
  bit_cases.
Qed.

Lemma pack_bits_range pos tense num per :
  0 <= pack_bits pos tense num per < 1024.
Proof.
  apply (low_bits_range 10); [lia|]. intros b Hb.
  rewrite pack_bits_testbit by lia. bit_cases.
Qed.

(** X18. [pack_bits] keeps its four fields apart: whatever the arguments,
    the low four bits of the result are those of [pos], the next three
    pairs of bits those of [tense], [num] and [per], each argument cut to
    the width of its field, and the result is below 1024. *)
Theorem pack_bits_fields pos tense num per :
  let w := pack_bits pos tense num per in
  Z.land w 0xF = Z.land pos 0xF
  /\ Z.land (Z.shiftr w 4) 0x3 = Z.land tense 0x3
  /\ Z.land (Z.shiftr w 6) 0x3 = Z.land num 0x3
  /\ Z.land (Z.shiftr w 8) 0x3 = Z.land per 0x3
  /\ 0 <= w < 1024.
Proof.
  cbn zeta. split; [apply pack_bits_low|].
  change 0x3 with (Z.ones 2).
  split; [|split; [|split; [|apply pack_bits_range]]];
    apply Z.bits_inj'; intros b Hb;
    rewrite !Z.land_spec, Z.shiftr_spec, pack_bits_testbit,
      !Z.testbit_ones by lia.
  - replace (b + 4 - 4) with b by lia. bit_cases.
  - replace (b + 6 - 6) with b by lia. bit_cases.
  - replace (b + 8 - 8) with b by lia. bit_cases.
Qed.

End MorphBits.

Section VocabStrings.
Import GraphCore Tokenizer Sentences Morph MorphSpec Analyzer Analysis.

(** ** [get_str] *)

Lemma get_str_of_entry v s id :
  vocab_ok v -> _tok2id v !! s = Some id ->
  1 <= id <= Z.of_nat (length (_id2tok v)) /\ get_str id v = s.
Proof.
  intros Hv Hs. apply Hv in Hs as [Hid Hl].
  pose proof (lookup_lt_Some _ _ _ Hl) as Hlt.
  split; [lia|]. unfold get_str.
  destruct (Z.leb_spec id 0); [lia|].
  destruct (Z.ltb_spec (Z.of_nat (length (_id2tok v))) id); [lia|].
  simpl. now rewrite Hl.
Qed.

Lemma get_str_outside v i :
  i <= 0 \/ Z.of_nat (length (_id2tok v)) < i -> get_str i v = [].
Proof.
  intros Hi. unfold get_str.
  destruct (Z.leb_spec i 0); [reflexivity|].
  destruct (Z.ltb_spec (Z.of_nat (length (_id2tok v))) i); [reflexivity|lia].
Qed.

(** X19. [get_str] undoes [get_id]: in a vocabulary reached by [get_id]
    calls, the id [get_id(s)] returns is between 1 and the number of
    entries and [get_str] of it is [s], at once and after any further
    calls; [get_str] of an id outside that range is the empty string; and
    for an id inside it, [get_id(get_str(i))] is [i] and adds nothing to
    the vocabulary. *)
Theorem get_str_get_id history :
  let v := intern_all history Vocab_init in
  (forall s more,
     1 <= (get_id s v).1 <= Z.of_nat (length (_id2tok (get_id s v).2))
     /\ get_str (get_id s v).1 (intern_all more (get_id s v).2) = s)
  /\ (forall i, i <= 0 \/ Z.of_nat (length (_id2tok v)) < i ->
        get_str i v = [])
  /\ (forall i, 1 <= i <= Z.of_nat (length (_id2tok v)) ->
        get_id (get_str i v) v = (i, v)).
Proof.
  cbn zeta. set (v := intern_all history Vocab_init).
  assert (Hv : vocab_ok v) by apply intern_all_ok, vocab_ok_init.
  split; [|split].
  - intros s more. split.
    + apply (get_str_of_entry _ s); [now apply get_id_ok|].
      apply get_id_recorded.
    + apply get_str_of_entry.
      * now apply intern_all_ok, get_id_ok.
      * apply intern_all_keeps, get_id_recorded.
  - apply get_str_outside.
  - intros i Hi.
    destruct (lookup_lt_is_Some_2 (_id2tok v) (Z.to_nat (i - 1)) ltac:(lia))
      as [s Hs].
    assert (Hid : _tok2id v !! s = Some i) by (apply Hv; split; [lia|exact Hs]).
    destruct (get_str_of_entry v s i Hv Hid) as [_ ->].
    unfold get_id. now rewrite Hid.
Qed.

(** ** The string helpers *)

Lemma endswith_length s suffix :
  endswith s suffix = true -> (length suffix <= length s)%nat.
Proof.
  unfold endswith. intros E. apply andb_true_iff in E as [E _].
  now apply Nat.leb_le in E.
Qed.

Lemma drop_last_0 (s : list Z) : s = take (length s - 0) s.
Proof. now rewrite Nat.sub_0_r, firstn_all. Qed.

(** X20. [_lemma_guess] only ever cuts a suffix, of at most three
    characters: it returns a prefix of its argument, leaves every string of
    three characters or fewer unchanged, and what is left after a cut has
    at least two characters. *)
Theorem lemma_guess_prefix l :
  exists k : nat,
    (k <= 3)%nat
    /\ _lemma_guess l = take (length l - k) l
    /\ ((length l <= 3)%nat -> k = 0%nat)
    /\ (k = 0%nat \/ (2 <= length l - k)%nat).
Proof.
  unfold _lemma_guess, drop_last.
  destruct (endswith l (lit "ing") && (4 <? length l)%nat) eqn:E1.
  { apply andb_true_iff in E1 as [_ E1]. apply Nat.ltb_lt in E1.
    exists 3%nat. repeat split; try lia. }
  destruct (endswith l (lit "ed") && (3 <? length l)%nat) eqn:E2.
  { apply andb_true_iff in E2 as [_ E2]. apply Nat.ltb_lt in E2.
    exists 2%nat. repeat split; try lia. }
  destruct (endswith l (lit "s") && (3 <? length l)%nat
            && negb (endswith l (lit "ss"))) eqn:E3.
  { apply andb_true_iff in E3 as [E3 _].
    apply andb_true_iff in E3 as [_ E3]. apply Nat.ltb_lt in E3.
    exists 1%nat. repeat split; try lia. }
  exists 0%nat. split; [lia|]. split; [apply drop_last_0|]. split; auto.
Qed.

Lemma replace_char_length old new s :
  length (replace_char old new s) = length s.
Proof. apply length_map. Qed.

Lemma replace_char_absent old new s :
  old <> new -> old ∉ replace_char old new s.
Proof.
  intros Hne Hin. unfold replace_char in Hin.
  apply list_elem_of_fmap in Hin as (c & Hc & _).
  destruct (Z.eqb_spec c old); congruence.
Qed.

Lemma replace_char_id old new s : old ∉ s -> replace_char old new s = s.
Proof.
  intros Hs. unfold replace_char. induction s as [|c s IH]; [reflexivity|].
  simpl. rewrite not_elem_of_cons in Hs. destruct Hs as [Hc Hs].
  destruct (Z.eqb_spec c old); [congruence|]. now rewrite IH.
Qed.

Lemma replace_char_keeps old new other s :
  other <> new -> other ∉ s -> other ∉ replace_char old new s.
Proof.
  intros Hne Hs Hin. unfold replace_char in Hin.
  apply list_elem_of_fmap in Hin as (c & Hc & Hcs).
  destruct (Z.eqb_spec c old); [congruence|]. subst. auto.
Qed.

Lemma norm_apostrophes_clean s :
  (0x2019 ∉ _norm_apostrophes s) /\ (0x2018 ∉ _norm_apostrophes s).
Proof.
  unfold _norm_apostrophes. split.
  - apply replace_char_keeps; [discriminate|].
    apply replace_char_absent. discriminate.
  - apply replace_char_absent. discriminate.
Qed.

Lemma norm_apostrophes_idem s :
  _norm_apostrophes (_norm_apostrophes s) = _norm_apostrophes s.
Proof.
  destruct (norm_apostrophes_clean s) as [H1 H2].
  unfold _norm_apostrophes at 1.
  rewrite (replace_char_id 0x2019) by exact H1.
  now apply replace_char_id.
Qed.

(** X21. [_norm_apostrophes] keeps the length, leaves no curly apostrophe
    and changes nothing when applied again; [_strip_possessive] returns the
    normalized string less a suffix of at most two characters, and gives
    the same on a string and on its normalized form, so that the second
    normalization in [analyze_tokens] changes nothing. *)
Theorem strip_possessive_prefix s :
  let n := _norm_apostrophes s in
  length n = length s
  /\ (0x2019 ∉ n) /\ (0x2018 ∉ n)
  /\ _norm_apostrophes n = n
  /\ (exists k : nat, (k <= 2)%nat /\ (k <= length s)%nat
        /\ _strip_possessive s = take (length s - k) n)
  /\ _strip_possessive n = _strip_possessive s.
Proof.
  cbn zeta.
  assert (Hlen : length (_norm_apostrophes s) = length s).
  { unfold _norm_apostrophes. now rewrite !replace_char_length. }
  destruct (norm_apostrophes_clean s) as [H1 H2].
  split; [exact Hlen|]. split; [exact H1|]. split; [exact H2|].
  split; [apply norm_apostrophes_idem|]. split.
  - unfold _strip_possessive, drop_last. rewrite Hlen.
    destruct (endswith (_norm_apostrophes s) (lit "'s")) eqn:E1.
    { apply endswith_length in E1. rewrite Hlen in E1. simpl in E1.
      exists 2%nat. repeat split; lia. }
    destruct (endswith (_norm_apostrophes s) (lit "'")) eqn:E2.
    { apply endswith_length in E2. rewrite Hlen in E2. simpl in E2.
      exists 1%nat. repeat split; lia. }
    exists 0%nat. split; [lia|]. split; [lia|].
    rewrite <- Hlen. apply drop_last_0.
  - unfold _strip_possessive. now rewrite norm_apostrophes_idem.
Qed.

End VocabStrings.

Section Analysis.
Import GraphCore Tokenizer Sentences Morph MorphSpec Analyzer Analysis.
Context `{Casing}.

(** ** One token *)

(** What does not depend on the vocabulary. *)
Lemma entry_eq (l : str) (p b : Z) (st : bool) (v : Vocab) :
  (let '(id, vocab) := get_id l v in (mkMorphInfo l id p b st, vocab))
  = (mkMorphInfo l (get_id l v).1 p b st, (get_id l v).2).
Proof. now destruct (get_id l v). Qed.

Lemma pack_bits_pos p tense num per :
  0 <= p < 16 -> Z.land (pack_bits p tense num per) 0xF = p.
Proof.
  intros Hp. rewrite pack_bits_low. change 0xF with (Z.ones 4).
  rewrite Z.land_ones by lia. apply Z.mod_small. lia.
Qed.

Ltac member := apply (bool_decide_unpack _); vm_compute; exact I.

Ltac expose_pos :=
  unfold POS_X, POS_NOUN, POS_VERB, POS_ADJ, POS_ADV, POS_PRON, POS_DET,
    POS_ADP, POS_CCONJ, POS_SCONJ, POS_PUNCT, POS_NUM, POS_PROPN, POS_AUX
    in *.

Ltac entry_facts :=
  do 4 eexists; split; [apply entry_eq|];
  cbn [pos bits is_stop lemma];
  split; [member|];
  split; [apply pack_bits_pos; expose_pos; lia|];
  split; [apply pack_bits_range|];
  split; [intros; first [discriminate | member]|];
  unfold classified; cbn [pos bits is_stop lemma]; expose_pos;
  repeat split; intros; try discriminate; try congruence; auto.

Lemma analyze_token_spec t v :
  exists l p b st,
    analyze_token t v
    = (mkMorphInfo l (get_id l v).1 p b st, (get_id l v).2)
    /\ p ∈ assigned_pos
    /\ Z.land b 0xF = p
    /\ 0 <= b < 1024
    /\ (st = true -> p ∈ stop_pos)
    /\ classified t (mkMorphInfo l (get_id l v).1 p b st).
Proof.
  unfold analyze_token. cbv zeta.
  destruct (has_flag TF_PUNCT t) eqn:HP; [entry_facts|].
  destruct (has_flag TF_NUM t) eqn:HN; [entry_facts|].
  destruct (bool_decide (_ ∈ _PRON)); [entry_facts|].
  destruct (bool_decide (_ ∈ _DET)); [entry_facts|].
  destruct (bool_decide (_ ∈ _ADP)); [entry_facts|].
  destruct (bool_decide (_ ∈ _CCONJ)); [entry_facts|].
  destruct (bool_decide (_ ∈ _SCONJ)); [entry_facts|].
  destruct (dict_get _AUX_MAP _) as [[[[l0 tn] nm] pr]|]; [entry_facts|].
  destruct (_RE_INITIAL_CAP (text t)) eqn:HC; entry_facts.
Qed.

(** ** The loop *)

Lemma analyze_fold toks : forall src out v,
  vocab_ok v ->
  Forall2 classified src out ->
  Forall (fun m => _tok2id v !! lemma m = Some (lemma_id m)
                   /\ pos m ∈ assigned_pos
                   /\ Z.land (bits m) 0xF = pos m
                   /\ 0 <= bits m < 1024
                   /\ (is_stop m = true -> pos m ∈ stop_pos)) out ->
  let r := foldl analyze_loop (out, v) toks in
  vocab_ok r.2
  /\ Forall2 classified (src ++ toks) r.1
  /\ Forall (fun m => _tok2id r.2 !! lemma m = Some (lemma_id m)
                      /\ pos m ∈ assigned_pos
                      /\ Z.land (bits m) 0xF = pos m
                      /\ 0 <= bits m < 1024
                      /\ (is_stop m = true -> pos m ∈ stop_pos)) r.1
  /\ (forall s id, _tok2id v !! s = Some id -> _tok2id r.2 !! s = Some id).
Proof.
  induction toks as [|t toks IH]; intros src out v Hv Hcl Hout; cbn zeta.
  - simpl. rewrite app_nil_r. auto.
  - cbn [foldl].
    destruct (analyze_token_spec t v)
      as (l & p & b & st & E & Hp & Hb & Hr & Hst & Hc).
    assert (E' : analyze_loop (out, v) t
                 = (out ++ [mkMorphInfo l (get_id l v).1 p b st],
                    (get_id l v).2))
      by (unfold analyze_loop; now rewrite E).
    rewrite E'. clear E E'.
    destruct (IH (src ++ [t])
                (out ++ [mkMorphInfo l (get_id l v).1 p b st])
                (get_id l v).2) as (H1 & H2 & H3 & H4).
    + now apply get_id_ok.
    + apply Forall2_app; [exact Hcl|].
      apply Forall2_cons_2; [exact Hc|constructor].
    + apply Forall_app. split.
      * eapply Forall_impl; [exact Hout|]. intros m (Hm & Hrest).
        split; [now apply get_id_keeps|exact Hrest].
      * apply Forall_cons_2; [|constructor]. cbn [lemma lemma_id pos bits is_stop].
        split; [apply get_id_recorded|auto].
    + rewrite <- app_assoc in H2. split; [exact H1|]. split; [exact H2|].
      split; [exact H3|]. intros s id Hs. apply H4. now apply get_id_keeps.
Qed.

Lemma analyze_tokens_facts toks v :
  vocab_ok v ->
  let r := analyze_tokens toks v in
  length r.1 = length toks
  /\ vocab_ok r.2
  /\ Forall (consistent r.2) r.1
  /\ Forall2 classified toks r.1
  /\ (forall s id, _tok2id v !! s = Some id -> _tok2id r.2 !! s = Some id).
Proof.
  intros Hv. cbn zeta. unfold analyze_tokens.
  destruct (analyze_fold toks [] [] v Hv) as (H1 & H2 & H3 & H4);
    [constructor|constructor|].
  simpl in H2. split; [symmetry; exact (Forall2_length _ _ _ H2)|].
  split; [exact H1|]. split; [|split; [exact H2|exact H4]].
  eapply Forall_impl; [exact H3|]. intros m (Hm & Hp & Hb & Hr & Hs).
  destruct (get_str_of_entry _ _ _ H1 Hm) as [Hid Hstr].
  unfold consistent. auto 10.
Qed.

(** X22. [analyze_tokens] returns one entry per token, and every entry is
    consistent with the vocabulary as the call leaves it: its lemma id is
    between 1 and the number of entries of the vocabulary and [get_str] of
    it is its lemma; its POS id is one of NOUN, PRON, DET, ADP, CCONJ,
    SCONJ, PUNCT, NUM, PROPN and AUX (X, VERB, ADJ and ADV are never
    assigned); the low four bits of its bit field are the POS id and the
    bit field is below 1024; and a stop word is never PUNCT, NUM or PROPN.
    Ids the vocabulary had handed out before stand for the same strings
    afterwards. *)
Theorem analyze_tokens_consistent history toks :
  let v := intern_all history Vocab_init in
  let r := analyze_tokens toks v in
  length r.1 = length toks
  /\ Forall (consistent r.2) r.1
  /\ (forall i, 1 <= i <= Z.of_nat (length (_id2tok v)) ->
        get_str i r.2 = get_str i v).
Proof.
  cbn zeta. set (v := intern_all history Vocab_init).
  assert (Hv : vocab_ok v) by apply intern_all_ok, vocab_ok_init.
  destruct (analyze_tokens_facts toks v Hv) as (H1 & H2 & H3 & _ & H5).
  split; [exact H1|]. split; [exact H3|].
  intros i Hi.
  destruct (lookup_lt_is_Some_2 (_id2tok v) (Z.to_nat (i - 1)) ltac:(lia))
    as [s Hs].
  assert (Hid : _tok2id v !! s = Some i) by (apply Hv; split; [lia|exact Hs]).
  destruct (get_str_of_entry v s i Hv Hid) as [_ ->].
  now destruct (get_str_of_entry _ s i H2 (H5 _ _ Hid)) as [_ ->].
Qed.

(** X23. The rules of [analyze_tokens] in the order they apply: a token
    with the punctuation flag is PUNCT, not a stop word, and its lemma is
    its text with the apostrophes normalized and a possessive ending cut,
    not lowercased; any other token with the number flag is NUM, not a stop
    word, with the lowercased form as lemma; PUNCT and NUM are given to no
    other token; and an entry is PROPN only when the text of the token
    matches the initial-capital pattern, its lemma then being the text
    unchanged. *)
Theorem analyze_tokens_rules toks vocab :
  Forall2 classified toks (analyze_tokens toks vocab).1.
Proof.
  unfold analyze_tokens.
  assert (Hgen : forall toks src out v,
            Forall2 classified src out ->
            Forall2 classified (src ++ toks)
              (foldl analyze_loop (out, v) toks).1).
  { clear toks vocab. induction toks as [|t toks IH]; intros src out v Hcl.
    - simpl. now rewrite app_nil_r.
    - cbn [foldl].
      destruct (analyze_token_spec t v)
        as (l & p & b & st & E & _ & _ & _ & _ & Hc).
      assert (E' : analyze_loop (out, v) t
                   = (out ++ [mkMorphInfo l (get_id l v).1 p b st],
                      (get_id l v).2))
        by (unfold analyze_loop; now rewrite E).
      rewrite E'. clear E E'.
      replace (src ++ t :: toks) with ((src ++ [t]) ++ toks)
        by now rewrite <- app_assoc.
      apply IH. apply Forall2_app; [exact Hcl|].
      apply Forall2_cons_2; [exact Hc|constructor]. }
  apply (Hgen toks [] [] vocab). constructor.
Qed.

End Analysis.


(* ===================================================================== *)
(** * From a text to an annotated graph *)
(* ===================================================================== *)

Section Pipeline.
Import GraphCore Tokenizer Sentences Morph MorphSpec.
Import TokenGraph Analyzer Memory BuilderSpec Analysis.

Local Open Scope nat_scope.

(** ** A graph as [finalize] leaves it in memory *)

Lemma fresh_refs_length n : length (fresh_refs n) = n.
Proof. unfold fresh_refs. now rewrite length_map, length_seq. Qed.

Lemma fresh_refs_lookup n i :
  i < n -> fresh_refs n !! i = Some (Pos.of_succ_nat i).
Proof.
  intros Hi. unfold fresh_refs.
  now rewrite list_lookup_fmap, lookup_seq_lt by exact Hi.
Qed.

Lemma fresh_refs_NoDup n : NoDup (fresh_refs n).
Proof.
  unfold fresh_refs. apply NoDup_fmap_2; [|apply NoDup_seq].
  intros a b. apply SuccNat2Pos.inj.
Qed.

Lemma load_lookup g i nd :
  nodes g !! i = Some nd -> (load g).1 !! Pos.of_succ_nat i = Some nd.
Proof.
  intros Hnd. pose proof (lookup_lt_Some _ _ _ Hnd) as Hi.
  unfold load. cbv zeta. cbn [fst]. apply elem_of_list_to_map_1.
  - rewrite fst_zip by (rewrite fresh_refs_length; lia).
    apply fresh_refs_NoDup.
  - apply (list_elem_of_lookup_2 _ i).
    rewrite lookup_zip_with, (fresh_refs_lookup _ _ Hi), Hnd. reflexivity.
Qed.

Lemma load_nodes g : o_nodes (load g).2 = fresh_refs (length (nodes g)).
Proof. reflexivity. Qed.

Lemma load_distinct g : distinct_nodes (load g).1 (load g).2.
Proof.
  unfold distinct_nodes. rewrite load_nodes.
  split; [apply fresh_refs_NoDup|].
  intros r Hr. apply list_elem_of_lookup in Hr as [i Hi].
  pose proof (lookup_lt_Some _ _ _ Hi) as Hlt.
  rewrite fresh_refs_length in Hlt.
  rewrite (fresh_refs_lookup _ _ Hlt) in Hi. injection Hi as <-.
  destruct (lookup_lt_is_Some_2 (nodes g) i Hlt) as [nd Hnd].
  exists nd. now apply load_lookup.
Qed.

(** The node list after [annotate_graph] on a loaded graph with as many
    entries as nodes. *)
Lemma annotate_loaded g toks ms :
  length toks = length (nodes g) -> length ms = length (nodes g) ->
  exists σ',
    annotate_graph (load g).2 toks ms (load g).1 = Return σ'
    /\ mapM (fun r => σ' !! r) (o_nodes (load g).2)
       = Some (zip_with annotate_node ms (nodes g)).
Proof.
  intros Ht Hm. set (n := length (nodes g)).
  destruct (annotate_loop (load g).1 (load g).2 ms n 0 (load g).1
              (load_distinct g)) as (σ' & Hrun & Hdone & _).
  { rewrite load_nodes, fresh_refs_length. fold n. lia. }
  { lia. }
  { split; [intros; lia|auto]. }
  exists σ'. split.
  - unfold annotate_graph.
    replace (Nat.min _ _) with n; [exact Hrun|].
    rewrite load_nodes, fresh_refs_length. fold n. lia.
  - apply mapM_Some_2. apply Forall2_same_length_lookup_2.
    + rewrite load_nodes, fresh_refs_length, length_zip_with. fold n. lia.
    + intros i r y Hr Hy.
      pose proof (lookup_lt_Some _ _ _ Hr) as Hi.
      rewrite load_nodes, fresh_refs_length in Hi.
      rewrite lookup_zip_with in Hy.
      destruct (ms !! i) as [mi|] eqn:Hmi; [|discriminate].
      destruct (nodes g !! i) as [nd|] eqn:Hnd; [|discriminate].
      injection Hy as <-.
      apply (Hdone i r nd mi); [fold n; lia| | |exact Hmi].
      * exact Hr.
      * rewrite load_nodes, (fresh_refs_lookup _ _ Hi) in Hr.
        injection Hr as <-.
        now apply load_lookup.
Qed.

Section WithClasses.
Context `{Unicode} `{Casing}.

(** X24. The pipeline of [tester.py], for any text and any vocabulary
    reached by [get_id] calls: tokenize, build the graph, analyse the
    tokens and annotate the graph.  [annotate_graph] returns without an
    error and annotates every node, none being left out: the graph then has
    one node per token, node [k] is the token node [k] changed by
    [annotate_node] with the entry [k] of the analysis, so that its
    [sub_type] is the POS id and its [label_id] the lemma id, which
    [get_str] of the vocabulary turns back into the lemma; ids, spans and
    edges are those of [tokens_to_graph]. *)
Theorem pipeline_annotates_every_node text history :
  let toks := tokenize text in
  let g := tokens_to_graph text 0 0 1 in
  let r := analyze_tokens toks (intern_all history Vocab_init) in
  exists σ' g',
    annotate_graph (load g).2 toks r.1 (load g).1 = Return σ'
    /\ graph_value σ' (load g).2 = Some g'
    /\ nodes g' = zip_with annotate_node r.1 (nodes g)
    /\ length (nodes g') = length toks
    /\ edges g' = edges g
    /\ Forall2 (fun n m =>
          sub_type n = pos m /\ label_id n = lemma_id m
          /\ get_str (label_id n) r.2 = lemma m)
         (nodes g') r.1
    /\ (forall k n t, nodes g' !! k = Some n -> toks !! k = Some t ->
          node_id n = Z.of_nat k
          /\ span n = (Z.of_nat (start t), Z.of_nat (end_ t))).
Proof.
  cbn zeta. unfold tokens_to_graph. rewrite graph_of_tokens_closed.
  set (toks := tokenize text).
  set (g := token_graph toks 0 0 1).
  set (v := intern_all history Vocab_init).
  assert (Hv : vocab_ok v) by apply intern_all_ok, vocab_ok_init.
  destruct (analyze_tokens_facts toks v Hv) as (Hlen & _ & Hcons & _).
  assert (Hn : length (nodes g) = length toks) by apply length_imap.
  destruct (annotate_loaded g toks (analyze_tokens toks v).1)
    as (σ' & Hrun & Hmap); [lia|lia|].
  exists σ'. eexists. split; [exact Hrun|]. split.
  { unfold graph_value. rewrite Hmap. reflexivity. }
  cbn [nodes edges]. split; [reflexivity|].
  split; [rewrite length_zip_with; lia|]. split; [reflexivity|].
  split.
  - apply Forall2_same_length_lookup_2; [rewrite length_zip_with; lia|].
    intros k n m Hk Hm. rewrite lookup_zip_with, Hm in Hk.
    destruct (nodes g !! k) as [nd|] eqn:Hnd; [|discriminate].
    cbn [mbind option_bind] in Hk. injection Hk as <-.
    destruct (annotate_node_fields m nd) as (_ & _ & _ & _ & _ & -> & -> & _).
    rewrite Forall_lookup in Hcons.
    destruct (Hcons k m Hm) as (_ & Hs & _). auto.
  - intros k n t Hk Ht. rewrite lookup_zip_with in Hk.
    unfold g in Hk. cbn [token_graph nodes] in Hk.
    rewrite list_lookup_imap, Ht in Hk.
    destruct ((analyze_tokens toks v).1 !! k) as [m|]; [|discriminate].
    cbn [mbind option_bind] in Hk. injection Hk as <-.
    destruct (annotate_node_fields m (token_node k t))
      as (-> & _ & _ & -> & _). split; reflexivity.
Qed.

End WithClasses.

End Pipeline.

Section AnnotateTwice.
Import GraphCore Tokenizer Morph MorphSpec.

Local Open Scope nat_scope.

Lemma annotate_node_idem mi nd :
  annotate_node mi (annotate_node mi nd) = annotate_node mi nd.
Proof.
  unfold annotate_node. destruct (is_stop mi); simpl; [|reflexivity].
  now rewrite <- Z.lor_assoc, Z.lor_diag.
Qed.

Lemma annotated_index (g : GraphObj) n r :
  r ∈ take n (o_nodes g) -> exists i, i < n /\ o_nodes g !! i = Some r.
Proof.
  intros Hin. apply list_elem_of_lookup in Hin as [i Hi].
  apply lookup_take_Some in Hi as [Hi Hlt]. eauto.
Qed.

(** X27. [annotate_graph] is idempotent: on a graph in memory whose node
    list refers to distinct node objects, a second call with the same
    tokens and morphology returns without an error and leaves every object
    as the first call left it. *)
Theorem annotate_graph_idempotent σ g tokens morphs :
  distinct_nodes σ g ->
  exists σ',
    annotate_graph g tokens morphs σ = Return σ'
    /\ annotate_graph g tokens morphs σ' = Return σ'.
Proof.
  intros Hd. pose proof Hd as [Hnd Hall].
  set (n := common_prefix g tokens morphs).
  assert (Hn1 : n <= length (o_nodes g)) by (unfold n, common_prefix; lia).
  assert (Hn2 : n <= length morphs) by (unfold n, common_prefix; lia).
  destruct (annotate_loop σ g morphs n 0 σ Hd) as (σ' & Hrun & Hdone & Hrest);
    [lia|lia|split; [intros; lia|auto]|].
  simpl in Hdone, Hrest.
  assert (Hd' : distinct_nodes σ' g).
  { split; [exact Hnd|]. intros r Hr.
    destruct (Hall r Hr) as [nd Hσ].
    destruct (decide (r ∈ take n (o_nodes g))) as [Hin|Hout].
    - destruct (annotated_index g n r Hin) as (i & Hi & Hri).
      destruct (lookup_lt_is_Some_2 morphs i ltac:(lia)) as [mi Hmi].
      rewrite (Hdone i r nd mi Hi Hri Hσ Hmi). eauto.
    - rewrite (Hrest r Hout), Hσ. eauto. }
  destruct (annotate_loop σ' g morphs n 0 σ' Hd')
    as (σ'' & Hrun' & Hdone' & Hrest');
    [lia|lia|split; [intros; lia|auto]|].
  simpl in Hdone', Hrest'.
  exists σ'. split; [exact Hrun|].
  unfold annotate_graph. fold (common_prefix g tokens morphs). fold n.
  rewrite Hrun'. f_equal. apply map_eq. intros r.
  destruct (decide (r ∈ take n (o_nodes g))) as [Hin|Hout].
  - destruct (annotated_index g n r Hin) as (i & Hi & Hri).
    destruct (lookup_lt_is_Some_2 morphs i ltac:(lia)) as [mi Hmi].
    destruct (Hall r (list_elem_of_lookup_2 _ _ _ Hri)) as [nd Hσ].
    pose proof (Hdone i r nd mi Hi Hri Hσ Hmi) as H1.
    rewrite (Hdone' i r _ mi Hi Hri H1 Hmi), H1.
    now rewrite annotate_node_idem.
  - exact (Hrest' r Hout).
Qed.

End AnnotateTwice.

Section AnnotateTwiceExample.
Import GraphCore Tokenizer Morph MorphSpec.

Lemma annotate_graph_idempotent_witness :
  exists σ',
    annotate_graph demo_graph demo_tokens demo_morphs demo_store = Return σ'
    /\ annotate_graph demo_graph demo_tokens demo_morphs σ' = Return σ'.
Proof.
  apply (annotate_graph_idempotent demo_store demo_graph demo_tokens
           demo_morphs).
  apply dense_ids_distinct.
  intros i r Hr. destruct i as [|[|[|i]]]; simpl in Hr;
    try discriminate; injection Hr as <-; eexists; split; reflexivity.
Defined.

End AnnotateTwiceExample.


(* ===================================================================== *)
(** * No token holds white space *)
(* ===================================================================== *)

Section NoWhiteSpace.
Import Tokenizer Sentences TokenSpec Layout.

Local Open Scope nat_scope.

(** ** The character classes *)

Ltac class_nonspace :=
  intros c Hc; apply not_true_is_false; intros Hs; revert Hc Hs;
  unfold is_local, is_domain, is_handle, is_alnum, is_letter, is_joiner,
    is_punct, isspace, between;
  rewrite ?orb_true_iff, ?andb_true_iff, ?Z.leb_le, ?Z.eqb_eq; lia.

Lemma is_letter_nonspace : forall c, is_letter c = true -> isspace c = false.
Proof. class_nonspace. Qed.
Lemma is_alnum_nonspace : forall c, is_alnum c = true -> isspace c = false.
Proof. class_nonspace. Qed.
Lemma is_local_nonspace : forall c, is_local c = true -> isspace c = false.
Proof. class_nonspace. Qed.
Lemma is_domain_nonspace : forall c, is_domain c = true -> isspace c = false.
Proof. class_nonspace. Qed.
Lemma is_handle_nonspace : forall c, is_handle c = true -> isspace c = false.
Proof. class_nonspace. Qed.
Lemma is_joiner_nonspace : forall c, is_joiner c = true -> isspace c = false.
Proof. class_nonspace. Qed.
Lemma is_punct_nonspace : forall c, is_punct c = true -> isspace c = false.
Proof. class_nonspace. Qed.

Lemma run_prefix p l : forall k,
  k <= run p l -> Forall (fun c => p c = true) (take k l).
Proof.
  induction l as [|c l IH]; intros k Hk.
  - destruct k; constructor.
  - destruct k as [|k]; [constructor|]. simpl in *.
    destruct (p c) eqn:Hp; [|lia]. constructor; [exact Hp|]. apply IH. lia.
Qed.

Lemma run_nonspace p l k :
  (forall c, p c = true -> isspace c = false) ->
  k <= run p l -> nonspace (take k l).
Proof.
  intros Hp Hk. apply (Forall_impl _ _ _ (run_prefix p l k Hk)). exact Hp.
Qed.

Lemma nonspace_app l k : nonspace l -> nonspace k -> nonspace (l ++ k).
Proof. intros. apply Forall_app. now split. Qed.

Lemma starts_with_take pre : forall l,
  starts_with pre l = true -> take (length pre) l = pre.
Proof.
  induction pre as [|a pre IH]; intros [|b l] Hs; simpl in *;
    try reflexivity; try discriminate.
  apply andb_true_iff in Hs as [Hab Hs]. apply Z.eqb_eq in Hab.
  subst. f_equal. now apply IH.
Qed.

(** ** The alternatives *)

Lemma prefix_then_nonspace_clean pre l n :
  nonspace pre -> prefix_then_nonspace pre l = Some n -> nonspace (take n l).
Proof.
  intros Hpre. unfold prefix_then_nonspace.
  destruct (starts_with pre l) eqn:Hs; [|discriminate].
  destruct (0 <? _); [|discriminate]. intros [= <-].
  rewrite <- take_take_drop. apply nonspace_app.
  - now rewrite (starts_with_take _ _ Hs).
  - apply (run_nonspace (fun c => negb (isspace c))); [|lia].
    intros c. apply negb_true_iff.
Qed.

Lemma literal_nonspace (s : list Z) :
  forallb (fun c => negb (isspace c)) s = true -> nonspace s.
Proof.
  intros Hs. unfold nonspace. induction s as [|c s IH]; [constructor|].
  simpl in Hs. apply andb_true_iff in Hs as [Hc Hs].
  constructor; [now apply negb_true_iff|auto].
Qed.

Lemma match_URL_clean l n : match_URL l = Some n -> nonspace (take n l).
Proof.
  unfold match_URL.
  destruct (prefix_then_nonspace (lit "https://") l) eqn:H1.
  { intros [= <-]. eapply prefix_then_nonspace_clean; [|exact H1].
    now apply literal_nonspace. }
  destruct (prefix_then_nonspace (lit "http://") l) eqn:H2.
  { intros [= <-]. eapply prefix_then_nonspace_clean; [|exact H2].
    now apply literal_nonspace. }
  intros H3. eapply prefix_then_nonspace_clean; [|exact H3].
  now apply literal_nonspace.
Qed.

Lemma email_domain_clean l : forall m n,
  m <= run is_domain l -> email_domain l m = Some n -> nonspace (take n l).
Proof.
  induction m as [|m IH]; intros n Hm; [discriminate|]. cbn [email_domain].
  destruct (drop (S m) l) as [|c l'] eqn:Hd; [apply IH; lia|].
  destruct ((c =? 46)%Z && (2 <=? run is_letter l')) eqn:Hc; [|apply IH; lia].
  intros [= <-]. apply andb_true_iff in Hc as [Hc _]. apply Z.eqb_eq in Hc.
  replace (S (m + 1 + run is_letter l')) with (S m + S (run is_letter l'))
    by lia.
  rewrite <- take_take_drop, Hd. apply nonspace_app.
  - apply (run_nonspace is_domain); [exact is_domain_nonspace|exact Hm].
  - rewrite firstn_cons. constructor; [now subst|].
    apply (run_nonspace is_letter); [exact is_letter_nonspace|lia].
Qed.

Lemma match_EMAIL_clean l n : match_EMAIL l = Some n -> nonspace (take n l).
Proof.
  unfold match_EMAIL. destruct (run is_local l =? 0); [discriminate|].
  destruct (drop (run is_local l) l) as [|c l'] eqn:Hd; [discriminate|].
  destruct (Z.eqb_spec c 64) as [->|]; [|discriminate].
  destruct (email_domain l' (run is_domain l')) as [n0|] eqn:He;
    [|discriminate].
  intros [= <-].
  replace (run is_local l + 1 + n0) with (run is_local l + S n0) by lia.
  rewrite <- take_take_drop, Hd. apply nonspace_app.
  - apply (run_nonspace is_local); [exact is_local_nonspace|lia].
  - rewrite firstn_cons. constructor; [reflexivity|].
    eapply email_domain_clean; [|exact He]. lia.
Qed.

Lemma match_HANDLE_clean l n : match_HANDLE l = Some n -> nonspace (take n l).
Proof.
  unfold match_HANDLE. destruct l as [|c l]; [discriminate|].
  destruct (((c =? 64)%Z || (c =? 35)%Z) && (0 <? run is_handle l)) eqn:Hc;
    [|discriminate].
  intros [= <-]. apply andb_true_iff in Hc as [Hc _].
  cbn [Nat.add]. rewrite firstn_cons. constructor.
  - apply orb_true_iff in Hc as [Hc|Hc]; apply Z.eqb_eq in Hc; now subst.
  - apply (run_nonspace is_handle); [exact is_handle_nonspace|lia].
Qed.

Lemma match_ELLIPSIS_clean l n :
  match_ELLIPSIS l = Some n -> nonspace (take n l).
Proof.
  unfold match_ELLIPSIS.
  destruct (starts_with [0x2026%Z] l) eqn:H1.
  { intros [= <-]. pose proof (starts_with_take [0x2026%Z] _ H1) as E.
    cbn [length] in E. rewrite E. now apply literal_nonspace. }
  destruct (starts_with [46; 46; 46]%Z l) eqn:H2; [|discriminate].
  intros [= <-]. pose proof (starts_with_take [46; 46; 46]%Z _ H2) as E.
  cbn [length] in E. rewrite E. now apply literal_nonspace.
Qed.

Lemma wordish_rest_clean l : nonspace (take (wordish_rest l) l).
Proof.
  induction l as [|c l IH]; [constructor|]. simpl.
  destruct (is_alnum c) eqn:Ha.
  { rewrite firstn_cons. constructor; [now apply is_alnum_nonspace|exact IH]. }
  destruct (is_joiner c) eqn:Hj; [|constructor].
  destruct l as [|c' l]; [constructor|].
  destruct (is_alnum c'); [|constructor].
  rewrite firstn_cons. constructor; [now apply is_joiner_nonspace|exact IH].
Qed.

Lemma match_WORD_clean l n : match_WORD l = Some n -> nonspace (take n l).
Proof.
  unfold match_WORD. destruct l as [|c l]; [discriminate|].
  destruct (is_alnum c) eqn:Ha; [|discriminate]. intros [= <-].
  rewrite firstn_cons. constructor; [now apply is_alnum_nonspace|].
  apply wordish_rest_clean.
Qed.

Lemma match_PUNCT_clean l n : match_PUNCT l = Some n -> nonspace (take n l).
Proof.
  unfold match_PUNCT. destruct l as [|c l]; [discriminate|].
  destruct (is_punct c) eqn:Hp; [|discriminate]. intros [= <-].
  rewrite firstn_cons. constructor; [now apply is_punct_nonspace|constructor].
Qed.

Lemma _MASTER_clean l kind n :
  _MASTER l = Some (kind, n) -> kind <> WS -> nonspace (take n l).
Proof.
  unfold _MASTER.
  destruct (match_URL l) eqn:H1; simpl.
  { intros [= <- <-] _. eauto using match_URL_clean. }
  destruct (match_EMAIL l) eqn:H2; simpl.
  { intros [= <- <-] _. eauto using match_EMAIL_clean. }
  destruct (match_HANDLE l) eqn:H3; simpl.
  { intros [= <- <-] _. eauto using match_HANDLE_clean. }
  destruct (match_ELLIPSIS l) eqn:H4; simpl.
  { intros [= <- <-] _. eauto using match_ELLIPSIS_clean. }
  destruct (match_WORD l) eqn:H5; simpl.
  { intros [= <- <-] _. eauto using match_WORD_clean. }
  destruct (match_PUNCT l) eqn:H6; simpl.
  { intros [= <- <-] _. eauto using match_PUNCT_clean. }
  destruct (match_WS l) eqn:H7; simpl; [|discriminate].
  intros [= <- <-] Hws. congruence.
Qed.

Lemma _MASTER_none_nonspace c l : _MASTER (c :: l) = None -> isspace c = false.
Proof.
  unfold _MASTER.
  destruct (match_URL (c :: l)); cbn [first_match tag]; [intros; discriminate|].
  destruct (match_EMAIL (c :: l)); cbn [first_match tag]; [intros; discriminate|].
  destruct (match_HANDLE (c :: l)); cbn [first_match tag]; [intros; discriminate|].
  destruct (match_ELLIPSIS (c :: l)); cbn [first_match tag]; [intros; discriminate|].
  destruct (match_WORD (c :: l)); cbn [first_match tag]; [intros; discriminate|].
  destruct (match_PUNCT (c :: l)); cbn [first_match tag]; [intros; discriminate|].
  unfold match_WS. cbn [run]. destruct (isspace c); [discriminate|reflexivity].
Qed.

(** Where the scan reports nothing there is no white space. *)
Lemma finditer_from_nil_nonspace l : forall pos,
  finditer_from l pos 0 = [] -> nonspace l.
Proof.
  induction l as [|c l IH]; intros pos Hf; [constructor|].
  simpl in Hf. destruct (_MASTER (c :: l)) as [[kind len]|] eqn:HM;
    [discriminate|].
  constructor; [now apply (_MASTER_none_nonspace c l)|].
  exact (IH (S pos) Hf).
Qed.

(** ** The tokens *)

Section WithUnicode.
Context `{Unicode}.

Lemma scan_fold_nonspace txt ms : forall st,
  (forall m, m ∈ ms ->
     _MASTER (drop (m_start m) txt)
     = Some (lastgroup m, m_end m - m_start m)) ->
  Forall (fun t => nonspace (text t)) (tokens st) ->
  Forall (fun t => nonspace (text t))
    (tokens (foldl (scan_step txt) st ms)).
Proof.
  induction ms as [|m ms IH]; intros st Hms Hst; simpl; [exact Hst|].
  apply IH; [intros m' Hm'; apply Hms; now right|].
  unfold scan_step. case_bool_decide as Hws; [exact Hst|]. simpl.
  apply Forall_app. split; [exact Hst|]. constructor; [|constructor].
  simpl. eapply _MASTER_clean; [|exact Hws]. apply Hms. now left.
Qed.

Lemma scan_nonspace txt :
  Forall (fun t => nonspace (text t)) (tokens (scan txt)).
Proof.
  unfold scan.
  assert (Hst : Forall (fun t => nonspace (text t))
            (tokens (foldl (scan_step txt) (mkLocals [] 0 0 []) (finditer txt)))).
  { apply scan_fold_nonspace; [|constructor].
    intros m Hm. apply finditer_from_match in Hm as [_ Hm].
    now rewrite Nat.sub_0_r in Hm. }
  assert (Hrest : nonspace
            (drop (i (foldl (scan_step txt) (mkLocals [] 0 0 []) (finditer txt)))
               txt)).
  { unfold finditer.
    destruct (snoc_case (finditer_from txt 0 0)) as [Hf|(ms & m & Hf)];
      rewrite Hf.
    - simpl. now apply (finditer_from_nil_nonspace txt 0).
    - rewrite foldl_app. simpl. rewrite scan_step_i.
      destruct (finditer_from_last txt 0 0 _ _ ltac:(lia) Hf) as [_ Hn].
      rewrite Nat.sub_0_r in Hn.
      now apply finditer_from_nil_nonspace in Hn. }
  set (st := foldl (scan_step txt) (mkLocals [] 0 0 []) (finditer txt)) in *.
  unfold fallback. destruct (i st <? length txt); [|exact Hst].
  simpl. apply Forall_app. split; [exact Hst|].
  constructor; [exact Hrest|constructor].
Qed.

(** X26. No token of [tokenize(text)] contains a white-space character,
    whichever alternative of the pattern or the fallback produced it: white
    space only ever separates tokens. *)
Theorem tokenize_no_white_space txt :
  Forall (fun t => Forall (fun c => isspace c = false) (text t))
    (tokenize txt).
Proof.
  apply Forall_lookup_2. intros k t Ht.
  destruct (tokenize_lookup txt k t Ht) as (t0 & H0 & Hrel).
  destruct Hrel as (_ & -> & _).
  pose proof (scan_nonspace txt) as Hs. rewrite Forall_lookup in Hs.
  exact (Hs k t0 H0).
Qed.

End WithUnicode.

End NoWhiteSpace.
